(** * fix_pixel_art.py: recovering pixel art from upscaled images

    A shallow embedding of the numeric pipeline of [fix_pixel_art.py]
    (diversity-first palette, nearest-colour quantisation, grid-period
    estimation, block-mode downscale) and the properties of it that the
    specification states.

    Conventions.
    - numpy arrays are flat row-major lists together with their shape
      (the way numpy stores a C-contiguous buffer);
    - Python integers are [Z] where the code can receive a non-positive
      value (block sizes, search bounds, the colour count) and [nat] where
      they index or count;
    - [uint8] values are [nat]; a cast to [uint8] is written [mod 256];
    - float64 values are an abstract type [F] with the operations the
      code applies to them; the order [<] on the floats that occur (no
      NaN is produced from 8-bit colours) is a strict weak order, which
      is what the statements about [argmin]/[argmax] assume;
    - Python exceptions are the [Raise] outcome of the [result] monad. *)

From Stdlib Require Import List Arith ZArith Lia Bool.
Import ListNotations.

(** ** Outcomes of a call *)

Inductive exn : Type :=
| ZeroDivisionError
| ValueError
| IndexError.

Inductive result (A : Type) : Type :=
| Ok (a : A)
| Raise (e : exn)
| OutOfFuel.

Arguments Ok {A} a.
Arguments Raise {A} e.
Arguments OutOfFuel {A}.

Definition bind {A B : Type} (m : result A) (k : A -> result B) : result B :=
  match m with
  | Ok a => k a
  | Raise e => Raise e
  | OutOfFuel => OutOfFuel
  end.

Declare Scope result_scope.
Delimit Scope result_scope with result.
Notation "x <- m ;; k" := (bind m (fun x => k))
  (at level 61, m at next level, right associativity) : result_scope.
Notation "' p <- m ;; k" := (bind m (fun p => k))
  (at level 61, p pattern, m at next level, right associativity) : result_scope.
Open Scope result_scope.

Fixpoint mapM {A B : Type} (f : A -> result B) (xs : list A) : result (list B) :=
  match xs with
  | [] => Ok []
  | x :: xs' => y <- f x ;; ys <- mapM f xs' ;; Ok (y :: ys)
  end.

(** ** numpy helpers that do not depend on the element type *)

(** [np.argmax] / [np.argmin] on a 1-D array: one left-to-right scan that
    keeps the running extremum [mp] and its position [mi], and replaces
    them only when the new element is strictly better.  [better mp x]
    is [mp < x] for argmax and [x < mp] for argmin. *)
Fixpoint arg_scan {A : Type} (better : A -> A -> bool)
         (mp : A) (mi i : nat) (xs : list A) : nat :=
  match xs with
  | [] => mi
  | x :: xs' =>
      if better mp x then arg_scan better x i (S i) xs'
      else arg_scan better mp mi (S i) xs'
  end.

(** An empty array makes numpy raise [ValueError]. *)
Definition np_arg {A : Type} (better : A -> A -> bool) (xs : list A) : result nat :=
  match xs with
  | [] => Raise ValueError
  | x :: xs' => Ok (arg_scan better x 0 1 xs')
  end.

(** [np.bincount(xs, minlength=m)]: entry [v] counts the occurrences of
    [v]; the length is [max m (1 + max xs)]. *)
Definition np_bincount (xs : list nat) (minlength : nat) : list nat :=
  map (fun v => count_occ Nat.eq_dec xs v)
      (seq 0 (Nat.max minlength (fold_right (fun x m => Nat.max (S x) m) 0 xs))).

(** [np.argmax] on an integer array. *)
Definition np_argmax_int (xs : list nat) : result nat := np_arg Nat.ltb xs.

(** [.astype(np.uint8)] on a non-negative integer. *)
Definition uint8 (n : nat) : nat := n mod 256.

(** Python's [a // b] on integers: floor division, [ZeroDivisionError]
    when [b = 0].  [Z.div] rounds towards minus infinity as Python does. *)
Definition py_floordiv (a b : Z) : result Z :=
  if (b =? 0)%Z then Raise ZeroDivisionError else Ok (a / b)%Z.

(** [range(lo, hi)] on Python integers. *)
Definition py_range (lo hi : Z) : list Z :=
  map (fun i => (lo + Z.of_nat i)%Z) (seq 0 (Z.to_nat (hi - lo))).

(** A slice bound [xs[:n]] on an axis of length [len]: a negative bound
    counts from the end, and the result is clamped to the axis. *)
Definition py_stop (len : nat) (n : Z) : nat :=
  Nat.min len (Z.to_nat (if (n <? 0)%Z then Z.of_nat len + n else n)%Z).

(** [xs[o::s]] for [s >= 1]: the elements at positions [o], [o+s], ...
    ([s] is passed as its predecessor). *)
Fixpoint every_nth {A : Type} (s' : nat) (k : nat) (xs : list A) : list A :=
  match xs with
  | [] => []
  | x :: xs' =>
      match k with
      | 0 => x :: every_nth s' s' xs'
      | S k' => every_nth s' k' xs'
      end
  end.

Definition strided {A : Type} (xs : list A) (o s : nat) : list A :=
  every_nth (s - 1) 0 (skipn o xs).

(** ** Colours *)

Record RGB : Type := mkRGB { red : nat; green : nat; blue : nat }.

Definition RGB_eqb (p q : RGB) : bool :=
  (red p =? red q) && (green p =? green q) && (blue p =? blue q).

(** The values of an image: an [h] x [w] array of RGB triples stored row
    by row ([img_np], shape [(h, w, 3)]). *)
Record RawImage : Type := mkRaw { im_h : nat; im_w : nat; im_px : list RGB }.

(** A mode-["P"] image: an [h] x [w] array of palette indices stored row
    by row, and the flat palette given to [putpalette]. *)
Record PImage : Type :=
  mkP { p_h : nat; p_w : nat; p_idx : list nat; p_palette : list nat }.

(** Entry [(y, x)] of a 2-D array of width [w] stored row by row. *)
Definition at2 (w : nat) (data : list nat) (y x : nat) : nat :=
  nth (y * w + x) data 0.

(** ** float64 *)

(** The float64 operations the program applies.  [to_lab] is what
    [_rgb_to_lab] computes for one row of its input (the function works
    row by row; it uses [cbrt] and a power with exponent 2.4).
    [fsum], [fmean] and [fstd] are numpy's [sum], [mean] and [std]
    reductions; [of_int] converts an integer; [fneg_one] and [f_1e_6]
    are the literals [-1.0] and [1e-6]. *)
Class Float64 (F : Type) : Type := {
  fadd : F -> F -> F;
  fsub : F -> F -> F;
  fmul : F -> F -> F;
  fdiv : F -> F -> F;
  fsqrt : F -> F;
  fabs : F -> F;
  fsum : list F -> F;
  fmean : list F -> F;
  fstd : list F -> F;
  fltb : F -> F -> bool;
  of_int : Z -> F;
  fzero : F;
  fneg_one : F;
  f_1e_6 : F;
  to_lab : RGB -> F * F * F
}.

(** A model of the interface on the integers (with the integer square
    root), on which every definition below evaluates. *)
Module IntModel.

Definition isum (xs : list Z) : Z := fold_left Z.add xs 0%Z.

Definition imean (xs : list Z) : Z := (isum xs / Z.of_nat (length xs))%Z.

Definition istd (xs : list Z) : Z :=
  Z.sqrt (imean (map (fun x => (x - imean xs) * (x - imean xs))%Z xs)).

Definition ilab (p : RGB) : Z * Z * Z :=
  (Z.of_nat (red p), Z.of_nat (green p), Z.of_nat (blue p)).

Definition ops : Float64 Z := {|
  fadd := Z.add;
  fsub := Z.sub;
  fmul := Z.mul;
  fdiv := Z.div;
  fsqrt := Z.sqrt;
  fabs := Z.abs;
  fsum := isum;
  fmean := imean;
  fstd := istd;
  fltb := Z.ltb;
  of_int := fun z => z;
  fzero := 0%Z;
  fneg_one := (-1)%Z;
  f_1e_6 := 1%Z;
  to_lab := ilab
|}.

End IntModel.

(** ** The program *)

Section Program.

Context {F : Type} {ops : Float64 F}.

Definition Lab : Type := (F * F * F)%type.

Definition lab_L (c : Lab) : F := fst (fst c).
Definition lab_a (c : Lab) : F := snd (fst c).
Definition lab_b (c : Lab) : F := snd c.

(** [np.argmax] and [np.argmin] on a float array. *)
Definition np_argmax (xs : list F) : result nat :=
  np_arg (fun mp x => fltb mp x) xs.

Definition np_argmin (xs : list F) : result nat :=
  np_arg (fun mp x => fltb x mp) xs.

(** [np.minimum] on two floats: the first one unless the second is
    smaller. *)
Definition np_minimum (x y : F) : F := if fltb y x then y else x.

(** [_rgb_to_lab] on an [(N, 3)] array. *)
Definition _rgb_to_lab (rgb8 : list RGB) : list Lab := map to_lab rgb8.

(** [_deltaE76] between two rows: [d = lab1 - lab2],
    [sqrt(sum(d*d))]. *)
Definition _deltaE76 (lab1 lab2 : Lab) : F :=
  let dL := fsub (lab_L lab1) (lab_L lab2) in
  let da := fsub (lab_a lab1) (lab_a lab2) in
  let db := fsub (lab_b lab1) (lab_b lab2) in
  fsqrt (fsum [fmul dL dL; fmul da da; fmul db db]).

(** [dist_fn(cand_lab, p[None, :])]: the distance of every row to [p]. *)
Definition dist_to (cand_lab : list Lab) (p : Lab) : list F :=
  map (fun c => _deltaE76 c p) cand_lab.

(** The chroma column of line 116. *)
Definition chroma (c : Lab) : F :=
  fsqrt (fadd (fmul (lab_a c) (lab_a c)) (fmul (lab_b c) (lab_b c))).

(** [dist_fn(cand_lab, cand_lab[idx:idx+1]).reshape(N)]: a slice that
    starts past the end is empty.  Against [N >= 2] rows the empty slice
    does not broadcast, against one row the empty result does not
    reshape to [N = 1]: both raise [ValueError].  Against an empty
    array everything is empty and the result is the empty row. *)
Definition dist_to_row (cand_lab : list Lab) (idx : nat) : result (list F) :=
  match nth_error cand_lab idx with
  | Some p => Ok (dist_to cand_lab p)
  | None =>
      match cand_lab with
      | [] => Ok []
      | _ :: _ => Raise ValueError
      end
  end.

(** The loop of lines 120-123, [n] iterations left. *)
Fixpoint farthest_loop (cand_lab : list Lab) (n : nat)
         (chosen : list nat) (dmin : list F) : result (list nat) :=
  match n with
  | 0 => Ok chosen
  | S n' =>
      idx <- np_argmax dmin ;;
      d <- dist_to_row cand_lab idx ;;
      farthest_loop cand_lab n' (chosen ++ [idx])
                    (map (fun p => np_minimum (fst p) (snd p)) (combine dmin d))
  end.

Definition _farthest_point_palette (cand_lab : list Lab) (K : Z)
           (seed_idx : option nat) : result (list nat) :=
  seed <- match seed_idx with
          | None => np_argmax (map chroma cand_lab)
          | Some s => Ok s
          end ;;
  dmin <- dist_to_row cand_lab seed ;;
  farthest_loop cand_lab (Z.to_nat (K - 1)) [seed] dmin.

(** [cand[idx]] with an index array: [IndexError] out of range. *)
Definition take_rows {A : Type} (cand : list A) (idx : list nat) : result (list A) :=
  mapM (fun i => match nth_error cand i with
                 | Some c => Ok c
                 | None => Raise IndexError
                 end) idx.

(** [np.stack([...], axis=1)] followed by [np.argmin(D, axis=1)]: for
    every row, the position of its nearest palette entry.  [np.stack]
    of no array raises [ValueError]. *)
Definition nearest_index (lab_pal : list Lab) (c : Lab) : result nat :=
  np_argmin (map (fun p => _deltaE76 c p) lab_pal).

Definition assign_nearest (lab_pal : list Lab) (labs : list Lab) : result (list nat) :=
  match lab_pal with
  | [] => Raise ValueError
  | _ => mapM (nearest_index lab_pal) labs
  end.

(** [np.where(assign == k)[0]]. *)
Definition np_where_eq (assign : list nat) (k : nat) : list nat :=
  map fst (filter (fun p => snd p =? k) (combine (seq 0 (length assign)) assign)).

(** Line 137: for every member, the sum of its distances to all
    members. *)
Definition sum_dists (sub : list Lab) : list F :=
  map (fun x => fsum (map (fun y => _deltaE76 x y) sub)) sub.

Definition _kmedoids_one_iter (cand_lab : list Lab) (palette_idx : list nat)
  : result (list nat) :=
  palette <- take_rows cand_lab palette_idx ;;
  assign <- assign_nearest palette cand_lab ;;
  mapM (fun k =>
          let members := np_where_eq assign k in
          match members with
          | [] => Ok (nth k palette_idx 0)
          | _ =>
              sub <- take_rows cand_lab members ;;
              m <- np_argmin (sum_dists sub) ;;
              Ok (nth m members 0)
          end)
       (seq 0 (length palette)).

(** *** Candidate colours *)

(** [np.arange(0, stop, step)] for a step that is not negative; a zero
    step raises [ZeroDivisionError]. *)
Definition np_arange (stop step : nat) : result (list nat) :=
  if step =? 0 then Raise ZeroDivisionError
  else Ok (map (fun i => i * step) (seq 0 ((stop + step - 1) / step))).

Definition black : RGB := mkRGB 0 0 0.

(** [_sample_uniform_grid]: the pixels at the rows [ys] and columns
    [xs], row by row. *)
Definition _sample_uniform_grid (img_np : RawImage) (step : nat) : result (list RGB) :=
  ys <- np_arange (im_h img_np) step ;;
  xs <- np_arange (im_w img_np) step ;;
  Ok (flat_map (fun y => map (fun x => nth (y * im_w img_np + x) (im_px img_np) black) xs) ys).

(** One channel of line 108 in [uint8] arithmetic, for a bucket width
    [0 <= round_to < 256] (the docstring names 8, 16 and 32): the array
    is [uint8] and a Python integer of that range leaves it so; the
    quotient and the product stay within the channel, and the sum wraps
    modulo 256.  numpy's integer division by zero yields 0, as
    [Nat.div] does.  A width of 256 or more is outside this model:
    numpy then widens the array or raises, depending on its version. *)
Definition bucket_channel (round_to c : nat) : nat :=
  uint8 ((c / round_to) * round_to + round_to / 2).

(** The rows of an array without repetition, each at the place of its
    first occurrence. *)
Fixpoint unique_in_order (seen : list RGB) (xs : list RGB) : list RGB :=
  match xs with
  | [] => []
  | x :: xs' =>
      if existsb (RGB_eqb x) seen then unique_in_order seen xs'
      else x :: unique_in_order (x :: seen) xs'
  end.

(** [_dedup_colors].  [np.unique(q, axis=0, return_index=True)] gives
    the distinct rows in sorted order with the index of the first
    occurrence of each; [uq[idx.argsort()]] puts them back in the order
    of these indices, that is in order of first occurrence. *)
Definition _dedup_colors (rgb : list RGB) (round_to : nat) : list RGB :=
  let q := map (fun p => mkRGB (bucket_channel round_to (red p))
                               (bucket_channel round_to (green p))
                               (bucket_channel round_to (blue p))) rgb in
  unique_in_order [] q.

(** *** Quantisation *)

(** [xs[start:end]] and [out[start:end] = vals] for
    [0 <= start <= end <= len]. *)
Definition slice {A : Type} (xs : list A) (start end_ : nat) : list A :=
  firstn (end_ - start) (skipn start xs).

Definition set_slice {A : Type} (out : list A) (start end_ : nat) (vals : list A) : list A :=
  firstn start out ++ vals ++ skipn end_ out.

(** The [while] loop of lines 162-168.  [fuel] bounds the number of
    iterations; the loop condition is tested before fuel is looked at,
    so [OutOfFuel] means that [fuel] iterations did not reach the end. *)
Fixpoint quantize_loop (fuel : nat) (map_chunk : nat) (flat_rgb : list RGB)
         (lab_pal : list Lab) (start : nat) (out_idx : list nat) : result (list nat) :=
  if start <? length flat_rgb then
    match fuel with
    | 0 => OutOfFuel
    | S fuel' =>
        let end_ := Nat.min (start + map_chunk) (length flat_rgb) in
        let lab_chunk := _rgb_to_lab (slice flat_rgb start end_) in
        idx <- assign_nearest lab_pal lab_chunk ;;
        quantize_loop fuel' map_chunk flat_rgb lab_pal end_
                      (set_slice out_idx start end_ (map uint8 idx))
    end
  else Ok out_idx.

(** Lines 157-168.  [np.empty] leaves the contents of [out_idx]
    unspecified: they are the argument [junk].  With a chunk of at least
    one pixel the loop ends within [length flat_rgb] iterations; with a
    chunk of zero pixels it never ends. *)
Definition quantize (flat_rgb : list RGB) (palette_rgb : list RGB)
           (map_chunk : nat) (junk : list nat) : result (list nat) :=
  let lab_pal := _rgb_to_lab palette_rgb in
  quantize_loop (length flat_rgb) map_chunk flat_rgb lab_pal 0 junk.

(** Line 151. *)
Definition palette_size (colors : Z) : Z := Z.max 2 colors.

Definition posterize_diverse (img_rgb : RawImage) (colors : Z)
           (sample_step bucket : nat) (refine : bool) (map_chunk : nat)
  : result PImage :=
  cand_rgb <- _sample_uniform_grid img_rgb sample_step ;;
  let cand_rgb := _dedup_colors cand_rgb bucket in
  let cand_lab := _rgb_to_lab cand_rgb in
  let K := palette_size colors in
  pal_idx <- _farthest_point_palette cand_lab K None ;;
  pal_idx <- (if refine then _kmedoids_one_iter cand_lab pal_idx else Ok pal_idx) ;;
  palette_rgb <- take_rows cand_rgb pal_idx ;;
  let flat_rgb := im_px img_rgb in
  out_idx <- quantize flat_rgb palette_rgb map_chunk (repeat 0 (length flat_rgb)) ;;
  let pal_list := flat_map (fun c => [red c; green c; blue c]) palette_rgb in
  (* line 172: [putpalette] takes at most 256 RGB entries; with more
     than 768 values the padding is empty and Pillow raises
     [ValueError] (invalid palette size) *)
  if 768 <? length pal_list then Raise ValueError
  else Ok (mkP (im_h img_rgb) (im_w img_rgb) out_idx
               (pal_list ++ repeat 0 (768 - length pal_list))).

(** *** Pixel-size estimation *)

(** The inner loop of [_best_period] (lines 185-192) for a period
    [s >= 1]: the best mean absolute value over the phases [o] whose
    strided sub-sequence has more than one element. *)
Definition best_phase_score (strength : list F) (s : nat) : F :=
  fold_left (fun best_for_s o =>
               let vals := strided strength o s in
               if length vals <=? 1 then best_for_s
               else
                 let score := fmean (map fabs vals) in
                 if fltb best_for_s score then score else best_for_s)
            (seq 0 s) fneg_one.

(** One turn of the outer loop (lines 184-195) on the state
    [(best_s, best_score)].  For [s = 0] the inner loop is empty and
    [-1.0 / math.sqrt(0)] raises [ZeroDivisionError]; for [s < 0]
    [math.sqrt(s)] raises [ValueError]. *)
Definition period_step (strength : list F) (st : option Z * F) (s : Z)
  : result (option Z * F) :=
  if (s <? 0)%Z then Raise ValueError
  else if (s =? 0)%Z then Raise ZeroDivisionError
  else
    let best_for_s := best_phase_score strength (Z.to_nat s) in
    let score := fdiv best_for_s (fsqrt (of_int s)) in
    Ok (if fltb (snd st) score then (Some s, score) else st).

Fixpoint period_loop (strength : list F) (st : option Z * F) (ss : list Z)
  : result (option Z * F) :=
  match ss with
  | [] => Ok st
  | s :: ss' => st' <- period_step strength st s ;; period_loop strength st' ss'
  end.

Definition _best_period (strength : list nat) (lo hi : Z) : result Z :=
  let strength := map (fun x => of_int (Z.of_nat x)) strength in
  let mean := fmean strength in
  let std := fstd strength in
  let strength := map (fun x => fdiv (fsub x mean) (fadd std f_1e_6)) strength in
  let n := Z.of_nat (length strength) in
  st <- period_loop strength (None, fneg_one) (py_range lo (Z.min hi n + 1)) ;;
  Ok (match fst st with
      | None => 1%Z
      | Some s => if (s =? 0)%Z then 1%Z else s
      end).

(** The number of positions of a list of booleans that hold ([sum] of a
    0/1 array). *)
Definition count_true (bs : list bool) : nat := length (filter (fun b => b) bs).

Definition estimate_grid_step_from_edges (pal_img : PImage) (smin smax : Z)
  : result (Z * Z) :=
  let H := p_h pal_img in
  let W := p_w pal_img in
  let arr := at2 W (p_idx pal_img) in
  let col_strength :=
    map (fun x => count_true (map (fun y => negb (arr y (S x) =? arr y x)) (seq 0 H)))
        (seq 0 (W - 1)) in
  let row_strength :=
    map (fun y => count_true (map (fun x => negb (arr (S y) x =? arr y x)) (seq 0 W)))
        (seq 0 (H - 1)) in
  sx <- _best_period col_strength smin smax ;;
  sy <- _best_period row_strength smin smax ;;
  Ok (sy, sx).

(** *** Block-mode downscale *)

(** The shape numpy's [reshape] settles on for an array of [size]
    elements: a negative entry stands for the one unknown dimension;
    two of them, an unknown dimension that cannot be solved for, or a
    product different from [size] raise [ValueError]. *)
Definition np_reshape_shape (size : nat) (dims : list Z) : result (list nat) :=
  let unknown := length (filter (fun d => (d <? 0)%Z) dims) in
  let s_known :=
    fold_left Nat.mul (map Z.to_nat (filter (fun d => (0 <=? d)%Z) dims)) 1 in
  match unknown with
  | 0 => if s_known =? size then Ok (map Z.to_nat dims) else Raise ValueError
  | 1 =>
      if (s_known =? 0) || negb (size mod s_known =? 0) then Raise ValueError
      else Ok (map (fun d => if (d <? 0)%Z then size / s_known else Z.to_nat d) dims)
  | _ => Raise ValueError
  end.

(** [arr[:H2, :W2]] on an [h] x [w] array: the new shape and contents. *)
Definition crop2 (h w : nat) (data : list nat) (H2 W2 : Z) : nat * nat * list nat :=
  let h' := py_stop h H2 in
  let w' := py_stop w W2 in
  (h', w', flat_map (fun y => firstn w' (skipn (y * w) data)) (seq 0 h')).

(** [a.reshape(d0, d1, d2, d3).swapaxes(1, 2)] read in C order: entry
    [(i, j, r, c)] of the result is entry [(i, r, j, c)] of the reshaped
    array, which is at offset [((i*d1 + r)*d2 + j)*d3 + c]. *)
Definition swapaxes12_flat (d0 d1 d2 d3 : nat) (data : list nat) : list nat :=
  flat_map (fun i =>
    flat_map (fun j =>
      flat_map (fun r =>
        map (fun c => nth (((i * d1 + r) * d2 + j) * d3 + c) data 0) (seq 0 d3))
        (seq 0 d1))
      (seq 0 d2))
    (seq 0 d0).

(** The rows of a [(nb, bs)] array stored row by row. *)
Definition rows_of (nb bs : nat) (data : list nat) : list (list nat) :=
  map (fun n => firstn bs (skipn (n * bs) data)) (seq 0 nb).

Definition downscale_by_mode (pal_img : PImage) (sy sx : Z) : result PImage :=
  let H := p_h pal_img in
  let W := p_w pal_img in
  hq <- py_floordiv (Z.of_nat H) sy ;;
  wq <- py_floordiv (Z.of_nat W) sx ;;
  let H2 := (hq * sy)%Z in
  let W2 := (wq * sx)%Z in
  let '(h', w', arr) := crop2 H W (p_idx pal_img) H2 W2 in
  hb <- py_floordiv H2 sy ;;
  wb <- py_floordiv W2 sx ;;
  shape4 <- np_reshape_shape (h' * w') [hb; sy; wb; sx] ;;
  shape2 <- np_reshape_shape (h' * w') [(hb * wb)%Z; (sy * sx)%Z] ;;
  let swapped :=
    swapaxes12_flat (nth 0 shape4 0) (nth 1 shape4 0) (nth 2 shape4 0) (nth 3 shape4 0) arr in
  let blocks := rows_of (nth 0 shape2 0) (nth 1 shape2 0) swapped in
  _ <- (if (hb * wb <? 0)%Z then Raise ValueError else Ok tt) ;;
  out_flat <- mapM (fun block =>
                      m <- np_argmax_int (np_bincount block 256) ;; Ok (uint8 m))
                   blocks ;;
  shape_out <- np_reshape_shape (length out_flat) [hb; wb] ;;
  Ok (mkP (nth 0 shape_out 0) (nth 1 shape_out 0) out_flat (p_palette pal_img)).

(** *** The pipeline *)

(** The default of [map_chunk] (400_000). *)
Definition default_map_chunk : nat := 400 * 1000.

(** [fix_pixel_art] from the flattened RGB image [img_prep] on (line
    238 is a conversion done by the imaging library). *)
Definition fix_pixel_art (img_prep : RawImage) (colors : Z) (smin smax : Z)
           (sample_step bucket : nat) (refine : bool) (override : option (Z * Z))
  : result (PImage * (Z * Z) * PImage) :=
  pal <- posterize_diverse img_prep colors sample_step bucket refine default_map_chunk ;;
  '(sy, sx) <- match override with
               | None =>
                   '(sy, sx) <- estimate_grid_step_from_edges pal smin smax ;;
                   let '(sy, sx) := if (sx <? sy)%Z then (sy, sy) else (sx, sx) in
                   let sx := (sx - 1)%Z in
                   let sy := (sy - 1)%Z in
                   Ok (sy, sx)
               | Some (sy, sx) => Ok (sy, sx)
               end ;;
  fixed <- downscale_by_mode pal sy sx ;;
  Ok (pal, (sy, sx), fixed).

End Program.

(** ** Vocabulary of the statements *)

(** The comparison [<] of the floats at hand: irreflexive, transitive,
    and any third value is above the smaller or below the larger of two
    ordered ones (equal values, as [+0.0] and [-0.0], are allowed). *)
Record StrictWeakOrder {A : Type} (lt : A -> A -> bool) : Prop := {
  swo_irrefl : forall x, lt x x = false;
  swo_trans : forall x y z, lt x y = true -> lt y z = true -> lt x z = true;
  swo_cotrans : forall x y z, lt x y = true -> lt x z = true \/ lt z y = true
}.

(** [i] is the first position of [xs] holding an extremum for [lt]: no
    entry is beyond [xs[i]], and every earlier entry is strictly before
    it.  With [lt x y := x < y] this is the first maximum, with
    [lt x y := y < x] the first minimum. *)
Definition first_extremum {A : Type} (lt : A -> A -> bool) (d : A)
           (xs : list A) (i : nat) : Prop :=
  i < length xs /\
  (forall j, j < length xs -> lt (nth i xs d) (nth j xs d) = false) /\
  (forall j, j < i -> lt (nth j xs d) (nth i xs d) = true).

Definition flip_lt {A : Type} (lt : A -> A -> bool) (x y : A) : bool := lt y x.

(** [v] is the mode of [blk] with ties going to the lowest value. *)
Definition lowest_mode (blk : list nat) (v : nat) : Prop :=
  (forall u, count_occ Nat.eq_dec blk u <= count_occ Nat.eq_dec blk v) /\
  (forall u, u < v -> count_occ Nat.eq_dec blk u < count_occ Nat.eq_dec blk v).

(** The pixels of block [(bi, bj)] of a [w]-wide image cut into
    [sy] x [sx] blocks, row by row. *)
Definition block_pixels (w : nat) (data : list nat) (sy sx bi bj : nat) : list nat :=
  flat_map (fun r => map (fun c => at2 w data (bi * sy + r) (bj * sx + c)) (seq 0 sx))
           (seq 0 sy).

Section Vocabulary.

Context {F : Type} {ops : Float64 F}.

(** The Delta-E-76 colour difference as the specification defines it:
    the Euclidean distance of two Lab triples,
    [sqrt((L1-L2)^2 + (a1-a2)^2 + (b1-b2)^2)]. *)
Definition lab_distance (x y : Lab) : F :=
  let '(L1, a1, b1) := x in
  let '(L2, a2, b2) := y in
  fsqrt (fsum [fmul (fsub L1 L2) (fsub L1 L2);
               fmul (fsub a1 a2) (fsub a1 a2);
               fmul (fsub b1 b2) (fsub b1 b2)]).

(** The chroma of a Lab colour as the specification defines it,
    [sqrt(a*a + b*b)]. *)
Definition lab_chroma (c : Lab) : F :=
  let '(_, a, b) := c in fsqrt (fadd (fmul a a) (fmul b b)).

(** The smaller of two floats, the first one when neither is smaller. *)
Definition float_min (x y : F) : F := if fltb y x then y else x.

(** The distance from [c] to the nearest of the candidates picked so
    far, as the specification words it: the distance to the first pick,
    then [min(old, distance to the new pick)] for each further pick. *)
Definition nearest_chosen (cand_lab : list Lab) (picks : list nat) (c : Lab) : F :=
  match picks with
  | [] => fzero
  | p :: ps =>
      fold_left (fun old q => float_min old (lab_distance c (nth q cand_lab c)))
                ps (lab_distance c (nth p cand_lab c))
  end.

(** The same quantity as the selection loop computes it, with the
    program's [_deltaE76] and [np.minimum]: the value of [min_d] at
    candidate [c] after the picks [picks]. *)
Definition running_min (cand_lab : list Lab) (picks : list nat) (c : Lab) : F :=
  match picks with
  | [] => fzero
  | p :: ps =>
      fold_left (fun d q => np_minimum d (_deltaE76 c (nth q cand_lab c)))
                ps (_deltaE76 c (nth p cand_lab c))
  end.

(** Quantisation as the specification words it: every pixel, taken on
    its own, gets the index of its nearest palette colour, stored as
    [uint8]. *)
Definition quantize_one_pass (flat_rgb palette_rgb : list RGB) : result (list nat) :=
  idx <- mapM (fun px => nearest_index (_rgb_to_lab palette_rgb) (to_lab px)) flat_rgb ;;
  Ok (map uint8 idx).

(** The Delta-E-76 distances from a pixel to the palette entries, in
    palette order. *)
Definition palette_dists (palette_rgb : list RGB) (px : RGB) : list F :=
  map (fun p => lab_distance (to_lab px) (to_lab p)) palette_rgb.

End Vocabulary.

(** ** Sample inputs *)

Module Examples.

(** A 4 x 5 indexed image: with 2 x 2 blocks the last column is cut
    off; block (0,0) is of one colour, block (1,1) is a tie between the
    indices 1 and 2. *)
Definition indexed : PImage :=
  mkP 4 5 [0; 0; 1; 1; 7;
           0; 0; 1; 2; 7;
           3; 3; 1; 1; 7;
           3; 4; 2; 2; 7]
      [255; 0; 0; 0; 255; 0].

(** Three pixels and a palette whose entries 0 and 2 are the same
    colour: the pixel (5,0,0) is as far from entry 0 as from entry 1. *)
Definition pixels : list RGB := [mkRGB 5 0 0; mkRGB 9 0 0; mkRGB 0 1 0].

Definition palette : list RGB := [mkRGB 10 0 0; mkRGB 0 0 0; mkRGB 10 0 0].

(** Three distinct candidates, as rows [(L, a, b)] of the integer
    model. *)
Definition candidates : list (Z * Z * Z) :=
  [(50, 0, 0); (60, 30, 40); (20, -10, 5)]%Z.

(** A single black pixel. *)
Definition one_pixel : RawImage := mkRaw 1 1 [black].

(** A palette of 257 colours: the reds 1..256 (as [uint8], so the last
    of them is 0 again) followed by a blue; only its last entry, at
    position 256, is blue. *)
Definition long_palette : list RGB :=
  map (fun n => mkRGB (uint8 n) 0 0) (seq 1 256) ++ [mkRGB 0 0 200].

End Examples.

(** ** The stages around the core *)

(** An image as the pipeline receives it, in one of the modes
    ["RGB"], ["RGBA"] and ["LA"] (grey with alpha).  An ["RGB"] image
    may carry a transparent colour, the entry ["transparency"] of its
    [info].  Palette, grey and other modes are outside this model. *)
Record RGBA : Type := mkRGBA { rgba_r : nat; rgba_g : nat; rgba_b : nat; rgba_a : nat }.

Inductive Image : Type :=
| ImageRGB (h w : nat) (px : list RGB) (transparency : option RGB)
| ImageRGBA (h w : nat) (px : list RGBA)
| ImageLA (h w : nat) (px : list (nat * nat)).

(** [img.convert("RGBA")] (line 49) on the images that reach it: a grey
    value becomes the three colour channels; with a transparent colour,
    the pixels of that colour get alpha 0 and the others alpha 255. *)
Definition convert_RGBA (img : Image) : list RGBA :=
  match img with
  | ImageRGBA _ _ px => px
  | ImageLA _ _ px => map (fun p => mkRGBA (fst p) (fst p) (fst p) (snd p)) px
  | ImageRGB _ _ px None =>
      map (fun p => mkRGBA (red p) (green p) (blue p) 255) px
  | ImageRGB _ _ px (Some t) =>
      map (fun p => mkRGBA (red p) (green p) (blue p)
                           (if RGB_eqb p t then 0 else 255)) px
  end.

Definition image_height (img : Image) : nat :=
  match img with
  | ImageRGB h _ _ _ | ImageRGBA h _ _ | ImageLA h _ _ => h
  end.

Definition image_width (img : Image) : nat :=
  match img with
  | ImageRGB _ w _ _ | ImageRGBA _ w _ | ImageLA _ w _ => w
  end.

(** Lines 48-61: an image with an alpha channel or a transparent colour
    is converted to ["RGBA"]; where [a <= 64] the colour is set to 0,
    then the alpha channel is dropped.  An ["RGB"] image without
    transparent colour is returned as it is. *)
Definition flatten_transparency_threshold (img : Image) : RawImage :=
  match img with
  | ImageRGB h w px None => mkRaw h w px
  | _ =>
      mkRaw (image_height img) (image_width img)
            (map (fun p => if rgba_a p <=? 64 then mkRGB 0 0 0
                           else mkRGB (rgba_r p) (rgba_g p) (rgba_b p))
                 (convert_RGBA img))
  end.

(** Line 289: [fixed.resize((width*n, height*n), resample=NEAREST)].
    With an integer factor the nearest source pixel of [(y, x)] is
    [(y / n, x / n)]. *)
Definition preview_resize (fixed : PImage) (n : nat) : PImage :=
  mkP (p_h fixed * n) (p_w fixed * n)
      (flat_map (fun y => map (fun x => at2 (p_w fixed) (p_idx fixed) (y / n) (x / n))
                              (seq 0 (p_w fixed * n)))
                (seq 0 (p_h fixed * n)))
      (p_palette fixed).

Section Entry.

Context {F : Type} {ops : Float64 F}.

(** [fix_pixel_art] with its first line. *)
Definition fix_pixel_art_image (img : Image) (colors : Z) (smin smax : Z)
           (sample_step bucket : nat) (refine : bool) (override : option (Z * Z))
  : result (PImage * (Z * Z) * PImage) :=
  fix_pixel_art (flatten_transparency_threshold img) colors smin smax
                sample_step bucket refine override.


End Entry.

(** ** Lists, scans and the result monad *)

Lemma mapM_app {A B : Type} (f : A -> result B) (xs ys : list A) :
  mapM f (xs ++ ys) = (a <- mapM f xs ;; b <- mapM f ys ;; Ok (a ++ b)).
Proof.
  induction xs as [|x xs IH]; simpl.
  - destruct (mapM f ys); reflexivity.
  - destruct (f x) as [y| |]; simpl; try reflexivity.
    rewrite IH. destruct (mapM f xs); simpl; try reflexivity.
    destruct (mapM f ys); reflexivity.
Qed.

Lemma mapM_length {A B : Type} (f : A -> result B) (xs : list A) (ys : list B) :
  mapM f xs = Ok ys -> length ys = length xs.
Proof.
  revert ys; induction xs as [|x xs IH]; simpl; intros ys H.
  - inversion H; reflexivity.
  - destruct (f x) as [y| |]; simpl in H; try discriminate.
    destruct (mapM f xs) as [zs| |]; simpl in H; try discriminate.
    inversion H; subst; simpl. f_equal. apply IH; reflexivity.
Qed.

Lemma swo_flip {A : Type} (lt : A -> A -> bool) :
  StrictWeakOrder lt -> StrictWeakOrder (flip_lt lt).
Proof.
  intros [Hi Ht Hc]; constructor; unfold flip_lt.
  - exact Hi.
  - intros x y z H1 H2. exact (Ht z y x H2 H1).
  - intros x y z H. destruct (Hc y x z H); [right | left]; assumption.
Qed.

Lemma swo_nat_ltb : StrictWeakOrder Nat.ltb.
Proof.
  constructor.
  - intro x. apply Nat.ltb_irrefl.
  - intros x y z H1 H2. apply Nat.ltb_lt in H1, H2. apply Nat.ltb_lt. lia.
  - intros x y z H. apply Nat.ltb_lt in H.
    destruct (Nat.ltb x z) eqn:E; [left; reflexivity | right].
    apply Nat.ltb_ge in E. apply Nat.ltb_lt. lia.
Qed.

(** The scan keeps its invariant: [mp] is the first extremum of the
    prefix [pre] already read. *)
Lemma arg_scan_spec {A : Type} (lt : A -> A -> bool) (d : A) :
  StrictWeakOrder lt ->
  forall (xs pre : list A) (mp : A) (mi : nat),
    nth mi pre d = mp ->
    first_extremum lt d pre mi ->
    first_extremum lt d (pre ++ xs) (arg_scan lt mp mi (length pre) xs).
Proof.
  intros [Hi Ht Hc].
  induction xs as [|x xs IH]; intros pre mp mi Hmp Hfe; simpl.
  - rewrite app_nil_r. exact Hfe.
  - destruct Hfe as (Hlt & Hmax & Hfirst).
    assert (Hlen : length (pre ++ [x]) = S (length pre))
      by (rewrite length_app; simpl; lia).
    replace (pre ++ x :: xs) with ((pre ++ [x]) ++ xs)
      by (rewrite <- app_assoc; reflexivity).
    destruct (lt mp x) eqn:E.
    + rewrite <- Hlen. apply IH.
      * rewrite app_nth2, Nat.sub_diag by lia. reflexivity.
      * unfold first_extremum. rewrite Hlen. split; [lia|].
        rewrite app_nth2, Nat.sub_diag by lia. simpl.
        split; intros j Hj.
        -- destruct (Nat.eq_dec j (length pre)) as [->|Hne].
           ++ rewrite app_nth2, Nat.sub_diag by lia. simpl. apply Hi.
           ++ rewrite app_nth1 by lia.
              destruct (lt x (nth j pre d)) eqn:E2; [|reflexivity].
              assert (lt mp (nth j pre d) = true) by (eapply Ht; eassumption).
              rewrite <- Hmp in H. rewrite Hmax in H by lia. discriminate.
        -- rewrite app_nth1 by lia.
           destruct (Hc _ _ (nth j pre d) E) as [H|H]; [|exact H].
           rewrite <- Hmp in H. rewrite Hmax in H by lia. discriminate.
    + rewrite <- Hlen. apply IH.
      * rewrite app_nth1 by lia. exact Hmp.
      * unfold first_extremum. rewrite Hlen. split; [lia|].
        rewrite app_nth1 by lia.
        split; intros j Hj.
        -- destruct (Nat.eq_dec j (length pre)) as [->|Hne].
           ++ rewrite app_nth2, Nat.sub_diag by lia. simpl.
              rewrite Hmp. exact E.
           ++ rewrite app_nth1 by lia. apply Hmax. lia.
        -- rewrite app_nth1 by lia. apply Hfirst. exact Hj.
Qed.

Lemma np_arg_spec {A : Type} (lt : A -> A -> bool) (d : A) (xs : list A) :
  StrictWeakOrder lt -> xs <> [] ->
  exists i, np_arg lt xs = Ok i /\ first_extremum lt d xs i.
Proof.
  intros Hswo Hne. destruct xs as [|x xs]; [congruence|].
  simpl. eexists; split; [reflexivity|].
  apply (arg_scan_spec lt d Hswo xs [x] x 0); [reflexivity|].
  split; [simpl; lia|]. split; intros j Hj; simpl in Hj.
  - assert (j = 0) by lia; subst. simpl. apply (swo_irrefl lt Hswo).
  - lia.
Qed.

(** Without any assumption on the comparison the scan still returns a
    position of the array. *)
Lemma arg_scan_bound {A : Type} (better : A -> A -> bool) (xs : list A) :
  forall mp mi i, mi < i -> arg_scan better mp mi i xs < i + length xs.
Proof.
  induction xs as [|x xs IH]; intros mp mi i Hlt; simpl; [lia|].
  destruct (better mp x).
  - specialize (IH x i (S i)). lia.
  - specialize (IH mp mi (S i)). lia.
Qed.

Lemma np_arg_bound {A : Type} (better : A -> A -> bool) (xs : list A) :
  xs <> [] -> exists i, np_arg better xs = Ok i /\ i < length xs.
Proof.
  destruct xs as [|x xs]; [congruence|]. intros _.
  simpl. eexists; split; [reflexivity|].
  pose proof (arg_scan_bound better xs x 0 1). lia.
Qed.

(** ** Quantisation: chunks, nearest colour, ties *)

Section Quantisation.

Context {F : Type} {ops : Float64 F}.

Lemma assign_nearest_mapM (lab_pal labs : list Lab) :
  labs <> [] ->
  assign_nearest lab_pal labs = mapM (nearest_index lab_pal) labs.
Proof.
  intro Hne. destruct lab_pal as [|p ps]; [|reflexivity].
  destruct labs as [|c cs]; [congruence|]. reflexivity.
Qed.

Lemma mapM_map {A B C : Type} (f : B -> result C) (g : A -> B) (xs : list A) :
  mapM f (map g xs) = mapM (fun x => f (g x)) xs.
Proof.
  induction xs as [|x xs IH]; simpl; [reflexivity|]. rewrite IH. reflexivity.
Qed.

(** The loop started at [start] with [out_idx] computes the indices of
    the pixels from [start] on and leaves the first [start] entries of
    [out_idx] alone. *)
Lemma quantize_loop_from (map_chunk : nat) (flat_rgb : list RGB) (lab_pal : list Lab) :
  1 <= map_chunk ->
  forall (fuel start : nat) (out_idx : list nat),
    start <= length flat_rgb ->
    length out_idx = length flat_rgb ->
    length flat_rgb - start <= fuel ->
    quantize_loop fuel map_chunk flat_rgb lab_pal start out_idx =
    (idx <- mapM (fun px => nearest_index lab_pal (to_lab px)) (skipn start flat_rgb) ;;
     Ok (firstn start out_idx ++ map uint8 idx)).
Proof.
  intro Hchunk.
  induction fuel as [|fuel IH]; intros start out Hstart Hlen Hfuel.
  - assert (start = length flat_rgb) by lia; subst start.
    simpl. rewrite Nat.ltb_irrefl, skipn_all. simpl.
    rewrite <- Hlen, firstn_all, app_nil_r. reflexivity.
  - simpl. destruct (start <? length flat_rgb) eqn:E.
    + apply Nat.ltb_lt in E.
      set (end_ := Nat.min (start + map_chunk) (length flat_rgb)).
      assert (Hend : start < end_ <= length flat_rgb) by (unfold end_; lia).
      assert (Hsplit : skipn start flat_rgb =
                       slice flat_rgb start end_ ++ skipn end_ flat_rgb).
      { unfold slice.
        rewrite <- (firstn_skipn (end_ - start) (skipn start flat_rgb)) at 1.
        rewrite skipn_skipn. replace (end_ - start + start) with end_ by lia.
        reflexivity. }
      assert (Hsl : length (slice flat_rgb start end_) = end_ - start).
      { unfold slice. rewrite length_firstn, length_skipn. lia. }
      rewrite Hsplit, mapM_app.
      rewrite assign_nearest_mapM.
      2:{ unfold _rgb_to_lab. intro Hnil. apply (f_equal (@length _)) in Hnil.
          rewrite length_map, Hsl in Hnil. simpl in Hnil. lia. }
      unfold _rgb_to_lab. rewrite mapM_map.
      destruct (mapM (fun x => nearest_index lab_pal (to_lab x))
                     (slice flat_rgb start end_)) as [idx| |] eqn:Em;
        simpl; try reflexivity.
      assert (Hidx : length idx = end_ - start).
      { apply mapM_length in Em. lia. }
      rewrite IH.
      * destruct (mapM _ (skipn end_ flat_rgb)) as [idx2| |]; simpl; try reflexivity.
        f_equal. unfold set_slice.
        rewrite firstn_app, length_firstn.
        rewrite firstn_firstn.
        replace (Nat.min end_ start) with start by lia.
        replace (end_ - Nat.min start (length out)) with (end_ - start) by lia.
        rewrite firstn_app, length_map, Hidx, Nat.sub_diag. simpl.
        rewrite <- Hidx at 1. rewrite <- (length_map uint8 idx), firstn_all.
        rewrite app_nil_r, map_app, app_assoc. reflexivity.
      * lia.
      * unfold set_slice.
        rewrite !length_app, length_firstn, length_map, length_skipn. lia.
      * lia.
    + apply Nat.ltb_ge in E. assert (start = length flat_rgb) by lia; subst start.
      rewrite skipn_all. simpl. rewrite <- Hlen, firstn_all, app_nil_r. reflexivity.
Qed.

Lemma quantize_eq_one_pass (flat_rgb palette_rgb : list RGB) (c : nat) (j : list nat) :
  1 <= c -> length j = length flat_rgb ->
  quantize flat_rgb palette_rgb c j = quantize_one_pass flat_rgb palette_rgb.
Proof.
  intros Hc Hj. unfold quantize, quantize_one_pass.
  rewrite quantize_loop_from by lia. reflexivity.
Qed.

(** The program's colour arithmetic computes what the specification
    names: [_deltaE76] the Euclidean Lab distance, [chroma] the chroma,
    [np.minimum] the smaller of two floats, the running minimum of the
    selection loop the nearest-chosen distance. *)
Lemma deltaE76_lab_distance (x y : Lab) : _deltaE76 x y = lab_distance x y.
Proof.
  destruct x as [[L1 a1] b1], y as [[L2 a2] b2]. reflexivity.
Qed.

Lemma chroma_lab_chroma (c : Lab) : chroma c = lab_chroma c.
Proof.
  destruct c as [[L a] b]. reflexivity.
Qed.

Lemma np_minimum_float_min (x y : F) : np_minimum x y = float_min x y.
Proof.
  reflexivity.
Qed.

Lemma fold_left_ext_all {A B : Type} (f g : A -> B -> A) (l : list B) (a : A) :
  (forall x y, f x y = g x y) -> fold_left f l a = fold_left g l a.
Proof.
  intro Hfg. revert a. induction l as [|b l IH]; intro a; simpl.
  - reflexivity.
  - rewrite Hfg. apply IH.
Qed.

Lemma nearest_chosen_running_min (cand_lab : list Lab) (picks : list nat) (c : Lab) :
  nearest_chosen cand_lab picks c = running_min cand_lab picks c.
Proof.
  destruct picks as [|p ps]; [reflexivity|].
  unfold nearest_chosen, running_min.
  rewrite <- deltaE76_lab_distance.
  apply fold_left_ext_all. intros d q.
  rewrite <- deltaE76_lab_distance. symmetry. apply np_minimum_float_min.
Qed.

Lemma nearest_index_dists (palette_rgb : list RGB) (px : RGB) :
  nearest_index (_rgb_to_lab palette_rgb) (to_lab px) =
  np_arg (flip_lt fltb) (palette_dists palette_rgb px).
Proof.
  unfold nearest_index, np_argmin, _rgb_to_lab, palette_dists.
  rewrite map_map. f_equal. apply map_ext. intro p.
  apply deltaE76_lab_distance.
Qed.

(** With a palette of at most 256 colours the [uint8] cast keeps the
    index, and every pixel gets the first minimum of its row of
    distances. *)
Lemma quantize_first_minimum
      (flat_rgb palette_rgb : list RGB) (map_chunk : nat) (junk : list nat) :
  StrictWeakOrder fltb ->
  palette_rgb <> [] -> length palette_rgb <= 256 ->
  1 <= map_chunk -> length junk = length flat_rgb ->
  exists out,
    quantize flat_rgb palette_rgb map_chunk junk = Ok out /\
    length out = length flat_rgb /\
    forall i, i < length flat_rgb ->
      first_extremum (flip_lt fltb) fzero
                     (palette_dists palette_rgb (nth i flat_rgb black))
                     (nth i out 0).
Proof.
  intros Hswo Hne H256 Hchunk Hjunk.
  rewrite quantize_eq_one_pass by assumption.
  unfold quantize_one_pass.
  assert (Hpx : forall px, exists k,
             nearest_index (_rgb_to_lab palette_rgb) (to_lab px) = Ok k /\
             first_extremum (flip_lt fltb) fzero (palette_dists palette_rgb px) k).
  { intro px. rewrite nearest_index_dists.
    apply np_arg_spec; [apply swo_flip; exact Hswo|].
    unfold palette_dists. destruct palette_rgb; [congruence | discriminate]. }
  assert (Hall : exists idx,
             (mapM (fun px => nearest_index (_rgb_to_lab palette_rgb) (to_lab px)) flat_rgb
              = Ok idx) /\
             length idx = length flat_rgb /\
             forall i, i < length flat_rgb ->
               first_extremum (flip_lt fltb) fzero
                              (palette_dists palette_rgb (nth i flat_rgb black))
                              (nth i idx 0)).
  { clear Hjunk junk. induction flat_rgb as [|px rest IH].
    - exists []. simpl. repeat split; intros; lia.
    - destruct IH as (idx & Hm & Hl & Hi).
      destruct (Hpx px) as (k & Hk & Hfe).
      exists (k :: idx). simpl. rewrite Hk. simpl. rewrite Hm. simpl.
      split; [reflexivity|]. split; [lia|].
      intros [|i] Hlt; [exact Hfe|]. apply Hi. lia. }
  destruct Hall as (idx & Hm & Hl & Hi).
  exists (map uint8 idx). rewrite Hm. simpl.
  split; [reflexivity|]. split; [rewrite length_map; exact Hl|].
  intros i Hlt. specialize (Hi i Hlt).
  replace (nth i (map uint8 idx) 0) with (nth i idx 0); [exact Hi|].
  change 0 with (uint8 0) at 2. rewrite map_nth.
  destruct Hi as (Hb & _). unfold palette_dists in Hb. rewrite length_map in Hb.
  unfold uint8. symmetry. apply Nat.mod_small. lia.
Qed.

(** C5. Chunked quantisation equals its unchunked reference: for every
    image, every palette and every chunk size of at least one pixel, the
    loop over fixed-size chunks of the flattened pixel array returns the
    index assignment obtained by treating every pixel on its own in one
    pass, whatever [np.empty] left in the output buffer; in particular
    two chunk sizes give the same assignment. *)
Theorem chunked_quantize_refines_one_pass
        (flat_rgb palette_rgb : list RGB) (map_chunk : nat) (junk : list nat) :
  1 <= map_chunk ->
  length junk = length flat_rgb ->
  quantize flat_rgb palette_rgb map_chunk junk = quantize_one_pass flat_rgb palette_rgb /\
  forall (map_chunk' : nat) (junk' : list nat),
    1 <= map_chunk' -> length junk' = length flat_rgb ->
    quantize flat_rgb palette_rgb map_chunk junk =
    quantize flat_rgb palette_rgb map_chunk' junk'.
Proof.
  intros Hchunk Hjunk.
  split.
  - apply quantize_eq_one_pass; assumption.
  - intros c' j' Hc' Hj'. rewrite !quantize_eq_one_pass by assumption. reflexivity.
Qed.

(** C3. For every image and every palette of [K] colours (a palette
    holds at most 256 colours, an index being stored as [uint8]),
    quantisation gives every pixel an index in [[0, K)], so below the
    length of the palette, and this index is that of a palette colour
    whose Delta-E-76 distance to the pixel is minimal over the whole
    palette: no palette colour is strictly nearer. *)
Theorem quantize_assigns_nearest_in_range
        (flat_rgb palette_rgb : list RGB) (map_chunk : nat) (junk : list nat) :
  StrictWeakOrder fltb ->
  palette_rgb <> [] -> length palette_rgb <= 256 ->
  1 <= map_chunk -> length junk = length flat_rgb ->
  exists out,
    quantize flat_rgb palette_rgb map_chunk junk = Ok out /\
    length out = length flat_rgb /\
    forall i, i < length flat_rgb ->
      let dists := palette_dists palette_rgb (nth i flat_rgb black) in
      nth i out 0 < length palette_rgb /\
      forall j, j < length palette_rgb ->
        fltb (nth j dists fzero) (nth (nth i out 0) dists fzero) = false.
Proof.
  intros Hswo Hne H256 Hchunk Hjunk.
  destruct (quantize_first_minimum flat_rgb palette_rgb map_chunk junk
              Hswo Hne H256 Hchunk Hjunk) as (out & Hq & Hl & Hi).
  exists out. split; [exact Hq|]. split; [exact Hl|].
  intros i Hlt dists. destruct (Hi i Hlt) as (Hb & Hmin & _).
  fold dists in Hb, Hmin.
  assert (Hd : length dists = length palette_rgb)
    by (unfold dists, palette_dists; apply length_map).
  split; [lia|]. intros j Hj.
  specialize (Hmin j). rewrite Hd in Hmin. exact (Hmin Hj).
Qed.

(** C9. Quantisation breaks distance ties towards the lowest palette
    index: the index given to a pixel is a minimiser of the distance to
    the pixel, and it is at most any palette index that is a minimiser
    too; so for a pixel equidistant from several nearest palette colours
    the smallest of their indices is assigned. *)
Theorem quantize_ties_to_lowest_index
        (flat_rgb palette_rgb : list RGB) (map_chunk : nat) (junk : list nat) :
  StrictWeakOrder fltb ->
  palette_rgb <> [] -> length palette_rgb <= 256 ->
  1 <= map_chunk -> length junk = length flat_rgb ->
  exists out,
    quantize flat_rgb palette_rgb map_chunk junk = Ok out /\
    forall i, i < length flat_rgb ->
      let dists := palette_dists palette_rgb (nth i flat_rgb black) in
      let minimiser k :=
        k < length palette_rgb /\
        forall m, m < length palette_rgb ->
                  fltb (nth m dists fzero) (nth k dists fzero) = false in
      minimiser (nth i out 0) /\
      forall j, minimiser j -> nth i out 0 <= j.
Proof.
  intros Hswo Hne H256 Hchunk Hjunk.
  destruct (quantize_first_minimum flat_rgb palette_rgb map_chunk junk
              Hswo Hne H256 Hchunk Hjunk) as (out & Hq & Hl & Hi).
  exists out. split; [exact Hq|].
  intros i Hlt dists minimiser. destruct (Hi i Hlt) as (Hb & Hmin & Hfirst).
  fold dists in Hb, Hmin, Hfirst.
  assert (Hd : length dists = length palette_rgb)
    by (unfold dists, palette_dists; apply length_map).
  unfold flip_lt in Hmin, Hfirst. rewrite Hd in Hb, Hmin.
  split.
  - split; [exact Hb | exact Hmin].
  - intros j (Hj & Hjmin).
    destruct (Nat.le_gt_cases (nth i out 0) j) as [Hle|Hgt]; [exact Hle|].
    specialize (Hfirst j Hgt). rewrite (Hjmin _ Hb) in Hfirst. discriminate.
Qed.

End Quantisation.

(** ** Farthest-point palette selection *)

Section Selection.

Context {F : Type} {ops : Float64 F}.

Lemma np_argmax_eq (xs : list F) : np_argmax xs = np_arg fltb xs.
Proof. reflexivity. Qed.

Lemma dist_to_row_ok (cand_lab : list Lab) (idx : nat) :
  idx < length cand_lab ->
  dist_to_row cand_lab idx =
  Ok (map (fun c => _deltaE76 c (nth idx cand_lab c)) cand_lab).
Proof.
  intro Hlt. unfold dist_to_row.
  destruct (nth_error cand_lab idx) as [p|] eqn:E.
  - f_equal. unfold dist_to. apply map_ext. intro c.
    rewrite (nth_error_nth _ _ c E). reflexivity.
  - apply nth_error_None in E. lia.
Qed.

Lemma running_min_snoc (cand_lab : list Lab) (chosen : list nat) (idx : nat) (c : Lab) :
  chosen <> [] ->
  running_min cand_lab (chosen ++ [idx]) c =
  np_minimum (running_min cand_lab chosen c) (_deltaE76 c (nth idx cand_lab c)).
Proof.
  destruct chosen as [|p ps]; [congruence|]. intros _.
  simpl. rewrite fold_left_app. reflexivity.
Qed.

Lemma combine_map_map {A B C : Type} (f : A -> B) (g : A -> C) (l : list A) :
  combine (map f l) (map g l) = map (fun x => (f x, g x)) l.
Proof.
  induction l as [|x l IH]; simpl; [reflexivity|]. rewrite IH. reflexivity.
Qed.

Lemma firstn_snoc_nth {A : Type} (l : list A) (t : nat) (d : A) :
  t < length l -> firstn (S t) l = firstn t l ++ [nth t l d].
Proof.
  revert t; induction l as [|x l IH]; intros t Hlt; simpl in Hlt; [lia|].
  destruct t as [|t]; simpl; [reflexivity|].
  f_equal. apply IH. lia.
Qed.

(** The loop appends, one after the other, the first maximum of the
    running nearest-chosen distances. *)
Lemma farthest_loop_spec (cand_lab : list Lab) :
  StrictWeakOrder fltb -> cand_lab <> [] ->
  forall (n : nat) (chosen : list nat),
    chosen <> [] ->
    Forall (fun i => i < length cand_lab) chosen ->
    exists out,
      farthest_loop cand_lab n chosen (map (running_min cand_lab chosen) cand_lab)
      = Ok out /\
      length out = length chosen + n /\
      firstn (length chosen) out = chosen /\
      Forall (fun i => i < length cand_lab) out /\
      forall t, length chosen <= t < length chosen + n ->
        first_extremum fltb fzero
                       (map (running_min cand_lab (firstn t out)) cand_lab)
                       (nth t out 0).
Proof.
  intros Hswo Hne.
  induction n as [|n IH]; intros chosen Hch Hall.
  - exists chosen. simpl. split; [reflexivity|]. split; [lia|].
    split; [apply firstn_all|]. split; [exact Hall|]. intros t Ht; lia.
  - simpl.
    destruct (np_arg_spec fltb fzero (map (running_min cand_lab chosen) cand_lab) Hswo)
      as (idx & Hidx & Hfe).
    { destruct cand_lab; [congruence | discriminate]. }
    rewrite np_argmax_eq, Hidx. simpl.
    assert (Hlt : idx < length cand_lab).
    { destruct Hfe as (Hb & _). rewrite length_map in Hb. exact Hb. }
    rewrite (dist_to_row_ok cand_lab idx Hlt). simpl.
    rewrite combine_map_map, map_map. simpl.
    rewrite (map_ext _ (running_min cand_lab (chosen ++ [idx])))
      by (intro c; rewrite running_min_snoc by exact Hch; reflexivity).
    destruct (IH (chosen ++ [idx])) as (out & Hout & Hlen & Hpre & Hall' & Hpicks).
    { destruct chosen; discriminate. }
    { apply Forall_app. split; [exact Hall|]. constructor; [exact Hlt | constructor]. }
    rewrite length_app in Hlen, Hpre, Hpicks. simpl in Hlen, Hpre, Hpicks.
    assert (Hpre0 : firstn (length chosen) out = chosen).
    { assert (Hff : firstn (length chosen) out =
                    firstn (length chosen) (firstn (length chosen + 1) out))
        by (rewrite firstn_firstn; f_equal; lia).
      rewrite Hff, Hpre, firstn_app, Nat.sub_diag, firstn_all. simpl.
      apply app_nil_r. }
    assert (Hnth : nth (length chosen) out 0 = idx).
    { assert (Hs : firstn (S (length chosen)) out = chosen ++ [idx])
        by (rewrite <- Hpre; f_equal; lia).
      rewrite (firstn_snoc_nth out (length chosen) 0) in Hs by lia.
      rewrite Hpre0 in Hs. apply app_inv_head in Hs. congruence. }
    exists out. split; [exact Hout|]. split; [lia|].
    split; [exact Hpre0|]. split; [exact Hall'|].
    intros t Ht.
    destruct (Nat.eq_dec t (length chosen)) as [->|Hneq].
    + rewrite Hpre0, Hnth. exact Hfe.
    + apply Hpicks. lia.
Qed.

(** What [_farthest_point_palette] returns for [K >= 1] on a non-empty
    candidate array. *)
Lemma farthest_point_palette_picks (cand_lab : list Lab) (K : Z) :
  StrictWeakOrder fltb -> cand_lab <> [] -> (1 <= K)%Z ->
  exists chosen,
    _farthest_point_palette cand_lab K None = Ok chosen /\
    length chosen = Z.to_nat K /\
    Forall (fun i => i < length cand_lab) chosen /\
    first_extremum fltb fzero (map chroma cand_lab) (nth 0 chosen 0) /\
    forall t, 1 <= t < Z.to_nat K ->
      first_extremum fltb fzero
                     (map (running_min cand_lab (firstn t chosen)) cand_lab)
                     (nth t chosen 0).
Proof.
  intros Hswo Hne HK. unfold _farthest_point_palette.
  destruct (np_arg_spec fltb fzero (map chroma cand_lab) Hswo)
    as (seed & Hseed & Hfe).
  { destruct cand_lab; [congruence | discriminate]. }
  rewrite np_argmax_eq, Hseed. simpl.
  assert (Hlt : seed < length cand_lab).
  { destruct Hfe as (Hb & _). rewrite length_map in Hb. exact Hb. }
  rewrite (dist_to_row_ok cand_lab seed Hlt). simpl.
  destruct (farthest_loop_spec cand_lab Hswo Hne (Z.to_nat (K - 1)) [seed])
    as (out & Hout & Hlen & Hpre & Hall & Hpicks).
  { discriminate. }
  { constructor; [exact Hlt | constructor]. }
  simpl in Hout, Hlen, Hpre, Hpicks.
  exists out. split; [exact Hout|]. split; [lia|]. split; [exact Hall|].
  split.
  - destruct out as [|o rest]; [simpl in Hlen; lia|].
    simpl in Hpre. inversion Hpre; subst. exact Hfe.
  - intros t Ht. apply Hpicks. lia.
Qed.

Lemma In_firstn {A : Type} (x : A) (n : nat) (l : list A) :
  In x (firstn n l) -> In x l.
Proof.
  intro H. rewrite <- (firstn_skipn n l). apply in_or_app. left; exact H.
Qed.

Lemma exists_unchosen (l : list nat) (N : nat) :
  length l < N -> exists u, u < N /\ ~ In u l.
Proof.
  intro Hlen.
  destruct (Forall_Exists_dec (fun u => In u l)
              (fun u => in_dec Nat.eq_dec u l) (seq 0 N)) as [Hall|Hex].
  - exfalso.
    assert (Hincl : incl (seq 0 N) l).
    { intros u Hu. rewrite Forall_forall in Hall. apply Hall. exact Hu. }
    pose proof (NoDup_incl_length (seq_NoDup N 0) Hincl) as Hle.
    rewrite length_seq in Hle. lia.
  - apply Exists_exists in Hex. destruct Hex as (u & Hu & Hnot).
    apply in_seq in Hu. exists u. split; [lia | exact Hnot].
Qed.

Lemma np_minimum_pos (x y : F) :
  StrictWeakOrder fltb ->
  fltb fzero (np_minimum x y) = true <-> fltb fzero x = true /\ fltb fzero y = true.
Proof.
  intros [Hi Ht Hc]. unfold np_minimum.
  destruct (fltb y x) eqn:E; split.
  - intro H. split; [eapply Ht; eassumption | exact H].
  - intros [_ H]; exact H.
  - intro H. split; [exact H|].
    destruct (Hc _ _ y H) as [Hy|Hy]; [exact Hy | congruence].
  - intros [H _]; exact H.
Qed.

Lemma fold_minimum_pos (dists : nat -> F) (ps : list nat) :
  StrictWeakOrder fltb ->
  forall b,
    fltb fzero (fold_left (fun d q => np_minimum d (dists q)) ps b) = true <->
    fltb fzero b = true /\ forall q, In q ps -> fltb fzero (dists q) = true.
Proof.
  intro Hswo. induction ps as [|p ps IH]; intro b; simpl.
  - split; [intro H; split; [exact H | intros q []] | intros [H _]; exact H].
  - rewrite IH, (np_minimum_pos _ _ Hswo). split.
    + intros [[Hb Hp] Hps]. split; [exact Hb|].
      intros q [<-|Hq]; [exact Hp | apply Hps; exact Hq].
    + intros [Hb Hall]. split; [split; [exact Hb|]|].
      * apply Hall. left; reflexivity.
      * intros q Hq. apply Hall. right; exact Hq.
Qed.

(** The nearest-chosen distance of a candidate is positive exactly when
    the candidate is at a positive distance from every pick. *)
Lemma running_min_pos (cand_lab : list Lab) (picks : list nat) (c : Lab) :
  StrictWeakOrder fltb -> picks <> [] ->
  fltb fzero (running_min cand_lab picks c) = true <->
  forall q, In q picks -> fltb fzero (_deltaE76 c (nth q cand_lab c)) = true.
Proof.
  intros Hswo Hne. destruct picks as [|p ps]; [congruence|].
  unfold running_min.
  rewrite (fold_minimum_pos (fun q => _deltaE76 c (nth q cand_lab c)) ps Hswo).
  split.
  - intros [Hp Hps] q [<-|Hq]; [exact Hp | apply Hps; exact Hq].
  - intro Hall. split; [apply Hall; left; reflexivity|].
    intros q Hq. apply Hall. right; exact Hq.
Qed.

(** C2. For every non-empty candidate array in Lab space and every
    [K >= 2] the selection returns [K] candidate indices: the first is
    the first candidate of maximum chroma [sqrt(a*a + b*b)]; then, [K-1]
    times, the next one is the first candidate whose distance to the
    nearest colour chosen so far is maximal, that distance being kept
    for every candidate as the running minimum [min(old, distance to the
    new pick)]. *)
Theorem farthest_point_palette_greedy (cand_lab : list Lab) (K : Z) :
  StrictWeakOrder fltb -> cand_lab <> [] -> (2 <= K)%Z ->
  exists chosen,
    _farthest_point_palette cand_lab K None = Ok chosen /\
    length chosen = Z.to_nat K /\
    Forall (fun i => i < length cand_lab) chosen /\
    first_extremum fltb fzero (map lab_chroma cand_lab) (nth 0 chosen 0) /\
    forall t, 1 <= t < Z.to_nat K ->
      first_extremum fltb fzero
                     (map (nearest_chosen cand_lab (firstn t chosen)) cand_lab)
                     (nth t chosen 0).
Proof.
  intros Hswo Hne HK.
  destruct (farthest_point_palette_picks cand_lab K Hswo Hne) as
    (chosen & Hrun & Hlen & Hall & Hseed & Hpicks); [lia|].
  exists chosen. split; [exact Hrun|]. split; [exact Hlen|]. split; [exact Hall|].
  split.
  - rewrite (map_ext lab_chroma chroma); [exact Hseed|].
    intro c. symmetry. apply chroma_lab_chroma.
  - intros t Ht.
    rewrite (map_ext (nearest_chosen cand_lab (firstn t chosen))
                     (running_min cand_lab (firstn t chosen)));
      [apply Hpicks; exact Ht|].
    intro c. apply nearest_chosen_running_min.
Qed.

(** C10. If the candidates have pairwise-distinct Lab coordinates (so
    that any two of them are at a positive Delta-E-76 distance, a colour
    being at distance zero from itself) and [2 <= K <= N], the [K]
    candidate indices chosen by the farthest-point selection are
    pairwise distinct. *)
Theorem farthest_point_palette_distinct (cand_lab : list Lab) (K : Z) :
  StrictWeakOrder fltb ->
  (forall c, In c cand_lab -> fltb fzero (_deltaE76 c c) = false) ->
  (forall c c', In c cand_lab -> In c' cand_lab -> c <> c' ->
                fltb fzero (_deltaE76 c c') = true) ->
  NoDup cand_lab ->
  (2 <= K <= Z.of_nat (length cand_lab))%Z ->
  exists chosen,
    _farthest_point_palette cand_lab K None = Ok chosen /\
    length chosen = Z.to_nat K /\
    NoDup chosen.
Proof.
  intros Hswo Hself Hpos Hnd HK.
  assert (Hne : cand_lab <> []).
  { intro Hnil. rewrite Hnil in HK. simpl in HK. lia. }
  destruct (farthest_point_palette_picks cand_lab K Hswo Hne)
    as (chosen & Hrun & Hlen & Hall & _ & Hpicks); [lia|].
  exists chosen. split; [exact Hrun|]. split; [exact Hlen|].
  assert (Hpre : forall t, 1 <= t <= Z.to_nat K -> NoDup (firstn t chosen)).
  { induction t as [|t IH]; intro Ht; [lia|].
    destruct (Nat.eq_dec t 0) as [->|Ht0].
    - destruct chosen as [|s rest]; simpl; constructor; [intros [] | constructor].
    - rewrite (firstn_snoc_nth chosen t 0) by lia.
      assert (IH' : NoDup (firstn t chosen)) by (apply IH; lia).
      set (picks := firstn t chosen) in *.
      set (idx := nth t chosen 0).
      assert (Hfe := Hpicks t ltac:(lia)). fold picks idx in Hfe.
      assert (Hpne : picks <> []).
      { unfold picks. destruct chosen; [simpl in Hlen; lia|].
        destruct t; [lia | discriminate]. }
      assert (Hplen : length picks < length cand_lab).
      { unfold picks. rewrite length_firstn. lia. }
      destruct (exists_unchosen picks (length cand_lab) Hplen) as (u & Hu & Hnot).
      destruct Hfe as (Hidx & Hmax & _).
      rewrite length_map in Hidx, Hmax.
      specialize (Hmax u Hu).
      destruct cand_lab as [|c0 rest] eqn:Ecand; [congruence|]. rewrite <- Ecand in *.
      rewrite !(nth_indep _ fzero (running_min cand_lab picks c0)) in Hmax
        by (rewrite length_map; assumption).
      rewrite !map_nth in Hmax.
      assert (Hupos : fltb fzero (running_min cand_lab picks (nth u cand_lab c0)) = true).
      { apply running_min_pos; [exact Hswo | exact Hpne|].
        intros q Hq. apply Hpos.
        - apply nth_In; exact Hu.
        - apply nth_In. unfold picks in Hq. apply In_firstn in Hq.
          rewrite Forall_forall in Hall. apply Hall; exact Hq.
        - assert (Hqlt : q < length cand_lab).
          { unfold picks in Hq. apply In_firstn in Hq.
            rewrite Forall_forall in Hall. apply Hall; exact Hq. }
          rewrite (nth_indep _ (nth u cand_lab c0) c0) by exact Hqlt.
          intro Heq. apply (proj1 (NoDup_nth cand_lab c0) Hnd) in Heq; try assumption.
          subst q. contradiction. }
      assert (Hipos : fltb fzero (running_min cand_lab picks (nth idx cand_lab c0)) = true).
      { destruct (swo_cotrans fltb Hswo _ _
                    (running_min cand_lab picks (nth idx cand_lab c0)) Hupos)
          as [H|H]; [exact H | congruence]. }
      apply NoDup_app; [exact IH' | constructor; [intros [] | constructor] |].
      intros q Hq [Hin|[]]. subst q.
      rewrite (running_min_pos cand_lab picks _ Hswo Hpne) in Hipos.
      specialize (Hipos idx Hq).
      rewrite (nth_indep _ (nth idx cand_lab c0) c0) in Hipos by exact Hidx.
      rewrite Hself in Hipos; [discriminate | apply nth_In; exact Hidx]. }
  rewrite <- (firstn_all chosen), Hlen. apply Hpre. lia.
Qed.

End Selection.

(** ** Block-mode downscale *)

Lemma floordiv_mul_back (a b : Z) : (b <> 0 -> a / b * b / b = a / b)%Z.
Proof. intro Hb. apply Z.div_mul. exact Hb. Qed.

Lemma reshape_two_unknown (size : nat) (dims : list Z) :
  2 <= length (filter (fun d => (d <? 0)%Z) dims) ->
  np_reshape_shape size dims = Raise ValueError.
Proof.
  intro H. unfold np_reshape_shape.
  destruct (length (filter (fun d => (d <? 0)%Z) dims)) as [|[|n]]; [lia | lia | reflexivity].
Qed.

Lemma reshape_unknown_of_empty (size : nat) (dims : list Z) :
  1 <= length (filter (fun d => (d <? 0)%Z) dims) ->
  fold_left Nat.mul (map Z.to_nat (filter (fun d => (0 <=? d)%Z) dims)) 1 = 0 ->
  np_reshape_shape size dims = Raise ValueError.
Proof.
  intros H H0. unfold np_reshape_shape. rewrite H0.
  destruct (length (filter (fun d => (d <? 0)%Z) dims)) as [|[|n]];
    [lia | reflexivity | reflexivity].
Qed.

Lemma fold_mul_zero (xs : list nat) :
  In 0 xs -> forall acc, fold_left Nat.mul xs acc = 0.
Proof.
  induction xs as [|x xs IH]; intros Hin acc; [destruct Hin|].
  simpl. destruct Hin as [->|Hin].
  - rewrite Nat.mul_0_r. clear IH. induction xs as [|y ys IHy]; [reflexivity | exact IHy].
  - apply IH; exact Hin.
Qed.

(** *** Arrays stored row by row *)

Lemma skipn_flat_map_grid {A : Type} (g : nat -> list A) (w : nat) :
  forall (h a i k : nat),
    (forall y, a <= y < a + h -> length (g y) = w) ->
    i < h -> k <= w ->
    skipn (i * w + k) (flat_map g (seq a h)) =
    skipn k (g (a + i)) ++ flat_map g (seq (S (a + i)) (h - S i)).
Proof.
  induction h as [|h IH]; intros a i k Hlen Hi Hk; [lia|].
  simpl. rewrite skipn_app.
  assert (Hga : length (g a) = w) by (apply Hlen; lia).
  destruct i as [|i].
  - simpl. rewrite Hga. replace (k - w) with 0 by lia.
    rewrite Nat.add_0_r, Nat.sub_0_r. reflexivity.
  - rewrite skipn_all2 by (rewrite Hga; simpl; lia).
    rewrite Hga. replace (S i * w + k - w) with (i * w + k) by (simpl; lia).
    rewrite (IH (S a) i k); [|intros y Hy; apply Hlen; lia | lia | exact Hk].
    replace (S a + i) with (a + S i) by lia. reflexivity.
Qed.

Lemma nth_flat_map_grid {A : Type} (g : nat -> list A) (w h i j : nat) (d : A) :
  (forall y, y < h -> length (g y) = w) ->
  i < h -> j < w ->
  nth (i * w + j) (flat_map g (seq 0 h)) d = nth j (g i) d.
Proof.
  intros Hlen Hi Hj.
  rewrite <- (Nat.add_0_r (i * w + j)), <- nth_skipn.
  rewrite (skipn_flat_map_grid g w h 0 i j); [|intros y Hy; apply Hlen; lia | lia | lia].
  simpl. rewrite app_nth1 by (rewrite length_skipn, Hlen by exact Hi; lia).
  rewrite nth_skipn, Nat.add_0_r. reflexivity.
Qed.

Lemma length_flat_map_grid {A : Type} (g : nat -> list A) (w : nat) :
  forall (h a : nat),
    (forall y, a <= y < a + h -> length (g y) = w) ->
    length (flat_map g (seq a h)) = h * w.
Proof.
  induction h as [|h IH]; intros a Hlen; [reflexivity|].
  simpl. rewrite length_app, IH by (intros y Hy; apply Hlen; lia).
  rewrite Hlen by lia. reflexivity.
Qed.

(** Row [n] of an array whose rows are the lists [g 0], [g 1], ... *)
Lemma row_of_flat_map {A : Type} (g : nat -> list A) (bs nb n : nat) :
  (forall y, y < nb -> length (g y) = bs) ->
  n < nb ->
  firstn bs (skipn (n * bs) (flat_map g (seq 0 nb))) = g n.
Proof.
  intros Hlen Hn.
  rewrite <- (Nat.add_0_r (n * bs)).
  rewrite (skipn_flat_map_grid g bs nb 0 n 0); [|intros y Hy; apply Hlen; lia | lia | lia].
  simpl. rewrite firstn_app, <- (Hlen n Hn), firstn_all, Nat.sub_diag. simpl.
  apply app_nil_r.
Qed.

Lemma flat_map_ext_In {A B : Type} (f g : A -> list B) (l : list A) :
  (forall a, In a l -> f a = g a) -> flat_map f l = flat_map g l.
Proof.
  induction l as [|x l IH]; intro H; [reflexivity|].
  simpl. rewrite (H x (or_introl eq_refl)), IH by (intros; apply H; right; assumption).
  reflexivity.
Qed.

Lemma Forall_nth_default {A : Type} (P : A -> Prop) (l : list A) (d : A) (n : nat) :
  Forall P l -> P d -> P (nth n l d).
Proof.
  intros Hall Hd. destruct (Nat.lt_ge_cases n (length l)) as [Hlt|Hge].
  - rewrite Forall_forall in Hall. apply Hall, nth_In, Hlt.
  - rewrite nth_overflow by exact Hge. exact Hd.
Qed.

Lemma mapM_Forall2 {A B : Type} (f : A -> result B) (P : A -> B -> Prop) (xs : list A) :
  (forall x, In x xs -> exists y, f x = Ok y /\ P x y) ->
  exists ys, mapM f xs = Ok ys /\ Forall2 P xs ys.
Proof.
  induction xs as [|x xs IH]; intro H.
  - exists []. split; [reflexivity | constructor].
  - destruct (H x (or_introl eq_refl)) as (y & Hy & Hp).
    destruct IH as (ys & Hys & Hall); [intros; apply H; right; assumption|].
    exists (y :: ys). simpl. rewrite Hy. simpl. rewrite Hys. simpl.
    split; [reflexivity | constructor; assumption].
Qed.

Lemma Forall2_nth_rel {A B : Type} (P : A -> B -> Prop) (xs : list A) (ys : list B)
      (dx : A) (dy : B) (n : nat) :
  Forall2 P xs ys -> n < length xs -> P (nth n xs dx) (nth n ys dy).
Proof.
  intro H. revert n. induction H as [|x y xs ys Hxy H IH]; intros n Hn; simpl in Hn; [lia|].
  destruct n as [|n]; simpl; [exact Hxy | apply IH; lia].
Qed.

(** *** The mode of one block *)

Lemma bincount_uint8 (blk : list nat) :
  Forall (fun v => v < 256) blk ->
  np_bincount blk 256 = map (fun v => count_occ Nat.eq_dec blk v) (seq 0 256).
Proof.
  intro Hall. unfold np_bincount. f_equal. f_equal.
  assert (Hmax : fold_right (fun x m => Nat.max (S x) m) 0 blk <= 256).
  { induction Hall as [|x l Hx Hl IH]; cbn [fold_right]; lia. }
  lia.
Qed.

Lemma block_mode_spec (blk : list nat) :
  Forall (fun v => v < 256) blk ->
  exists m,
    (m' <- np_argmax_int (np_bincount blk 256) ;; Ok (uint8 m')) = Ok m /\
    lowest_mode blk m /\ m < 256.
Proof.
  intro Hall. rewrite (bincount_uint8 blk Hall).
  set (bc := map (fun v => count_occ Nat.eq_dec blk v) (seq 0 256)).
  assert (Hlen : length bc = 256) by (unfold bc; rewrite length_map, length_seq; reflexivity).
  destruct (np_arg_spec Nat.ltb 0 bc swo_nat_ltb) as (m & Hm & Hb & Hmax & Hfirst).
  { intro Hnil. rewrite Hnil in Hlen. discriminate. }
  rewrite Hlen in Hb, Hmax.
  assert (Hnth : forall v, v < 256 -> nth v bc 0 = count_occ Nat.eq_dec blk v).
  { intros v Hv. unfold bc.
    rewrite (nth_indep _ 0 (count_occ Nat.eq_dec blk 0))
      by (rewrite length_map, length_seq; exact Hv).
    rewrite (map_nth (fun v => count_occ Nat.eq_dec blk v)), seq_nth by exact Hv.
    reflexivity. }
  exists m. unfold np_argmax_int. rewrite Hm. simpl.
  unfold uint8. rewrite Nat.mod_small by exact Hb.
  split; [reflexivity|]. split; [|exact Hb].
  split.
  - intro u. destruct (Nat.lt_ge_cases u 256) as [Hu|Hu].
    + specialize (Hmax u Hu). rewrite !Hnth in Hmax by assumption.
      apply Nat.ltb_ge in Hmax. exact Hmax.
    + rewrite (proj1 (count_occ_not_In Nat.eq_dec blk u)); [lia|].
      intro Hin. rewrite Forall_forall in Hall. specialize (Hall u Hin). lia.
  - intros u Hu. specialize (Hfirst u Hu).
    rewrite !Hnth in Hfirst by lia. apply Nat.ltb_lt in Hfirst. exact Hfirst.
Qed.

Lemma lowest_mode_monochrome (blk : list nat) (m v : nat) :
  blk <> [] -> lowest_mode blk m -> (forall u, In u blk -> u = v) -> m = v.
Proof.
  intros Hne [Hmax _] Hmono.
  destruct blk as [|x rest]; [congruence|].
  assert (Hx : x = v) by (apply Hmono; left; reflexivity).
  assert (Hpos : 0 < count_occ Nat.eq_dec (x :: rest) v).
  { apply count_occ_In. rewrite <- Hx. left; reflexivity. }
  specialize (Hmax v).
  apply Hmono. apply (count_occ_In Nat.eq_dec). lia.
Qed.

(** C7. For every indexed image, a call of [downscale_by_mode] with
    [sy <= 0] or [sx <= 0] fails: a zero block size raises
    [ZeroDivisionError] at line 211 and a negative one raises
    [ValueError] in the reshape of line 215; no block size is clamped
    and no image is returned. *)
Theorem downscale_by_mode_rejects_nonpositive (pal_img : PImage) (sy sx : Z) :
  (sy <= 0 \/ sx <= 0)%Z ->
  downscale_by_mode pal_img sy sx =
  Raise (if (sy =? 0)%Z || (sx =? 0)%Z then ZeroDivisionError else ValueError).
Proof.
  intro Hbad. unfold downscale_by_mode, py_floordiv.
  destruct (sy =? 0)%Z eqn:Esy; [reflexivity|].
  destruct (sx =? 0)%Z eqn:Esx; [reflexivity|].
  apply Z.eqb_neq in Esy, Esx. simpl.
  unfold crop2.
  rewrite !floordiv_mul_back by assumption.
  set (H := p_h pal_img). set (W := p_w pal_img).
  set (hq := (Z.of_nat H / sy)%Z). set (wq := (Z.of_nat W / sx)%Z).
  set (size := py_stop H (hq * sy) * py_stop W (wq * sx)).
  assert (Hshape : np_reshape_shape size [hq; sy; wq; sx] = Raise ValueError).
  { assert (Hhq : (sy < 0 -> hq <= 0 /\ (hq = 0 -> H = 0%nat))%Z).
    { intro Hneg. unfold hq.
      pose proof (Z.div_mod (Z.of_nat H) sy Esy) as Hdm.
      pose proof (Z.mod_neg_bound (Z.of_nat H) sy Hneg) as Hmb.
      split; [nia | intro H0; rewrite H0 in Hdm; lia]. }
    assert (Hwq : (sx < 0 -> wq <= 0 /\ (wq = 0 -> W = 0%nat))%Z).
    { intro Hneg. unfold wq.
      pose proof (Z.div_mod (Z.of_nat W) sx Esx) as Hdm.
      pose proof (Z.mod_neg_bound (Z.of_nat W) sx Hneg) as Hmb.
      split; [nia | intro H0; rewrite H0 in Hdm; lia]. }
    assert (Hhq' : (0 < sy -> 0 <= hq)%Z)
      by (intro Hp; unfold hq; apply Z.div_pos; lia).
    assert (Hwq' : (0 < sx -> 0 <= wq)%Z)
      by (intro Hp; unfold wq; apply Z.div_pos; lia).
    destruct (hq <? 0)%Z eqn:E1; destruct (sy <? 0)%Z eqn:E2;
      destruct (wq <? 0)%Z eqn:E3; destruct (sx <? 0)%Z eqn:E4;
      try (apply reshape_two_unknown; simpl; rewrite E1, E2, E3, E4; simpl; lia);
      try (exfalso;
           apply Z.ltb_ge in E2 || apply Z.ltb_lt in E2;
           apply Z.ltb_ge in E4 || apply Z.ltb_lt in E4;
           apply Z.ltb_ge in E1 || apply Z.ltb_lt in E1;
           apply Z.ltb_ge in E3 || apply Z.ltb_lt in E3; lia).
    - (* only sy is negative: the cropped array is empty *)
      pose proof E1 as B1. pose proof E2 as B2. pose proof E3 as B3. pose proof E4 as B4.
      apply Z.ltb_ge in E1, E3, E4. apply Z.ltb_lt in E2.
      destruct (Hhq E2) as [Hle Hz]. assert (H0 : hq = 0%Z) by lia.
      apply reshape_unknown_of_empty; simpl; rewrite ?B1, ?B2, ?B3, ?B4.
      + simpl. lia.
      + apply fold_mul_zero. rewrite H0. simpl. auto.
    - (* only sx is negative *)
      pose proof E1 as B1. pose proof E2 as B2. pose proof E3 as B3. pose proof E4 as B4.
      apply Z.ltb_ge in E1, E2, E3. apply Z.ltb_lt in E4.
      destruct (Hwq E4) as [Hle Hz]. assert (H0 : wq = 0%Z) by lia.
      apply reshape_unknown_of_empty; simpl; rewrite ?B1, ?B2, ?B3, ?B4.
      + simpl. lia.
      + apply fold_mul_zero. rewrite H0. simpl.
        destruct (0 <=? hq)%Z; destruct (0 <=? sy)%Z; destruct (0 <=? sx)%Z; simpl; auto. }
  rewrite Hshape. reflexivity.
Qed.

Lemma reshape_known (size : nat) (dims : list Z) :
  Forall (fun d => (0 <= d)%Z) dims ->
  fold_left Nat.mul (map Z.to_nat dims) 1 = size ->
  np_reshape_shape size dims = Ok (map Z.to_nat dims).
Proof.
  intros Hall Hprod. unfold np_reshape_shape. rewrite <- Hprod. clear Hprod.
  assert (Hneg : filter (fun d => (d <? 0)%Z) dims = []).
  { induction Hall as [|d l Hd Hl IH]; [reflexivity|].
    simpl. destruct (Z.ltb_spec d 0); [lia | exact IH]. }
  assert (Hpos : filter (fun d => (0 <=? d)%Z) dims = dims).
  { clear Hneg. induction Hall as [|d l Hd Hl IH]; [reflexivity|].
    simpl. destruct (Z.leb_spec 0 d); [f_equal; exact IH | lia]. }
  rewrite Hneg, Hpos. simpl. rewrite Nat.eqb_refl. reflexivity.
Qed.

(** The cropped array holds the pixels of the first [h'] rows and [w']
    columns. *)
Lemma nth_crop (h w : nat) (data : list nat) (h' w' y x : nat) :
  length data = h * w -> h' <= h -> w' <= w -> y < h' -> x < w' ->
  nth (y * w' + x) (flat_map (fun y => firstn w' (skipn (y * w) data)) (seq 0 h')) 0 =
  at2 w data y x.
Proof.
  intros Hlen Hh Hw Hy Hx.
  assert (Hrow : forall y0, y0 < h' -> length (firstn w' (skipn (y0 * w) data)) = w').
  { intros y0 Hy0. rewrite length_firstn, length_skipn, Hlen. nia. }
  rewrite (nth_flat_map_grid _ w' h' y x 0 Hrow Hy Hx).
  rewrite nth_firstn. destruct (Nat.ltb_spec x w'); [|lia].
  rewrite nth_skipn. reflexivity.
Qed.

Lemma Forall_crop (P : nat -> Prop) (w : nat) (data : list nat) (h' w' : nat) :
  Forall P data ->
  Forall P (flat_map (fun y => firstn w' (skipn (y * w) data)) (seq 0 h')).
Proof.
  intro Hall. rewrite Forall_forall in *. intros v Hv.
  apply in_flat_map in Hv. destruct Hv as (y & _ & Hin).
  apply In_firstn in Hin. apply Hall.
  rewrite <- (firstn_skipn (y * w) data). apply in_or_app. right; exact Hin.
Qed.

(** Block [(bi, bj)] as line 215 lays it out. *)
Lemma block_of_swapped (hb sy wb sx : nat) (arr : list nat) (bi bj : nat) :
  bi < hb -> bj < wb ->
  nth (bi * wb + bj) (rows_of (hb * wb) (sy * sx) (swapaxes12_flat hb sy wb sx arr)) [] =
  flat_map (fun r => map (fun c => nth (((bi * sy + r) * wb + bj) * sx + c) arr 0) (seq 0 sx))
           (seq 0 sy).
Proof.
  intros Hbi Hbj. unfold rows_of.
  assert (Hn : bi * wb + bj < hb * wb) by nia.
  rewrite (nth_indep _ [] (firstn (sy * sx)
             (skipn (0 * (sy * sx)) (swapaxes12_flat hb sy wb sx arr))))
    by (rewrite length_map, length_seq; exact Hn).
  rewrite (map_nth (fun n => firstn (sy * sx)
                                (skipn (n * (sy * sx)) (swapaxes12_flat hb sy wb sx arr)))).
  rewrite seq_nth by exact Hn. simpl.
  unfold swapaxes12_flat.
  set (blk := fun i j =>
                flat_map (fun r => map (fun c => nth (((i * sy + r) * wb + j) * sx + c) arr 0)
                                       (seq 0 sx)) (seq 0 sy)).
  assert (Hblk : forall i j, length (blk i j) = sy * sx).
  { intros i j. unfold blk.
    apply (length_flat_map_grid _ sx sy 0).
    intros y _. rewrite length_map, length_seq. reflexivity. }
  set (row := fun i => flat_map (fun j => blk i j) (seq 0 wb)).
  assert (Hrow : forall i, length (row i) = wb * (sy * sx)).
  { intro i. unfold row. apply (length_flat_map_grid _ (sy * sx) wb 0).
    intros y _. apply Hblk. }
  change (firstn (sy * sx) (skipn ((bi * wb + bj) * (sy * sx)) (flat_map row (seq 0 hb)))
          = blk bi bj).
  replace ((bi * wb + bj) * (sy * sx)) with (bi * (wb * (sy * sx)) + bj * (sy * sx)) by ring.
  rewrite (skipn_flat_map_grid row (wb * (sy * sx)) hb 0 bi (bj * (sy * sx)));
    [|intros y _; apply Hrow | exact Hbi | nia].
  simpl. rewrite firstn_app.
  assert (Hle : sy * sx <= length (skipn (bj * (sy * sx)) (row bi))).
  { rewrite length_skipn, Hrow. nia. }
  replace (sy * sx - length (skipn (bj * (sy * sx)) (row bi))) with 0 by lia.
  rewrite firstn_0, app_nil_r.
  unfold row. apply row_of_flat_map; [intros y _; apply Hblk | exact Hbj].
Qed.

(** C1. For every indexed image of [H] x [W] pixels and all positive
    [sy], [sx], [downscale_by_mode] returns an indexed image of exactly
    [(H // sy)] x [(W // sx)] pixels with the same palette; output pixel
    [(bi, bj)] is the palette index that occurs most often in the
    [sy] x [sx] block of the input whose corner is [(bi*sy, bj*sx)], the
    lowest such index on a tie (rows and columns beyond the last full
    block are not read, and nothing is padded); in particular a block of
    one colour is reproduced exactly. *)
Theorem downscale_by_mode_block_modes (pal_img : PImage) (sy sx : Z) :
  length (p_idx pal_img) = p_h pal_img * p_w pal_img ->
  Forall (fun v => v < 256) (p_idx pal_img) ->
  (0 < sy)%Z -> (0 < sx)%Z ->
  exists out,
    downscale_by_mode pal_img sy sx = Ok out /\
    Z.of_nat (p_h out) = (Z.of_nat (p_h pal_img) / sy)%Z /\
    Z.of_nat (p_w out) = (Z.of_nat (p_w pal_img) / sx)%Z /\
    length (p_idx out) = p_h out * p_w out /\
    p_palette out = p_palette pal_img /\
    forall bi bj, bi < p_h out -> bj < p_w out ->
      let blk := block_pixels (p_w pal_img) (p_idx pal_img)
                              (Z.to_nat sy) (Z.to_nat sx) bi bj in
      lowest_mode blk (at2 (p_w out) (p_idx out) bi bj) /\
      forall v, (forall u, In u blk -> u = v) -> at2 (p_w out) (p_idx out) bi bj = v.
Proof.
  intros Hlen Huint8 Hsy Hsx.
  destruct pal_img as [H W data palette]. simpl in *.
  set (syn := Z.to_nat sy). set (sxn := Z.to_nat sx).
  set (hb := H / syn). set (wb := W / sxn).
  assert (Hsyn : 0 < syn) by (unfold syn; lia).
  assert (Hsxn : 0 < sxn) by (unfold sxn; lia).
  assert (Hhq : (Z.of_nat H / sy)%Z = Z.of_nat hb).
  { unfold hb. rewrite Nat2Z.inj_div. unfold syn. rewrite Z2Nat.id by lia. reflexivity. }
  assert (Hwq : (Z.of_nat W / sx)%Z = Z.of_nat wb).
  { unfold wb. rewrite Nat2Z.inj_div. unfold sxn. rewrite Z2Nat.id by lia. reflexivity. }
  assert (HH2 : hb * syn <= H).
  { unfold hb. pose proof (Nat.Div0.mul_div_le H syn). lia. }
  assert (HW2 : wb * sxn <= W).
  { unfold wb. pose proof (Nat.Div0.mul_div_le W sxn). lia. }
  unfold downscale_by_mode, py_floordiv. simpl p_h. simpl p_w. simpl p_idx. simpl p_palette.
  destruct (Z.eqb_spec sy 0) as [?|_]; [lia|].
  destruct (Z.eqb_spec sx 0) as [?|_]; [lia|].
  cbn [bind]. unfold crop2.
  rewrite !floordiv_mul_back by lia. rewrite Hhq, Hwq.
  assert (Hstop_h : py_stop H (Z.of_nat hb * sy) = hb * syn).
  { unfold py_stop. destruct (Z.ltb_spec (Z.of_nat hb * sy) 0); [lia|].
    replace (Z.to_nat (Z.of_nat hb * sy)) with (hb * syn) by (unfold syn; nia). lia. }
  assert (Hstop_w : py_stop W (Z.of_nat wb * sx) = wb * sxn).
  { unfold py_stop. destruct (Z.ltb_spec (Z.of_nat wb * sx) 0); [lia|].
    replace (Z.to_nat (Z.of_nat wb * sx)) with (wb * sxn) by (unfold sxn; nia). lia. }
  rewrite Hstop_h, Hstop_w.
  set (arr := flat_map (fun y => firstn (wb * sxn) (skipn (y * W) data)) (seq 0 (hb * syn))).
  rewrite (reshape_known (hb * syn * (wb * sxn)) [Z.of_nat hb; sy; Z.of_nat wb; sx]);
    [|repeat constructor; lia
     |cbn [map fold_left]; rewrite !Nat2Z.id; fold syn sxn; ring].
  cbn [bind].
  rewrite (reshape_known (hb * syn * (wb * sxn)) [(Z.of_nat hb * Z.of_nat wb)%Z; (sy * sx)%Z]);
    [|repeat constructor; nia
     |cbn [map fold_left];
      replace (Z.to_nat (Z.of_nat hb * Z.of_nat wb)) with (hb * wb) by nia;
      replace (Z.to_nat (sy * sx)) with (syn * sxn) by (unfold syn, sxn; nia); ring].
  cbn [bind map nth].
  rewrite !Nat2Z.id. fold syn sxn.
  replace (Z.to_nat (Z.of_nat hb * Z.of_nat wb)) with (hb * wb) by nia.
  replace (Z.to_nat (sy * sx)) with (syn * sxn) by (unfold syn, sxn; nia).
  destruct (Z.ltb_spec (Z.of_nat hb * Z.of_nat wb) 0) as [?|_]; [nia|].
  cbn [bind].
  set (blocks := rows_of (hb * wb) (syn * sxn) (swapaxes12_flat hb syn wb sxn arr)).
  assert (Hblocks_len : length blocks = hb * wb).
  { unfold blocks, rows_of. rewrite length_map, length_seq. reflexivity. }
  assert (Harr : Forall (fun v => v < 256) arr) by (apply Forall_crop; exact Huint8).
  assert (Hblock : forall bi bj, bi < hb -> bj < wb ->
            nth (bi * wb + bj) blocks [] = block_pixels W data syn sxn bi bj).
  { intros bi bj Hbi Hbj. unfold blocks.
    rewrite (block_of_swapped hb syn wb sxn arr bi bj Hbi Hbj).
    unfold block_pixels. apply flat_map_ext_In. intros r Hr. apply in_seq in Hr.
    apply map_ext_in. intros c Hc. apply in_seq in Hc.
    replace (((bi * syn + r) * wb + bj) * sxn + c)
      with ((bi * syn + r) * (wb * sxn) + (bj * sxn + c)) by ring.
    unfold arr. apply (nth_crop H W data); [exact Hlen | exact HH2 | exact HW2 | nia | nia]. }
  destruct (mapM_Forall2
              (fun block => m <- np_argmax_int (np_bincount block 256) ;; Ok (uint8 m))
              (fun block m => lowest_mode block m /\ m < 256) blocks)
    as (out_flat & Hout & Hrel).
  { intros block Hin. apply block_mode_spec.
    unfold blocks, rows_of in Hin. apply in_map_iff in Hin.
    destruct Hin as (n & <- & _).
    rewrite Forall_forall. intros v Hv. apply In_firstn in Hv.
    assert (Hsw : Forall (fun v => v < 256) (swapaxes12_flat hb syn wb sxn arr)).
    { unfold swapaxes12_flat. rewrite Forall_forall. intros x Hx.
      apply in_flat_map in Hx. destruct Hx as (i & _ & Hx).
      apply in_flat_map in Hx. destruct Hx as (j & _ & Hx).
      apply in_flat_map in Hx. destruct Hx as (r & _ & Hx).
      apply in_map_iff in Hx. destruct Hx as (c & <- & _).
      apply Forall_nth_default; [exact Harr | lia]. }
    rewrite Forall_forall in Hsw. apply Hsw.
    rewrite <- (firstn_skipn (n * (syn * sxn)) (swapaxes12_flat hb syn wb sxn arr)).
    apply in_or_app. right; exact Hv. }
  rewrite Hout. cbn [bind].
  assert (Hout_len : length out_flat = hb * wb).
  { apply Forall2_length in Hrel. lia. }
  rewrite (reshape_known (length out_flat) [Z.of_nat hb; Z.of_nat wb]);
    [|repeat constructor; lia
     |cbn [map fold_left]; rewrite !Nat2Z.id, Hout_len; ring].
  cbn [bind map nth]. rewrite !Nat2Z.id.
  eexists. split; [reflexivity|]. cbn [p_h p_w p_idx p_palette].
  split; [reflexivity|]. split; [reflexivity|].
  split; [exact Hout_len|]. split; [reflexivity|].
  intros bi bj Hbi Hbj. set (blk := block_pixels W data syn sxn bi bj).
  assert (Hn : bi * wb + bj < length blocks) by (rewrite Hblocks_len; nia).
  pose proof (Forall2_nth_rel _ blocks out_flat [] 0 (bi * wb + bj) Hrel Hn) as Hmode.
  cbv beta in Hmode. rewrite (Hblock bi bj Hbi Hbj) in Hmode. fold blk in Hmode.
  unfold at2. destruct Hmode as [Hmode _].
  split; [exact Hmode|].
  intros v Hmono. apply (lowest_mode_monochrome blk); [|exact Hmode | exact Hmono].
  intro Hnil. apply (f_equal (@length nat)) in Hnil.
  unfold blk, block_pixels in Hnil.
  rewrite (length_flat_map_grid _ sxn syn 0) in Hnil
    by (intros y _; rewrite length_map, length_seq; reflexivity).
  simpl in Hnil. nia.
Qed.

(** ** The palette builder returns *)

Section Totality.

Context {F : Type} {ops : Float64 F}.

Lemma take_rows_ok {A : Type} (cand : list A) (idx : list nat) :
  Forall (fun i => i < length cand) idx ->
  exists rows, take_rows cand idx = Ok rows /\ length rows = length idx.
Proof.
  intro Hall. unfold take_rows.
  destruct (mapM_Forall2
              (fun i => match nth_error cand i with
                        | Some c => Ok c
                        | None => Raise IndexError
                        end)
              (fun _ _ => True) idx) as (rows & Hrows & Hrel).
  { intros i Hi. rewrite Forall_forall in Hall. specialize (Hall i Hi).
    destruct (nth_error cand i) as [c|] eqn:E.
    - exists c. split; [reflexivity | exact I].
    - apply nth_error_None in E. lia. }
  exists rows. split; [exact Hrows|]. apply Forall2_length in Hrel. lia.
Qed.

Lemma farthest_loop_total (cand_lab : list Lab) :
  forall (n : nat) (chosen : list nat) (dmin : list F),
    length dmin = length cand_lab -> cand_lab <> [] ->
    Forall (fun i => i < length cand_lab) chosen ->
    exists out,
      farthest_loop cand_lab n chosen dmin = Ok out /\
      length out = length chosen + n /\
      Forall (fun i => i < length cand_lab) out.
Proof.
  induction n as [|n IH]; intros chosen dmin Hd Hne Hall.
  - exists chosen. simpl. repeat split; [lia | exact Hall].
  - simpl.
    destruct (np_arg_bound (fun mp x => fltb mp x) dmin) as (idx & Hidx & Hlt).
    { intro Hnil. rewrite Hnil in Hd. destruct cand_lab; [congruence | discriminate]. }
    unfold np_argmax. rewrite Hidx. cbn [bind].
    rewrite Hd in Hlt. unfold dist_to_row.
    destruct (nth_error cand_lab idx) as [p|] eqn:E;
      [|apply nth_error_None in E; lia].
    cbn [bind].
    destruct (IH (chosen ++ [idx])
                 (map (fun p0 => np_minimum (fst p0) (snd p0))
                      (combine dmin (dist_to cand_lab p))))
      as (out & Hout & Hlen & Hall').
    + rewrite length_map, length_combine. unfold dist_to. rewrite length_map. lia.
    + exact Hne.
    + apply Forall_app. split; [exact Hall|]. constructor; [exact Hlt | constructor].
    + exists out. split; [exact Hout|]. rewrite length_app in Hlen. simpl in Hlen.
      split; [lia | exact Hall'].
Qed.

Lemma farthest_point_palette_total (cand_lab : list Lab) (K : Z) :
  cand_lab <> [] ->
  exists chosen,
    _farthest_point_palette cand_lab K None = Ok chosen /\
    length chosen = S (Z.to_nat (K - 1)) /\
    Forall (fun i => i < length cand_lab) chosen.
Proof.
  intro Hne. unfold _farthest_point_palette.
  destruct (np_arg_bound (fun mp x => fltb mp x) (map chroma cand_lab))
    as (seed & Hseed & Hlt).
  { destruct cand_lab; [congruence | discriminate]. }
  unfold np_argmax. rewrite Hseed. cbn [bind].
  rewrite length_map in Hlt. unfold dist_to_row.
  destruct (nth_error cand_lab seed) as [p|] eqn:E;
    [|apply nth_error_None in E; lia].
  cbn [bind].
  destruct (farthest_loop_total cand_lab (Z.to_nat (K - 1)) [seed] (dist_to cand_lab p))
    as (out & Hout & Hlen & Hall).
  - unfold dist_to. apply length_map.
  - exact Hne.
  - constructor; [exact Hlt | constructor].
  - exists out. split; [exact Hout|]. split; [exact Hlen | exact Hall].
Qed.

Lemma assign_nearest_ok (lab_pal labs : list Lab) :
  lab_pal <> [] ->
  exists assign,
    mapM (nearest_index lab_pal) labs = Ok assign /\
    length assign = length labs /\
    Forall (fun k => k < length lab_pal) assign.
Proof.
  intro Hne.
  destruct (mapM_Forall2 (nearest_index lab_pal)
                         (fun _ k => k < length lab_pal) labs) as (assign & Ha & Hrel).
  { intros c _. unfold nearest_index, np_argmin.
    destruct (np_arg_bound (fun mp x => fltb x mp)
                           (map (fun p => _deltaE76 c p) lab_pal)) as (k & Hk & Hlt).
    - destruct lab_pal; [congruence | discriminate].
    - exists k. split; [exact Hk|]. rewrite length_map in Hlt. exact Hlt. }
  exists assign. split; [exact Ha|]. split.
  - apply Forall2_length in Hrel. lia.
  - clear Ha. induction Hrel; constructor; assumption.
Qed.

Lemma np_where_eq_bound (assign : list nat) (k : nat) :
  Forall (fun i => i < length assign) (np_where_eq assign k).
Proof.
  unfold np_where_eq. rewrite Forall_forall. intros i Hi.
  apply in_map_iff in Hi. destruct Hi as ((i', a) & Hfst & Hin). simpl in Hfst. subst i'.
  apply filter_In in Hin. destruct Hin as [Hin _].
  apply in_combine_l in Hin. apply in_seq in Hin. lia.
Qed.

Lemma kmedoids_one_iter_total (cand_lab : list Lab) (palette_idx : list nat) :
  palette_idx <> [] ->
  Forall (fun i => i < length cand_lab) palette_idx ->
  exists new_idx,
    _kmedoids_one_iter cand_lab palette_idx = Ok new_idx /\
    length new_idx = length palette_idx /\
    Forall (fun i => i < length cand_lab) new_idx.
Proof.
  intros Hne Hall. unfold _kmedoids_one_iter.
  destruct (take_rows_ok cand_lab palette_idx Hall) as (palette & Hpal & Hplen).
  rewrite Hpal. cbn [bind].
  assert (Hpne : palette <> []).
  { intro Hnil. rewrite Hnil in Hplen. destruct palette_idx; [congruence | discriminate]. }
  destruct (assign_nearest_ok palette cand_lab Hpne) as (assign & Ha & Halen & _).
  assert (Ha' : assign_nearest palette cand_lab = Ok assign).
  { unfold assign_nearest. destruct palette; [congruence | exact Ha]. }
  rewrite Ha'. cbn [bind].
  match goal with
  | |- exists new_idx, mapM ?f ?l = _ /\ _ =>
      destruct (mapM_Forall2 f (fun _ i => i < length cand_lab) l)
        as (new_idx & Hnew & Hrel)
  end.
  { intros k Hk. apply in_seq in Hk.
    pose proof (np_where_eq_bound assign k) as Hmem. rewrite Halen in Hmem.
    destruct (np_where_eq assign k) as [|m0 ms] eqn:Em.
    - eexists. split; [reflexivity|].
      rewrite Forall_forall in Hall. apply Hall, nth_In. lia.
    - destruct (take_rows_ok cand_lab (m0 :: ms) Hmem) as (sub & Hsub & Hslen).
      rewrite Hsub. cbn [bind].
      destruct (np_arg_bound (fun mp x => fltb x mp) (sum_dists sub)) as (m & Hm & Hlt).
      { unfold sum_dists. destruct sub; [discriminate | discriminate]. }
      unfold np_argmin. rewrite Hm. cbn [bind].
      eexists. split; [reflexivity|].
      unfold sum_dists in Hlt. rewrite length_map, Hslen in Hlt.
      rewrite Forall_forall in Hmem. apply Hmem, nth_In. exact Hlt. }
  exists new_idx. split; [exact Hnew|]. split.
  - apply Forall2_length in Hrel. rewrite length_seq in Hrel. lia.
  - clear Hnew. induction Hrel; constructor; assumption.
Qed.

Lemma np_arange_ok (stop step : nat) :
  0 < stop -> 0 < step ->
  exists x xs, np_arange stop step = Ok (x :: xs).
Proof.
  intros Hstop Hstep. unfold np_arange.
  destruct (Nat.eqb_spec step 0) as [?|_]; [lia|].
  assert (Hn : 0 < (stop + step - 1) / step).
  { apply Nat.div_str_pos. lia. }
  destruct ((stop + step - 1) / step) as [|n]; [lia|].
  simpl. eexists. eexists. reflexivity.
Qed.

Lemma pal_list_length (palette_rgb : list RGB) :
  length (flat_map (fun c => [red c; green c; blue c]) palette_rgb) =
  3 * length palette_rgb.
Proof.
  induction palette_rgb as [|c l IH]; simpl; [reflexivity | rewrite IH; lia].
Qed.

(** On a non-empty image with a positive sampling stride and a chunk of
    at least one pixel, [posterize_diverse] returns a paletted image of
    the same shape for every value of [colors] up to 256. *)
Lemma posterize_diverse_total (img_rgb : RawImage) (colors : Z)
      (sample_step bucket : nat) (refine : bool) (map_chunk : nat) :
  0 < im_h img_rgb -> 0 < im_w img_rgb -> 0 < sample_step -> 1 <= map_chunk ->
  (colors <= 256)%Z ->
  exists pal,
    posterize_diverse img_rgb colors sample_step bucket refine map_chunk = Ok pal /\
    p_h pal = im_h img_rgb /\ p_w pal = im_w img_rgb.
Proof.
  intros Hh Hw Hstep Hchunk Hcol. unfold posterize_diverse, _sample_uniform_grid.
  destruct (np_arange_ok (im_h img_rgb) sample_step Hh Hstep) as (y & ys & Hys).
  destruct (np_arange_ok (im_w img_rgb) sample_step Hw Hstep) as (x & xs & Hxs).
  rewrite Hys, Hxs. cbn [bind flat_map map app].
  set (first_px := nth (y * im_w img_rgb + x) (im_px img_rgb) black).
  match goal with
  | |- context [_dedup_colors (first_px :: ?rest) bucket] =>
      set (cand_rgb := _dedup_colors (first_px :: rest) bucket)
  end.
  assert (Hcand : cand_rgb <> []) by (unfold cand_rgb, _dedup_colors; discriminate).
  assert (Hlab : _rgb_to_lab cand_rgb <> []).
  { unfold _rgb_to_lab. destruct cand_rgb; [congruence | discriminate]. }
  assert (Hlablen : length (_rgb_to_lab cand_rgb) = length cand_rgb)
    by (unfold _rgb_to_lab; apply length_map).
  destruct (farthest_point_palette_total (_rgb_to_lab cand_rgb) (palette_size colors) Hlab)
    as (chosen & Hchosen & Hclen & Hcall).
  rewrite Hchosen. cbn [bind].
  assert (Href : exists pal_idx,
             (if refine then _kmedoids_one_iter (_rgb_to_lab cand_rgb) chosen
              else Ok chosen) = Ok pal_idx /\
             length pal_idx = length chosen /\
             Forall (fun i => i < length cand_rgb) pal_idx).
  { destruct refine.
    - destruct (kmedoids_one_iter_total (_rgb_to_lab cand_rgb) chosen)
        as (new_idx & Hnew & Hnlen & Hnall).
      + destruct chosen; [discriminate | discriminate].
      + exact Hcall.
      + exists new_idx. split; [exact Hnew|]. split; [exact Hnlen|].
        rewrite <- Hlablen. exact Hnall.
    - exists chosen. split; [reflexivity|]. split; [reflexivity|].
      rewrite <- Hlablen. exact Hcall. }
  destruct Href as (pal_idx & Hpal_idx & Hplen0 & Hpall).
  rewrite Hpal_idx. cbn [bind].
  destruct (take_rows_ok cand_rgb pal_idx Hpall) as (palette_rgb & Hpalette & Hplen).
  rewrite Hpalette. cbn [bind].
  assert (Hpal_ne : _rgb_to_lab palette_rgb <> []).
  { unfold _rgb_to_lab. destruct palette_rgb; [|discriminate].
    simpl in Hplen. rewrite Hplen0, Hclen in Hplen. discriminate. }
  rewrite quantize_eq_one_pass by (rewrite ?repeat_length; lia).
  unfold quantize_one_pass.
  destruct (assign_nearest_ok (_rgb_to_lab palette_rgb) (_rgb_to_lab (im_px img_rgb)) Hpal_ne)
    as (assign & Ha & _).
  unfold _rgb_to_lab at 2 in Ha. rewrite mapM_map in Ha.
  rewrite Ha. cbn [bind].
  assert (Hfits : (768 <? length (flat_map (fun c => [red c; green c; blue c])
                                           palette_rgb)) = false).
  { apply Nat.ltb_ge. rewrite pal_list_length. unfold palette_size in *. lia. }
  rewrite Hfits.
  eexists. split; [reflexivity|]. split; reflexivity.
Qed.

End Totality.

(** ** The pipeline *)

Section Pipeline.

Context {F : Type} {ops : Float64 F}.

(** With an empty range of periods [_best_period] falls back to 1. *)
Lemma best_period_empty_range (strength : list nat) (lo hi : Z) :
  (Z.min hi (Z.of_nat (length strength)) + 1 <= lo)%Z ->
  _best_period strength lo hi = Ok 1%Z.
Proof.
  intro Hempty. unfold _best_period. rewrite !length_map.
  unfold py_range.
  replace (Z.to_nat (Z.min hi (Z.of_nat (length strength)) + 1 - lo)) with 0 by lia.
  reflexivity.
Qed.

Lemma estimate_empty_ranges (pal_img : PImage) (smin smax : Z) :
  (Z.min smax (Z.of_nat (p_w pal_img - 1)) + 1 <= smin)%Z ->
  (Z.min smax (Z.of_nat (p_h pal_img - 1)) + 1 <= smin)%Z ->
  estimate_grid_step_from_edges pal_img smin smax = Ok (1, 1)%Z.
Proof.
  intros Hw Hh. unfold estimate_grid_step_from_edges.
  rewrite !best_period_empty_range
    by (rewrite length_map, length_seq; assumption).
  reflexivity.
Qed.

(** C4. Without an override the pipeline takes the estimates
    [(sy, sx)] of the grid estimation, replaces both by
    [m = max(sy, sx)], subtracts one from each and passes
    [(m - 1, m - 1)] to the downscaler (and returns that pair); with an
    override the pair given is passed on, and returned, as it is. *)
Theorem fix_pixel_art_block_size (img_prep : RawImage) (colors smin smax : Z)
        (sample_step bucket : nat) (refine : bool) :
  fix_pixel_art img_prep colors smin smax sample_step bucket refine None =
  (pal <- posterize_diverse img_prep colors sample_step bucket refine default_map_chunk ;;
   '(sy, sx) <- estimate_grid_step_from_edges pal smin smax ;;
   let m := Z.max sy sx in
   fixed <- downscale_by_mode pal (m - 1) (m - 1) ;;
   Ok (pal, ((m - 1)%Z, (m - 1)%Z), fixed))
  /\
  forall oy ox : Z,
    fix_pixel_art img_prep colors smin smax sample_step bucket refine (Some (oy, ox)) =
    (pal <- posterize_diverse img_prep colors sample_step bucket refine default_map_chunk ;;
     fixed <- downscale_by_mode pal oy ox ;;
     Ok (pal, (oy, ox), fixed)).
Proof.
  unfold fix_pixel_art. split.
  - destruct (posterize_diverse _ _ _ _ _ _) as [pal| |]; cbn [bind]; try reflexivity.
    destruct (estimate_grid_step_from_edges pal smin smax) as [[sy sx]| |];
      cbn [bind]; try reflexivity.
    destruct (Z.ltb_spec sx sy) as [Hlt|Hge]; cbn [bind].
    + rewrite Z.max_l by lia. reflexivity.
    + rewrite Z.max_r by lia. reflexivity.
  - intros oy ox.
    destruct (posterize_diverse _ _ _ _ _ _) as [pal| |]; reflexivity.
Qed.

(** C6, as the code has it. A palette size below 2 is no error: the
    builder replaces it by [K = max(2, colors) = 2] and goes on exactly
    as for a request of two colours; on a non-empty image (with a
    positive stride and chunk) it returns a paletted image. *)
Theorem posterize_diverse_clamps_small_K (img_rgb : RawImage) (colors : Z)
        (sample_step bucket : nat) (refine : bool) (map_chunk : nat) :
  (colors < 2)%Z ->
  0 < im_h img_rgb -> 0 < im_w img_rgb -> 0 < sample_step -> 1 <= map_chunk ->
  palette_size colors = 2%Z /\
  posterize_diverse img_rgb colors sample_step bucket refine map_chunk =
  posterize_diverse img_rgb 2 sample_step bucket refine map_chunk /\
  exists pal,
    posterize_diverse img_rgb colors sample_step bucket refine map_chunk = Ok pal.
Proof.
  intros Hc Hh Hw Hstep Hchunk.
  assert (HK : palette_size colors = 2%Z) by (unfold palette_size; lia).
  split; [exact HK|]. split.
  - unfold posterize_diverse. rewrite HK. reflexivity.
  - destruct (posterize_diverse_total img_rgb colors sample_step bucket refine map_chunk
                Hh Hw Hstep Hchunk) as (pal & Hpal & _); [lia|].
    exists pal. exact Hpal.
Qed.

(** C8. There are inputs on which the pipeline without override reaches
    the downscaler with block size 0 and fails with a division error:
    on every non-empty image whose edge-strength profiles leave the
    range of periods empty on both axes, and for every palette size that
    fits an indexed image (at most 256), the quantisation returns,
    [_best_period] falls back to 1 on both axes, the square and
    off-by-one adjustment turns [(1, 1)] into [(0, 0)], and
    [downscale_by_mode] divides by zero. *)
Theorem fix_pixel_art_divides_by_zero (img_prep : RawImage) (colors smin smax : Z)
        (sample_step bucket : nat) (refine : bool) :
  0 < im_h img_prep -> 0 < im_w img_prep -> 0 < sample_step ->
  (colors <= 256)%Z ->
  (Z.min smax (Z.of_nat (im_w img_prep - 1)) + 1 <= smin)%Z ->
  (Z.min smax (Z.of_nat (im_h img_prep - 1)) + 1 <= smin)%Z ->
  exists pal,
    posterize_diverse img_prep colors sample_step bucket refine default_map_chunk = Ok pal /\
    estimate_grid_step_from_edges pal smin smax = Ok (1, 1)%Z /\
    downscale_by_mode pal 0 0 = Raise ZeroDivisionError /\
    fix_pixel_art img_prep colors smin smax sample_step bucket refine None =
    Raise ZeroDivisionError.
Proof.
  intros Hh Hw Hstep Hcol Hrw Hrh.
  destruct (posterize_diverse_total img_prep colors sample_step bucket refine
              default_map_chunk Hh Hw Hstep) as (pal & Hpal & Hph & Hpw).
  { unfold default_map_chunk. lia. }
  { exact Hcol. }
  assert (Hest : estimate_grid_step_from_edges pal smin smax = Ok (1, 1)%Z).
  { apply estimate_empty_ranges; [rewrite Hpw | rewrite Hph]; assumption. }
  exists pal. split; [exact Hpal|]. split; [exact Hest|]. split; [reflexivity|].
  unfold fix_pixel_art. rewrite Hpal. cbn [bind]. rewrite Hest. reflexivity.
Qed.

End Pipeline.

(** ** The statements at sample inputs *)

Lemma int_ltb_swo : StrictWeakOrder (@fltb Z IntModel.ops).
Proof.
  constructor; simpl.
  - intro x. apply Z.ltb_irrefl.
  - intros x y z H1 H2. apply Z.ltb_lt in H1, H2. apply Z.ltb_lt. lia.
  - intros x y z H. apply Z.ltb_lt in H.
    destruct (Z.ltb_spec x z); [left; reflexivity | right; apply Z.ltb_lt; lia].
Qed.

Lemma Forall_ltb (n : nat) (l : list nat) :
  forallb (fun v => v <? n) l = true -> Forall (fun v => v < n) l.
Proof.
  intro H. rewrite Forall_forall. intros v Hv.
  rewrite forallb_forall in H. apply Nat.ltb_lt, H, Hv.
Qed.

(** The bound of 256 colours in C3 and C9 is the range of the [uint8]
    cast of line 167: with the 257 colours of [Examples.long_palette]
    the blue pixel is nearest to entry 256, and the index stored for it
    is [256 mod 256 = 0], the position of a red. *)
Remark quantize_index_wraps_beyond_256 :
  @nearest_index Z IntModel.ops (@_rgb_to_lab Z IntModel.ops Examples.long_palette)
                 (@to_lab Z IntModel.ops (mkRGB 0 0 200)) = Ok 256 /\
  @quantize Z IntModel.ops [mkRGB 0 0 200] Examples.long_palette 1 [0] = Ok [0].
Proof. split; vm_compute; reflexivity. Qed.

Lemma downscale_by_mode_block_modes_witness :
  length (p_idx Examples.indexed) = 4 * 5 /\
  exists out,
    downscale_by_mode Examples.indexed 2 2 = Ok out /\
    Z.of_nat (p_h out) = (Z.of_nat (p_h Examples.indexed) / 2)%Z /\
    Z.of_nat (p_w out) = (Z.of_nat (p_w Examples.indexed) / 2)%Z /\
    length (p_idx out) = p_h out * p_w out /\
    p_palette out = p_palette Examples.indexed /\
    forall bi bj, bi < p_h out -> bj < p_w out ->
      let blk := block_pixels (p_w Examples.indexed) (p_idx Examples.indexed)
                              (Z.to_nat 2) (Z.to_nat 2) bi bj in
      lowest_mode blk (at2 (p_w out) (p_idx out) bi bj) /\
      forall v, (forall u, In u blk -> u = v) -> at2 (p_w out) (p_idx out) bi bj = v.
Proof.
  split; [reflexivity|].
  apply (downscale_by_mode_block_modes Examples.indexed 2 2);
    [reflexivity | apply Forall_ltb; reflexivity | lia | lia].
Defined.

Lemma farthest_point_palette_greedy_witness :
  Examples.candidates <> [] /\ (2 <= 5)%Z /\
  exists chosen,
    @_farthest_point_palette Z IntModel.ops Examples.candidates 5 None = Ok chosen /\
    length chosen = Z.to_nat 5 /\
    Forall (fun i => i < length Examples.candidates) chosen /\
    first_extremum (@fltb Z IntModel.ops) 0%Z
                   (map (@lab_chroma Z IntModel.ops) Examples.candidates) (nth 0 chosen 0) /\
    forall t, 1 <= t < Z.to_nat 5 ->
      first_extremum (@fltb Z IntModel.ops) 0%Z
                     (map (@nearest_chosen Z IntModel.ops Examples.candidates
                                           (firstn t chosen)) Examples.candidates)
                     (nth t chosen 0).
Proof.
  split; [discriminate|]. split; [lia|].
  apply (@farthest_point_palette_greedy Z IntModel.ops Examples.candidates 5 int_ltb_swo);
    [discriminate | lia].
Defined.

Lemma quantize_assigns_nearest_in_range_witness :
  Examples.palette <> [] /\ length Examples.palette <= 256 /\
  exists out,
    @quantize Z IntModel.ops Examples.pixels Examples.palette 2 [9; 9; 9] = Ok out /\
    length out = length Examples.pixels /\
    forall i, i < length Examples.pixels ->
      let dists := @palette_dists Z IntModel.ops Examples.palette
                                  (nth i Examples.pixels black) in
      nth i out 0 < length Examples.palette /\
      forall j, j < length Examples.palette ->
        @fltb Z IntModel.ops (nth j dists 0%Z) (nth (nth i out 0) dists 0%Z) = false.
Proof.
  split; [discriminate|]. split; [simpl; lia|].
  apply (@quantize_assigns_nearest_in_range Z IntModel.ops
           Examples.pixels Examples.palette 2 [9; 9; 9] int_ltb_swo);
    [discriminate | simpl; lia | lia | reflexivity].
Defined.

Lemma quantize_ties_to_lowest_index_witness :
  Examples.palette <> [] /\ length Examples.palette <= 256 /\
  exists out,
    @quantize Z IntModel.ops Examples.pixels Examples.palette 2 [9; 9; 9] = Ok out /\
    forall i, i < length Examples.pixels ->
      let dists := @palette_dists Z IntModel.ops Examples.palette
                                  (nth i Examples.pixels black) in
      let minimiser k :=
        k < length Examples.palette /\
        forall m, m < length Examples.palette ->
                  @fltb Z IntModel.ops (nth m dists 0%Z) (nth k dists 0%Z) = false in
      minimiser (nth i out 0) /\
      forall j, minimiser j -> nth i out 0 <= j.
Proof.
  split; [discriminate|]. split; [simpl; lia|].
  apply (@quantize_ties_to_lowest_index Z IntModel.ops
           Examples.pixels Examples.palette 2 [9; 9; 9] int_ltb_swo);
    [discriminate | simpl; lia | lia | reflexivity].
Defined.

Lemma chunked_quantize_refines_one_pass_witness :
  1 <= 2 /\
  @quantize Z IntModel.ops Examples.pixels Examples.palette 2 [9; 9; 9] =
  @quantize_one_pass Z IntModel.ops Examples.pixels Examples.palette /\
  forall (map_chunk' : nat) (junk' : list nat),
    1 <= map_chunk' -> length junk' = length Examples.pixels ->
    @quantize Z IntModel.ops Examples.pixels Examples.palette 2 [9; 9; 9] =
    @quantize Z IntModel.ops Examples.pixels Examples.palette map_chunk' junk'.
Proof.
  split; [lia|].
  apply (@chunked_quantize_refines_one_pass Z IntModel.ops
           Examples.pixels Examples.palette 2 [9; 9; 9]);
    [lia | reflexivity].
Defined.

Lemma posterize_diverse_clamps_small_K_witness :
  (1 < 2)%Z /\
  palette_size 1 = 2%Z /\
  @posterize_diverse Z IntModel.ops Examples.one_pixel 1 4 16 true default_map_chunk =
  @posterize_diverse Z IntModel.ops Examples.one_pixel 2 4 16 true default_map_chunk /\
  exists pal,
    @posterize_diverse Z IntModel.ops Examples.one_pixel 1 4 16 true default_map_chunk
    = Ok pal.
Proof.
  split; [lia|].
  apply (@posterize_diverse_clamps_small_K Z IntModel.ops
           Examples.one_pixel 1 4 16 true default_map_chunk);
    [lia | simpl; lia | simpl; lia | lia | unfold default_map_chunk; lia].
Defined.

(** C6 as stated fails: asked for one colour ([colors = 1 < 2]), the
    builder raises nothing on a one-pixel black image; whatever the
    float64 operations do it returns a paletted image, and on the
    integer model that image carries the two palette entries
    [(8,8,8)], [(8,8,8)] of [K = 2]. *)
Lemma posterize_diverse_accepts_one_colour :
  (exists pal,
      @posterize_diverse Z IntModel.ops Examples.one_pixel 1 4 16 true default_map_chunk
      = Ok pal /\
      p_idx pal = [0] /\
      p_palette pal = [8; 8; 8; 8; 8; 8] ++ repeat 0 762) /\
  (forall (F : Type) (ops : Float64 F),
      exists pal,
        posterize_diverse Examples.one_pixel 1 4 16 true default_map_chunk = Ok pal /\
        forall e,
          posterize_diverse Examples.one_pixel 1 4 16 true default_map_chunk <> Raise e).
Proof.
  split.
  - eexists. split; [vm_compute; reflexivity|]. split; reflexivity.
  - intros F ops.
    destruct (@posterize_diverse_total F ops Examples.one_pixel 1 4 16 true default_map_chunk)
      as (pal & Hpal & _); try (simpl; lia); [unfold default_map_chunk; lia|].
    exists pal. split; [exact Hpal|]. intros e He. rewrite Hpal in He. discriminate.
Qed.

Lemma downscale_by_mode_rejects_nonpositive_witness :
  ((0 <= 0)%Z \/ (2 <= 0)%Z) /\
  downscale_by_mode Examples.indexed 0 2 = Raise ZeroDivisionError /\
  ((-2 <= 0)%Z \/ (2 <= 0)%Z) /\
  downscale_by_mode Examples.indexed (-2) 2 = Raise ValueError.
Proof.
  split; [left; lia|]. split.
  - apply (downscale_by_mode_rejects_nonpositive Examples.indexed 0 2). left; lia.
  - split; [left; lia|].
    apply (downscale_by_mode_rejects_nonpositive Examples.indexed (-2) 2). left; lia.
Defined.

Lemma fix_pixel_art_divides_by_zero_witness :
  exists pal,
    @posterize_diverse Z IntModel.ops Examples.one_pixel 10 4 16 true default_map_chunk
    = Ok pal /\
    @estimate_grid_step_from_edges Z IntModel.ops pal 2 64 = Ok (1, 1)%Z /\
    downscale_by_mode pal 0 0 = Raise ZeroDivisionError /\
    @fix_pixel_art Z IntModel.ops Examples.one_pixel 10 2 64 4 16 true None =
    Raise ZeroDivisionError.
Proof.
  apply (@fix_pixel_art_divides_by_zero Z IntModel.ops Examples.one_pixel 10 2 64 4 16 true);
    simpl; lia.
Defined.

Lemma farthest_point_palette_distinct_witness :
  NoDup Examples.candidates /\
  (2 <= 3 <= Z.of_nat (length Examples.candidates))%Z /\
  exists chosen,
    @_farthest_point_palette Z IntModel.ops Examples.candidates 3 None = Ok chosen /\
    length chosen = Z.to_nat 3 /\
    NoDup chosen.
Proof.
  assert (Hnd : NoDup Examples.candidates).
  { unfold Examples.candidates.
    repeat constructor; simpl; intuition congruence. }
  split; [exact Hnd|]. split; [simpl; lia|].
  apply (@farthest_point_palette_distinct Z IntModel.ops Examples.candidates 3 int_ltb_swo).
  - intros c [<-|[<-|[<-|[]]]]; reflexivity.
  - intros c c' [<-|[<-|[<-|[]]]] [<-|[<-|[<-|[]]]] Hne;
      try reflexivity; exfalso; apply Hne; reflexivity.
  - exact Hnd.
  - simpl; lia.
Defined.

(** * Further properties of the code *)

(** ** [downscale_by_mode] *)

(** The image returned for positive block sizes, in closed form. *)
Lemma downscale_by_mode_modes (H W : nat) (data palette : list nat) (sy sx : Z) :
  length data = H * W ->
  Forall (fun v => v < 256) data ->
  (0 < sy)%Z -> (0 < sx)%Z ->
  exists out_flat,
    downscale_by_mode (mkP H W data palette) sy sx =
    Ok (mkP (H / Z.to_nat sy) (W / Z.to_nat sx) out_flat palette) /\
    length out_flat = (H / Z.to_nat sy) * (W / Z.to_nat sx) /\
    forall bi bj, bi < H / Z.to_nat sy -> bj < W / Z.to_nat sx ->
      lowest_mode (block_pixels W data (Z.to_nat sy) (Z.to_nat sx) bi bj)
                  (nth (bi * (W / Z.to_nat sx) + bj) out_flat 0).
Proof.
  intros Hlen Huint8 Hsy Hsx.
  set (syn := Z.to_nat sy). set (sxn := Z.to_nat sx).
  set (hb := H / syn). set (wb := W / sxn).
  assert (Hsyn : 0 < syn) by (unfold syn; lia).
  assert (Hsxn : 0 < sxn) by (unfold sxn; lia).
  assert (Hhq : (Z.of_nat H / sy)%Z = Z.of_nat hb).
  { unfold hb. rewrite Nat2Z.inj_div. unfold syn. rewrite Z2Nat.id by lia. reflexivity. }
  assert (Hwq : (Z.of_nat W / sx)%Z = Z.of_nat wb).
  { unfold wb. rewrite Nat2Z.inj_div. unfold sxn. rewrite Z2Nat.id by lia. reflexivity. }
  assert (HH2 : hb * syn <= H).
  { unfold hb. pose proof (Nat.Div0.mul_div_le H syn). lia. }
  assert (HW2 : wb * sxn <= W).
  { unfold wb. pose proof (Nat.Div0.mul_div_le W sxn). lia. }
  unfold downscale_by_mode, py_floordiv. cbn [p_h p_w p_idx p_palette].
  destruct (Z.eqb_spec sy 0) as [?|_]; [lia|].
  destruct (Z.eqb_spec sx 0) as [?|_]; [lia|].
  cbn [bind]. unfold crop2.
  rewrite !floordiv_mul_back by lia. rewrite Hhq, Hwq.
  assert (Hstop_h : py_stop H (Z.of_nat hb * sy) = hb * syn).
  { unfold py_stop. destruct (Z.ltb_spec (Z.of_nat hb * sy) 0); [lia|].
    replace (Z.to_nat (Z.of_nat hb * sy)) with (hb * syn) by (unfold syn; nia). lia. }
  assert (Hstop_w : py_stop W (Z.of_nat wb * sx) = wb * sxn).
  { unfold py_stop. destruct (Z.ltb_spec (Z.of_nat wb * sx) 0); [lia|].
    replace (Z.to_nat (Z.of_nat wb * sx)) with (wb * sxn) by (unfold sxn; nia). lia. }
  rewrite Hstop_h, Hstop_w.
  set (arr := flat_map (fun y => firstn (wb * sxn) (skipn (y * W) data)) (seq 0 (hb * syn))).
  rewrite (reshape_known (hb * syn * (wb * sxn)) [Z.of_nat hb; sy; Z.of_nat wb; sx]);
    [|repeat constructor; lia
     |cbn [map fold_left]; rewrite !Nat2Z.id; fold syn sxn; ring].
  cbn [bind].
  rewrite (reshape_known (hb * syn * (wb * sxn)) [(Z.of_nat hb * Z.of_nat wb)%Z; (sy * sx)%Z]);
    [|repeat constructor; nia
     |cbn [map fold_left];
      replace (Z.to_nat (Z.of_nat hb * Z.of_nat wb)) with (hb * wb) by nia;
      replace (Z.to_nat (sy * sx)) with (syn * sxn) by (unfold syn, sxn; nia); ring].
  cbn [bind map nth].
  rewrite !Nat2Z.id. fold syn sxn.
  replace (Z.to_nat (Z.of_nat hb * Z.of_nat wb)) with (hb * wb) by nia.
  replace (Z.to_nat (sy * sx)) with (syn * sxn) by (unfold syn, sxn; nia).
  destruct (Z.ltb_spec (Z.of_nat hb * Z.of_nat wb) 0) as [?|_]; [nia|].
  cbn [bind].
  set (blocks := rows_of (hb * wb) (syn * sxn) (swapaxes12_flat hb syn wb sxn arr)).
  assert (Hblocks_len : length blocks = hb * wb).
  { unfold blocks, rows_of. rewrite length_map, length_seq. reflexivity. }
  assert (Harr : Forall (fun v => v < 256) arr) by (apply Forall_crop; exact Huint8).
  assert (Hblock : forall bi bj, bi < hb -> bj < wb ->
            nth (bi * wb + bj) blocks [] = block_pixels W data syn sxn bi bj).
  { intros bi bj Hbi Hbj. unfold blocks.
    rewrite (block_of_swapped hb syn wb sxn arr bi bj Hbi Hbj).
    unfold block_pixels. apply flat_map_ext_In. intros r Hr. apply in_seq in Hr.
    apply map_ext_in. intros c Hc. apply in_seq in Hc.
    replace (((bi * syn + r) * wb + bj) * sxn + c)
      with ((bi * syn + r) * (wb * sxn) + (bj * sxn + c)) by ring.
    unfold arr. apply (nth_crop H W data); [exact Hlen | exact HH2 | exact HW2 | nia | nia]. }
  destruct (mapM_Forall2
              (fun block => m <- np_argmax_int (np_bincount block 256) ;; Ok (uint8 m))
              (fun block m => lowest_mode block m /\ m < 256) blocks)
    as (out_flat & Hout & Hrel).
  { intros block Hin. apply block_mode_spec.
    unfold blocks, rows_of in Hin. apply in_map_iff in Hin.
    destruct Hin as (n & <- & _).
    rewrite Forall_forall. intros v Hv. apply In_firstn in Hv.
    assert (Hsw : Forall (fun v => v < 256) (swapaxes12_flat hb syn wb sxn arr)).
    { unfold swapaxes12_flat. rewrite Forall_forall. intros x Hx.
      apply in_flat_map in Hx. destruct Hx as (i & _ & Hx).
      apply in_flat_map in Hx. destruct Hx as (j & _ & Hx).
      apply in_flat_map in Hx. destruct Hx as (r & _ & Hx).
      apply in_map_iff in Hx. destruct Hx as (c & <- & _).
      apply Forall_nth_default; [exact Harr | lia]. }
    rewrite Forall_forall in Hsw. apply Hsw.
    rewrite <- (firstn_skipn (n * (syn * sxn)) (swapaxes12_flat hb syn wb sxn arr)).
    apply in_or_app. right; exact Hv. }
  rewrite Hout. cbn [bind].
  assert (Hout_len : length out_flat = hb * wb).
  { apply Forall2_length in Hrel. lia. }
  rewrite (reshape_known (length out_flat) [Z.of_nat hb; Z.of_nat wb]);
    [|repeat constructor; lia
     |cbn [map fold_left]; rewrite !Nat2Z.id, Hout_len; ring].
  cbn [bind map nth]. rewrite !Nat2Z.id.
  exists out_flat. split; [reflexivity|]. split; [exact Hout_len|].
  intros bi bj Hbi Hbj.
  assert (Hn : bi * wb + bj < length blocks) by (rewrite Hblocks_len; nia).
  pose proof (Forall2_nth_rel _ blocks out_flat [] 0 (bi * wb + bj) Hrel Hn) as Hmode.
  cbv beta in Hmode. rewrite (Hblock bi bj Hbi Hbj) in Hmode.
  exact (proj1 Hmode).
Qed.

Lemma lowest_mode_In (blk : list nat) (m : nat) :
  blk <> [] -> lowest_mode blk m -> In m blk.
Proof.
  intros Hne [Hmax _]. destruct blk as [|x rest]; [congruence|].
  apply (count_occ_In Nat.eq_dec).
  assert (0 < count_occ Nat.eq_dec (x :: rest) x)
    by (apply count_occ_In; left; reflexivity).
  specialize (Hmax x). lia.
Qed.

Lemma block_pixels_length (w : nat) (data : list nat) (sy sx bi bj : nat) :
  length (block_pixels w data sy sx bi bj) = sy * sx.
Proof.
  unfold block_pixels. apply (length_flat_map_grid _ sx sy 0).
  intros y _. rewrite length_map, length_seq. reflexivity.
Qed.

Lemma In_block_pixels (w : nat) (data : list nat) (sy sx bi bj v : nat) :
  In v (block_pixels w data sy sx bi bj) ->
  exists r c, r < sy /\ c < sx /\ v = at2 w data (bi * sy + r) (bj * sx + c).
Proof.
  unfold block_pixels. intro Hin.
  apply in_flat_map in Hin. destruct Hin as (r & Hr & Hin).
  apply in_map_iff in Hin. destruct Hin as (c & Hv & Hc).
  apply in_seq in Hr, Hc. exists r, c. repeat split; [lia | lia | congruence].
Qed.

(** Two arrays of [h] x [w] entries with the same entry at every
    position are equal. *)
Lemma grid_ext {A : Type} (d : A) (h w : nat) (xs ys : list A) :
  length xs = h * w -> length ys = h * w ->
  (forall bi bj, bi < h -> bj < w -> nth (bi * w + bj) xs d = nth (bi * w + bj) ys d) ->
  xs = ys.
Proof.
  intros Hx Hy Hall. apply (nth_ext xs ys d d); [lia|].
  intros n Hn. rewrite Hx in Hn.
  assert (Hw : 0 < w) by nia.
  pose proof (Nat.div_mod_eq n w) as Hdm.
  assert (Hbj : n mod w < w) by (apply Nat.mod_upper_bound; lia).
  assert (Hbi : n / w < h) by (apply Nat.Div0.div_lt_upper_bound; lia).
  replace n with (n / w * w + n mod w) by lia.
  apply Hall; assumption.
Qed.

(** X1. Downscaling with 1 x 1 blocks returns the image unchanged. *)
Theorem downscale_by_one_is_identity (pal_img : PImage) :
  length (p_idx pal_img) = p_h pal_img * p_w pal_img ->
  Forall (fun v => v < 256) (p_idx pal_img) ->
  downscale_by_mode pal_img 1 1 = Ok pal_img.
Proof.
  destruct pal_img as [H W data palette]. cbn [p_h p_w p_idx]. intros Hlen Huint8.
  destruct (downscale_by_mode_modes H W data palette 1 1 Hlen Huint8)
    as (out_flat & Hrun & Hol & Hmodes); [lia | lia |].
  change (Z.to_nat 1) with 1 in *. rewrite !Nat.div_1_r in *.
  rewrite Hrun. do 2 f_equal.
  apply (grid_ext 0 H W); [exact Hol | exact Hlen |].
  intros bi bj Hbi Hbj. specialize (Hmodes bi bj Hbi Hbj).
  apply lowest_mode_In in Hmodes.
  - apply In_block_pixels in Hmodes. destruct Hmodes as (r & c & Hr & Hc & Hv).
    assert (r = 0) by lia. assert (c = 0) by lia. subst r c.
    rewrite Hv. unfold at2. f_equal. lia.
  - intro Hnil. apply (f_equal (@length nat)) in Hnil.
    rewrite block_pixels_length in Hnil. discriminate.
Qed.

(** X2. A block that is taller or wider than the image is no error: the
    result is an image without pixels (zero rows or zero columns) that
    carries the same palette. *)
Theorem downscale_by_mode_oversized_block (pal_img : PImage) (sy sx : Z) :
  length (p_idx pal_img) = p_h pal_img * p_w pal_img ->
  Forall (fun v => v < 256) (p_idx pal_img) ->
  (0 < sy)%Z -> (0 < sx)%Z ->
  (Z.of_nat (p_h pal_img) < sy \/ Z.of_nat (p_w pal_img) < sx)%Z ->
  exists out,
    downscale_by_mode pal_img sy sx = Ok out /\
    p_idx out = [] /\ (p_h out = 0 \/ p_w out = 0) /\
    p_palette out = p_palette pal_img.
Proof.
  destruct pal_img as [H W data palette]. cbn [p_h p_w p_idx p_palette].
  intros Hlen Huint8 Hsy Hsx Hbig.
  destruct (downscale_by_mode_modes H W data palette sy sx Hlen Huint8 Hsy Hsx)
    as (out_flat & Hrun & Hol & _).
  eexists. split; [exact Hrun|]. cbn [p_h p_w p_idx p_palette].
  assert (Hz : H / Z.to_nat sy = 0 \/ W / Z.to_nat sx = 0).
  { destruct Hbig; [left | right]; apply Nat.div_small; lia. }
  split; [|split; [exact Hz | reflexivity]].
  apply length_zero_iff_nil. rewrite Hol. destruct Hz as [-> | ->]; lia.
Qed.

(** X3. Every palette index of the downscaled image occurs in the
    image it was made from: the downscale introduces no index, so a
    bound on the indices of the input bounds the indices of the
    output. *)
Theorem downscale_by_mode_keeps_indices (pal_img : PImage) (sy sx : Z) :
  length (p_idx pal_img) = p_h pal_img * p_w pal_img ->
  Forall (fun v => v < 256) (p_idx pal_img) ->
  (0 < sy)%Z -> (0 < sx)%Z ->
  exists out,
    downscale_by_mode pal_img sy sx = Ok out /\
    (forall v, In v (p_idx out) -> In v (p_idx pal_img)) /\
    (forall K, Forall (fun v => v < K) (p_idx pal_img) ->
               Forall (fun v => v < K) (p_idx out)).
Proof.
  destruct pal_img as [H W data palette]. cbn [p_h p_w p_idx p_palette].
  intros Hlen Huint8 Hsy Hsx.
  destruct (downscale_by_mode_modes H W data palette sy sx Hlen Huint8 Hsy Hsx)
    as (out_flat & Hrun & Hol & Hmodes).
  eexists. split; [exact Hrun|]. cbn [p_idx].
  set (syn := Z.to_nat sy) in *. set (sxn := Z.to_nat sx) in *.
  assert (Hsyn : 0 < syn) by (unfold syn; lia).
  assert (Hsxn : 0 < sxn) by (unfold sxn; lia).
  assert (Hin : forall v, In v out_flat -> In v data).
  { intros v Hv. destruct (In_nth out_flat v 0 Hv) as (n & Hn & Hnth).
    rewrite Hol in Hn.
    assert (Hw : 0 < W / sxn) by nia.
    pose proof (Nat.div_mod_eq n (W / sxn)) as Hdm.
    assert (Hbj : n mod (W / sxn) < W / sxn) by (apply Nat.mod_upper_bound; lia).
    assert (Hbi : n / (W / sxn) < H / syn)
      by (apply Nat.Div0.div_lt_upper_bound; lia).
    specialize (Hmodes _ _ Hbi Hbj).
    replace (n / (W / sxn) * (W / sxn) + n mod (W / sxn)) with n in Hmodes by lia.
    rewrite Hnth in Hmodes.
    apply lowest_mode_In in Hmodes.
    - apply In_block_pixels in Hmodes. destruct Hmodes as (r & c & Hr & Hc & ->).
      unfold at2. apply nth_In. rewrite Hlen.
      pose proof (Nat.Div0.mul_div_le H syn). pose proof (Nat.Div0.mul_div_le W sxn).
      assert (Hy : n / (W / sxn) * syn + r < H) by nia.
      assert (Hx : n mod (W / sxn) * sxn + c < W) by nia.
      nia.
    - intro Hnil. apply (f_equal (@length nat)) in Hnil.
      rewrite block_pixels_length in Hnil. simpl in Hnil. nia. }
  split; [exact Hin|].
  intros K HK. rewrite Forall_forall in *. intros v Hv. apply HK, Hin, Hv.
Qed.

Lemma preview_resize_entry (fixed : PImage) (n y x : nat) :
  y < p_h fixed * n -> x < p_w fixed * n ->
  at2 (p_w fixed * n) (p_idx (preview_resize fixed n)) y x =
  at2 (p_w fixed) (p_idx fixed) (y / n) (x / n).
Proof.
  intros Hy Hx. unfold preview_resize, at2. cbn [p_idx].
  rewrite (nth_flat_map_grid _ (p_w fixed * n) (p_h fixed * n) y x 0);
    [|intros; rewrite length_map, length_seq; reflexivity | exact Hy | exact Hx].
  rewrite (nth_indep _ 0 (nth (y / n * p_w fixed + 0 / n) (p_idx fixed) 0))
    by (rewrite length_map, length_seq; exact Hx).
  rewrite (map_nth (fun x0 => nth (y / n * p_w fixed + x0 / n) (p_idx fixed) 0)).
  rewrite seq_nth by exact Hx. reflexivity.
Qed.

(** X4. Round trip: the preview of an indexed image (nearest-neighbour
    enlargement by the integer factor [n >= 1]) downscaled with
    [n] x [n] blocks is the image again. *)
Theorem downscale_of_preview_is_identity (fixed : PImage) (n : nat) :
  length (p_idx fixed) = p_h fixed * p_w fixed ->
  Forall (fun v => v < 256) (p_idx fixed) ->
  0 < n ->
  downscale_by_mode (preview_resize fixed n) (Z.of_nat n) (Z.of_nat n) = Ok fixed.
Proof.
  intros Hlen Huint8 Hn.
  assert (Hplen : length (p_idx (preview_resize fixed n)) =
                  (p_h fixed * n) * (p_w fixed * n)).
  { unfold preview_resize. cbn [p_idx].
    apply (length_flat_map_grid _ (p_w fixed * n) (p_h fixed * n) 0).
    intros y _. rewrite length_map, length_seq. reflexivity. }
  assert (Hp8 : Forall (fun v => v < 256) (p_idx (preview_resize fixed n))).
  { unfold preview_resize. cbn [p_idx]. rewrite Forall_forall. intros v Hv.
    apply in_flat_map in Hv. destruct Hv as (y & _ & Hv).
    apply in_map_iff in Hv. destruct Hv as (x & <- & _).
    unfold at2. apply Forall_nth_default; [exact Huint8 | lia]. }
  destruct (downscale_by_mode_modes (p_h fixed * n) (p_w fixed * n)
              (p_idx (preview_resize fixed n)) (p_palette fixed)
              (Z.of_nat n) (Z.of_nat n) Hplen Hp8)
    as (out_flat & Hrun & Hol & Hmodes); [lia | lia |].
  rewrite Nat2Z.id in *. rewrite !Nat.div_mul in * by lia.
  change (mkP (p_h fixed * n) (p_w fixed * n) (p_idx (preview_resize fixed n))
              (p_palette fixed)) with (preview_resize fixed n) in Hrun.
  rewrite Hrun. destruct fixed as [h w data palette]. cbn [p_h p_w p_idx p_palette] in *.
  do 2 f_equal.
  apply (grid_ext 0 h w); [exact Hol | exact Hlen |].
  intros bi bj Hbi Hbj. specialize (Hmodes bi bj Hbi Hbj).
  set (blk := block_pixels (w * n) (p_idx (preview_resize (mkP h w data palette) n))
                           n n bi bj) in *.
  assert (Hne : blk <> []).
  { intro Hnil. apply (f_equal (@length nat)) in Hnil. unfold blk in Hnil.
    rewrite block_pixels_length in Hnil. simpl in Hnil. nia. }
  apply (lowest_mode_monochrome blk); [exact Hne | exact Hmodes |].
  intros u Hu. unfold blk in Hu. apply In_block_pixels in Hu.
  destruct Hu as (r & c & Hr & Hc & ->).
  rewrite (preview_resize_entry (mkP h w data palette) n) by (cbn [p_h p_w]; nia).
  cbn [p_w p_idx]. unfold at2.
  replace ((bi * n + r) / n) with bi
    by (symmetry; rewrite Nat.add_comm, Nat.div_add by lia; rewrite Nat.div_small; lia).
  replace ((bj * n + c) / n) with bj
    by (symmetry; rewrite Nat.add_comm, Nat.div_add by lia; rewrite Nat.div_small; lia).
  reflexivity.
Qed.

(** ** Candidate colours: [_sample_uniform_grid] and [_dedup_colors] *)

Lemma ceil_div_bound (n step i : nat) :
  0 < step -> i < (n + step - 1) / step -> i * step < n.
Proof.
  intros Hstep Hi.
  pose proof (Nat.Div0.mul_div_le (n + step - 1) step) as Hle.
  nia.
Qed.

(** X5. With a positive stride [s] the sampling returns
    [ceil(h/s) * ceil(w/s)] colours; the colour at place [(i, j)] of
    that grid is the pixel [(i*s, j*s)] of the image, which lies inside
    the image. *)
Theorem sample_uniform_grid_positions (img_np : RawImage) (step : nat) :
  0 < step ->
  exists pts,
    _sample_uniform_grid img_np step = Ok pts /\
    length pts = ((im_h img_np + step - 1) / step) * ((im_w img_np + step - 1) / step) /\
    forall i j,
      i < (im_h img_np + step - 1) / step ->
      j < (im_w img_np + step - 1) / step ->
      i * step < im_h img_np /\ j * step < im_w img_np /\
      nth (i * ((im_w img_np + step - 1) / step) + j) pts black =
      nth (i * step * im_w img_np + j * step) (im_px img_np) black.
Proof.
  intro Hstep. unfold _sample_uniform_grid, np_arange.
  destruct (Nat.eqb_spec step 0) as [?|_]; [lia|]. cbn [bind].
  set (nh := (im_h img_np + step - 1) / step).
  set (nw := (im_w img_np + step - 1) / step).
  eexists. split; [reflexivity|].
  rewrite flat_map_concat_map, map_map, <- flat_map_concat_map.
  split.
  - apply (length_flat_map_grid _ nw nh 0).
    intros y _. rewrite !length_map, length_seq. reflexivity.
  - intros i j Hi Hj.
    split; [apply ceil_div_bound; assumption|].
    split; [apply ceil_div_bound; assumption|].
    rewrite (nth_flat_map_grid _ nw nh i j black);
      [|intros; rewrite !length_map, length_seq; reflexivity | exact Hi | exact Hj].
    rewrite map_map.
    rewrite (nth_indep _ black
               (nth (i * step * im_w img_np + 0 * step) (im_px img_np) black))
      by (rewrite length_map, length_seq; exact Hj).
    rewrite (map_nth (fun x => nth (i * step * im_w img_np + x * step) (im_px img_np) black)).
    rewrite seq_nth by exact Hj. reflexivity.
Qed.

(** X6. With stride 1 the sampling returns every pixel of the image, in
    order. *)
Theorem sample_uniform_grid_stride_one (img_np : RawImage) :
  length (im_px img_np) = im_h img_np * im_w img_np ->
  _sample_uniform_grid img_np 1 = Ok (im_px img_np).
Proof.
  intro Hlen. unfold _sample_uniform_grid, np_arange. cbn [Nat.eqb bind].
  rewrite !Nat.add_sub, !Nat.div_1_r. f_equal.
  rewrite flat_map_concat_map, map_map, <- flat_map_concat_map.
  apply (grid_ext black (im_h img_np) (im_w img_np)).
  - apply (length_flat_map_grid _ (im_w img_np) (im_h img_np) 0).
    intros y _. rewrite !length_map, length_seq. reflexivity.
  - exact Hlen.
  - intros bi bj Hbi Hbj.
    rewrite (nth_flat_map_grid _ (im_w img_np) (im_h img_np) bi bj black);
      [|intros; rewrite !length_map, length_seq; reflexivity | exact Hbi | exact Hbj].
    rewrite map_map.
    rewrite (nth_indep _ black
               (nth (bi * 1 * im_w img_np + 0 * 1) (im_px img_np) black))
      by (rewrite length_map, length_seq; exact Hbj).
    rewrite (map_nth (fun x => nth (bi * 1 * im_w img_np + x * 1) (im_px img_np) black)).
    rewrite seq_nth by exact Hbj. f_equal. lia.
Qed.

Lemma RGB_eqb_eq (p q : RGB) : RGB_eqb p q = true <-> p = q.
Proof.
  destruct p as [r g b], q as [r' g' b']. unfold RGB_eqb. simpl.
  rewrite !andb_true_iff, !Nat.eqb_eq. split.
  - intros [[-> ->] ->]. reflexivity.
  - intro H. inversion H. auto.
Qed.

Lemma existsb_RGB_In (x : RGB) (seen : list RGB) :
  existsb (RGB_eqb x) seen = true <-> In x seen.
Proof.
  rewrite existsb_exists. split.
  - intros (y & Hy & Heq). apply RGB_eqb_eq in Heq. subst y. exact Hy.
  - intro Hin. exists x. split; [exact Hin | apply RGB_eqb_eq; reflexivity].
Qed.

Lemma unique_in_order_In (xs seen : list RGB) (x : RGB) :
  In x (unique_in_order seen xs) <-> In x xs /\ ~ In x seen.
Proof.
  revert seen. induction xs as [|y ys IH]; intro seen; simpl.
  - tauto.
  - destruct (existsb (RGB_eqb y) seen) eqn:E.
    + apply existsb_RGB_In in E. rewrite IH. split.
      * intros [H1 H2]. tauto.
      * intros [[->|H1] H2]; [contradiction | tauto].
    + assert (Hy : ~ In y seen).
      { intro H. apply existsb_RGB_In in H. congruence. }
      simpl. rewrite IH. simpl. split.
      * intros [<-|[H1 H2]]; [tauto|]. split; [tauto|]. intro H. apply H2. right; exact H.
      * intros [[<-|H1] H2]; [left; reflexivity|].
        destruct (existsb (RGB_eqb x) [y]) eqn:E2.
        -- apply existsb_RGB_In in E2. destruct E2 as [<-|[]]. left; reflexivity.
        -- right. split; [exact H1|]. intros [<-|H3]; [|contradiction].
           simpl in E2. rewrite (proj2 (RGB_eqb_eq y y) eq_refl) in E2. discriminate.
Qed.

Lemma unique_in_order_NoDup (xs seen : list RGB) : NoDup (unique_in_order seen xs).
Proof.
  revert seen. induction xs as [|y ys IH]; intro seen; simpl; [constructor|].
  destruct (existsb (RGB_eqb y) seen); [apply IH|].
  constructor; [|apply IH].
  rewrite unique_in_order_In. intros [_ H]. apply H. left; reflexivity.
Qed.

Lemma unique_in_order_fixed (xs seen : list RGB) :
  NoDup xs -> (forall x, In x xs -> ~ In x seen) -> unique_in_order seen xs = xs.
Proof.
  revert seen. induction xs as [|y ys IH]; intros seen Hnd Hdis; [reflexivity|].
  simpl. inversion Hnd as [|? ? Hy Hnd']; subst.
  destruct (existsb (RGB_eqb y) seen) eqn:E.
  - apply existsb_RGB_In in E. exfalso. apply (Hdis y); [left; reflexivity | exact E].
  - f_equal. apply IH; [exact Hnd'|].
    intros x Hx [<-|Hs]; [contradiction|]. apply (Hdis x); [right; exact Hx | exact Hs].
Qed.

(** The bucket centre of a colour. *)
Lemma dedup_colors_eq (rgb : list RGB) (round_to : nat) :
  _dedup_colors rgb round_to =
  unique_in_order []
    (map (fun p => mkRGB (bucket_channel round_to (red p))
                         (bucket_channel round_to (green p))
                         (bucket_channel round_to (blue p))) rgb).
Proof. reflexivity. Qed.

Lemma dedup_colors_centres (rgb : list RGB) (round_to : nat) :
  NoDup (_dedup_colors rgb round_to) /\
  forall c,
    In c (_dedup_colors rgb round_to) <->
    exists p, In p rgb /\
              c = mkRGB (bucket_channel round_to (red p))
                        (bucket_channel round_to (green p))
                        (bucket_channel round_to (blue p)).
Proof.
  rewrite dedup_colors_eq. split; [apply unique_in_order_NoDup|].
  intro c. rewrite unique_in_order_In, in_map_iff. split.
  - intros [(p & Hp & Hin) _]. exists p. split; [exact Hin | symmetry; exact Hp].
  - intros (p & Hin & Hp). split; [|intros []].
    exists p. split; [symmetry; exact Hp | exact Hin].
Qed.

(** X7. [_dedup_colors] returns every bucket centre of the input
    exactly once: the result has no repetition, and a colour is in it if
    and only if it is the bucket centre of some input colour. *)
Theorem dedup_colors_distinct_centres (rgb : list RGB) (round_to : nat) :
  NoDup (_dedup_colors rgb round_to) /\
  forall c,
    In c (_dedup_colors rgb round_to) <->
    exists p, In p rgb /\
              c = mkRGB (bucket_channel round_to (red p))
                        (bucket_channel round_to (green p))
                        (bucket_channel round_to (blue p)).
Proof.
  exact (dedup_colors_centres rgb round_to).
Qed.

Lemma bucket_channel_centre (round_to c : nat) :
  0 < round_to -> 256 mod round_to = 0 -> c < 256 ->
  bucket_channel round_to c = c / round_to * round_to + round_to / 2 /\
  bucket_channel round_to c < 256.
Proof.
  intros Hr Hdiv Hc. unfold bucket_channel, uint8.
  assert (Hk : 256 = round_to * (256 / round_to)).
  { pose proof (Nat.div_mod_eq 256 round_to). lia. }
  assert (Hq : c / round_to < 256 / round_to).
  { apply Nat.Div0.div_lt_upper_bound. lia. }
  assert (Hhalf : round_to / 2 < round_to) by (apply Nat.div_lt; lia).
  assert (Hlt : c / round_to * round_to + round_to / 2 < 256) by nia.
  rewrite Nat.mod_small by exact Hlt. split; [reflexivity | exact Hlt].
Qed.

(** X8. For a bucket size that divides 256 (the sizes 8, 16 and 32 of
    the command line) the bucket centre of an 8-bit channel does not
    wrap around and differs from the channel by at most half the bucket
    size. *)
Theorem bucket_channel_within_half (round_to c : nat) :
  0 < round_to -> 256 mod round_to = 0 -> c < 256 ->
  bucket_channel round_to c < 256 /\
  bucket_channel round_to c <= c + round_to / 2 /\
  c <= bucket_channel round_to c + round_to / 2.
Proof.
  intros Hr Hdiv Hc.
  destruct (bucket_channel_centre round_to c Hr Hdiv Hc) as [Heq Hlt].
  split; [exact Hlt|]. rewrite Heq.
  pose proof (Nat.div_mod_eq c round_to) as Hdm.
  pose proof (Nat.mod_upper_bound c round_to ltac:(lia)) as Hmod.
  pose proof (Nat.div_mod_eq round_to 2) as Hr2.
  pose proof (Nat.mod_upper_bound round_to 2 ltac:(lia)) as Hm2.
  split; nia.
Qed.

Lemma bucket_channel_idem (round_to c : nat) :
  0 < round_to -> 256 mod round_to = 0 -> c < 256 ->
  bucket_channel round_to (bucket_channel round_to c) = bucket_channel round_to c.
Proof.
  intros Hr Hdiv Hc.
  destruct (bucket_channel_centre round_to c Hr Hdiv Hc) as [Heq Hlt].
  destruct (bucket_channel_centre round_to _ Hr Hdiv Hlt) as [Heq' _].
  rewrite Heq'. rewrite Heq at 1.
  rewrite Nat.div_add_l by lia.
  rewrite (Nat.div_small (round_to / 2) round_to) by (apply Nat.div_lt; lia).
  rewrite Nat.add_0_r. symmetry. exact Heq.
Qed.

(** X9. For a bucket size that divides 256 and 8-bit colours,
    deduplicating an already deduplicated list changes nothing. *)
Theorem dedup_colors_idempotent (rgb : list RGB) (round_to : nat) :
  0 < round_to -> 256 mod round_to = 0 ->
  Forall (fun p => red p < 256 /\ green p < 256 /\ blue p < 256) rgb ->
  _dedup_colors (_dedup_colors rgb round_to) round_to = _dedup_colors rgb round_to.
Proof.
  intros Hr Hdiv H8.
  destruct (dedup_colors_centres rgb round_to) as [Hnd Hin].
  rewrite (dedup_colors_eq (_dedup_colors rgb round_to)).
  rewrite (map_ext_in _ (fun p => p)), map_id.
  - apply unique_in_order_fixed; [exact Hnd | intros x _ []].
  - intros c Hc. apply Hin in Hc. destruct Hc as (p & Hp & ->). cbn [red green blue].
    rewrite Forall_forall in H8. destruct (H8 p Hp) as (H1 & H2 & H3).
    rewrite !bucket_channel_idem by assumption. reflexivity.
Qed.

(** ** More on the palette selection *)

Section SelectionMore.

Context {F : Type} {ops : Float64 F}.

(** X10. For [K <= 1] the loop of lines 120-123 does not run: on a
    non-empty candidate array the selection returns one index, the
    seed, and not [K] of them. *)
Theorem farthest_point_palette_small_K (cand_lab : list Lab) (K : Z) :
  cand_lab <> [] -> (K <= 1)%Z ->
  exists seed,
    _farthest_point_palette cand_lab K None = Ok [seed] /\
    np_argmax (map chroma cand_lab) = Ok seed /\
    seed < length cand_lab.
Proof.
  intros Hne HK. unfold _farthest_point_palette.
  destruct (np_arg_bound (fun mp x => fltb mp x) (map chroma cand_lab))
    as (seed & Hseed & Hlt).
  { destruct cand_lab; [congruence | discriminate]. }
  rewrite length_map in Hlt.
  exists seed. unfold np_argmax. rewrite Hseed. cbn [bind].
  unfold dist_to_row.
  destruct (nth_error cand_lab seed) as [p|] eqn:E;
    [|apply nth_error_None in E; lia].
  cbn [bind]. replace (Z.to_nat (K - 1)) with 0 by lia.
  split; [reflexivity|]. split; [reflexivity | exact Hlt].
Qed.

(** X11. An image without pixels (no row or no column) has no
    candidate colour, and [posterize_diverse] raises [ValueError] (the
    [argmax] of the empty chroma array), whatever the other
    parameters. *)
Theorem posterize_diverse_empty_image (img_rgb : RawImage) (colors : Z)
        (sample_step bucket : nat) (refine : bool) (map_chunk : nat) :
  0 < sample_step ->
  im_h img_rgb = 0 \/ im_w img_rgb = 0 ->
  posterize_diverse img_rgb colors sample_step bucket refine map_chunk = Raise ValueError.
Proof.
  intros Hstep Hempty. unfold posterize_diverse, _sample_uniform_grid, np_arange.
  destruct (Nat.eqb_spec sample_step 0) as [?|_]; [lia|]. cbn [bind].
  assert (Hz : (0 + sample_step - 1) / sample_step = 0)
    by (apply Nat.div_small; lia).
  assert (Hnil : flat_map
                   (fun y => map (fun x => nth (y * im_w img_rgb + x) (im_px img_rgb) black)
                                 (map (fun i => i * sample_step)
                                      (seq 0 ((im_w img_rgb + sample_step - 1) / sample_step))))
                   (map (fun i => i * sample_step)
                        (seq 0 ((im_h img_rgb + sample_step - 1) / sample_step))) = []).
  { destruct Hempty as [-> | ->]; rewrite Hz.
    - reflexivity.
    - simpl. induction (map _ _) as [|y ys IH]; [reflexivity | exact IH]. }
  rewrite Hnil. reflexivity.
Qed.

Lemma swo_asym (x y : F) :
  StrictWeakOrder fltb -> fltb x y = true -> fltb y x = false.
Proof.
  intros [Hi Ht _] Hxy. destruct (fltb y x) eqn:E; [|reflexivity].
  rewrite <- (Hi x). symmetry. eapply Ht; eassumption.
Qed.

(** [x <= y] and [y <= z] give [x <= z], with [a <= b] read as "not
    [b < a]". *)
Lemma swo_le_trans (x y z : F) :
  StrictWeakOrder fltb ->
  fltb y x = false -> fltb z y = false -> fltb z x = false.
Proof.
  intros Hswo Hxy Hyz. destruct (fltb z x) eqn:E; [|reflexivity].
  destruct (swo_cotrans fltb Hswo z x y E) as [H|H]; congruence.
Qed.

Lemma np_minimum_le (x y : F) :
  StrictWeakOrder fltb ->
  fltb x (np_minimum x y) = false /\ fltb y (np_minimum x y) = false.
Proof.
  intro Hswo. unfold np_minimum. destruct (fltb y x) eqn:E.
  - split; [apply swo_asym; assumption | apply (swo_irrefl fltb Hswo)].
  - split; [apply (swo_irrefl fltb Hswo) | exact E].
Qed.

(** The running minimum is below its start value and below every
    distance folded into it. *)
Lemma fold_minimum_le (dists : nat -> F) (ps : list nat) :
  StrictWeakOrder fltb ->
  forall b,
    fltb b (fold_left (fun d q => np_minimum d (dists q)) ps b) = false /\
    forall q, In q ps ->
      fltb (dists q) (fold_left (fun d q => np_minimum d (dists q)) ps b) = false.
Proof.
  intro Hswo. induction ps as [|p ps IH]; intro b; simpl.
  - split; [apply (swo_irrefl fltb Hswo) | intros q []].
  - destruct (IH (np_minimum b (dists p))) as [Hb Hq].
    destruct (np_minimum_le b (dists p) Hswo) as [Hl Hr].
    split.
    + apply (swo_le_trans _ (np_minimum b (dists p))); assumption.
    + intros q [<-|Hin]; [|apply Hq; exact Hin].
      apply (swo_le_trans _ (np_minimum b (dists p))); assumption.
Qed.

Lemma running_min_le_pick (cand_lab : list Lab) (picks : list nat) (c : Lab) (q : nat) :
  StrictWeakOrder fltb -> In q picks ->
  fltb (_deltaE76 c (nth q cand_lab c)) (running_min cand_lab picks c) = false.
Proof.
  intros Hswo Hin. destruct picks as [|p ps]; [destruct Hin|].
  unfold running_min.
  destruct (fold_minimum_le (fun q => _deltaE76 c (nth q cand_lab c)) ps Hswo
                            (_deltaE76 c (nth p cand_lab c))) as [Hb Hq].
  destruct Hin as [<-|Hin]; [exact Hb | apply Hq; exact Hin].
Qed.

(** More picks do not increase the nearest-chosen distance. *)
Lemma running_min_antitone (cand_lab : list Lab) (picks more : list nat) (c : Lab) :
  StrictWeakOrder fltb -> picks <> [] ->
  fltb (running_min cand_lab picks c) (running_min cand_lab (picks ++ more) c) = false.
Proof.
  intros Hswo Hne. destruct picks as [|p ps]; [congruence|].
  simpl. rewrite fold_left_app.
  apply (fold_minimum_le (fun q => _deltaE76 c (nth q cand_lab c)) more Hswo).
Qed.

(** X12. The guarantee of the greedy selection: every pick is at least
    as far from each earlier pick as any candidate ends up from its
    nearest pick.  So if some candidate is still at distance [r] from
    the palette, the palette colours are pairwise at least [r] apart.
    And the distance of a colour to its nearest pick never grows as
    picks are added. *)
Theorem farthest_point_palette_separation (cand_lab : list Lab) (K : Z) :
  StrictWeakOrder fltb -> cand_lab <> [] -> (1 <= K)%Z ->
  exists chosen,
    _farthest_point_palette cand_lab K None = Ok chosen /\
    (forall s t c,
      s < t < length chosen -> In c cand_lab ->
      fltb (_deltaE76 (nth (nth t chosen 0) cand_lab c) (nth (nth s chosen 0) cand_lab c))
           (nearest_chosen cand_lab chosen c) = false) /\
    (forall picks more c,
      picks <> [] ->
      fltb (nearest_chosen cand_lab picks c)
           (nearest_chosen cand_lab (picks ++ more) c) = false).
Proof.
  intros Hswo Hne HK.
  destruct (farthest_point_palette_picks cand_lab K Hswo Hne HK)
    as (chosen & Hrun & Hlen & Hall & _ & Hpicks).
  exists chosen. split; [exact Hrun|].
  split;
    [|intros picks more c Hpne; rewrite !nearest_chosen_running_min;
      apply running_min_antitone; assumption].
  intros s t c Hst Hc. rewrite nearest_chosen_running_min.
  assert (Ht : 1 <= t < Z.to_nat K) by lia.
  specialize (Hpicks t Ht). destruct Hpicks as (Hidx & Hmax & _).
  rewrite length_map in Hidx, Hmax.
  set (pt := nth t chosen 0) in *. set (ps := nth s chosen 0).
  set (picks := firstn t chosen) in *.
  destruct (In_nth cand_lab c c Hc) as (i & Hi & Hci).
  specialize (Hmax i Hi).
  rewrite !(nth_indep _ fzero (running_min cand_lab picks c)) in Hmax
    by (rewrite length_map; assumption).
  rewrite !map_nth, Hci in Hmax.
  (* final(c) <= prefix(c) <= prefix(pt) <= d(pt, ps) *)
  assert (Hpne : picks <> []).
  { unfold picks. destruct chosen; [simpl in Hst; lia|]. destruct t; [lia | discriminate]. }
  assert (H1 : fltb (running_min cand_lab picks c) (running_min cand_lab chosen c) = false).
  { replace (running_min cand_lab chosen c)
      with (running_min cand_lab (picks ++ skipn t chosen) c)
      by (unfold picks; rewrite firstn_skipn; reflexivity).
    apply running_min_antitone; assumption. }
  assert (Hps : In ps picks).
  { unfold ps, picks.
    replace (nth s chosen 0) with (nth s (firstn t chosen) 0).
    - apply nth_In. rewrite length_firstn. lia.
    - rewrite nth_firstn. destruct (Nat.ltb_spec s t); [reflexivity | lia]. }
  assert (H3 : fltb (_deltaE76 (nth pt cand_lab c) (nth ps cand_lab c))
                    (running_min cand_lab picks (nth pt cand_lab c)) = false).
  { pose proof (running_min_le_pick cand_lab picks (nth pt cand_lab c) ps Hswo Hps) as H.
    assert (Hpslt : ps < length cand_lab).
    { rewrite Forall_forall in Hall. apply Hall. unfold ps. apply nth_In. lia. }
    rewrite (nth_indep _ (nth pt cand_lab c) c) in H by exact Hpslt. exact H. }
  apply (swo_le_trans _ (running_min cand_lab picks (nth pt cand_lab c)) _ Hswo);
    [|exact H3].
  apply (swo_le_trans _ (running_min cand_lab picks c) _ Hswo); [exact H1 | exact Hmax].
Qed.

End SelectionMore.

(** ** The palette builder as a whole *)

Section BuilderMore.

Context {F : Type} {ops : Float64 F}.

Lemma take_rows_In {A : Type} (cand : list A) (idx : list nat) (rows : list A) :
  take_rows cand idx = Ok rows -> Forall (fun c => In c cand) rows.
Proof.
  unfold take_rows. revert rows. induction idx as [|i idx IH]; intros rows H; simpl in H.
  - inversion H. constructor.
  - destruct (nth_error cand i) as [c|] eqn:E; [|discriminate]. cbn [bind] in H.
    destruct (mapM _ idx) as [rs| |]; cbn [bind] in H; try discriminate.
    inversion H; subst. constructor; [eapply nth_error_In; eassumption | apply IH; reflexivity].
Qed.

Lemma sample_uniform_grid_nonempty (img_np : RawImage) (step : nat) :
  0 < im_h img_np -> 0 < im_w img_np -> 0 < step ->
  exists p pts, _sample_uniform_grid img_np step = Ok (p :: pts).
Proof.
  intros Hh Hw Hstep. unfold _sample_uniform_grid.
  destruct (np_arange_ok (im_h img_np) step Hh Hstep) as (y & ys & Hys).
  destruct (np_arange_ok (im_w img_np) step Hw Hstep) as (x & xs & Hxs).
  rewrite Hys, Hxs. cbn [bind flat_map map app]. eexists. eexists. reflexivity.
Qed.

Lemma sample_uniform_grid_In (img_np : RawImage) (step : nat) (pts : list RGB) (p : RGB) :
  _sample_uniform_grid img_np step = Ok pts -> In p pts ->
  exists y x, y < im_h img_np /\ x < im_w img_np /\
              p = nth (y * im_w img_np + x) (im_px img_np) black.
Proof.
  unfold _sample_uniform_grid, np_arange.
  destruct (Nat.eqb_spec step 0) as [?|Hstep]; [discriminate|]. cbn [bind].
  intros H Hin. inversion H; subst pts. clear H.
  apply in_flat_map in Hin. destruct Hin as (y & Hy & Hin).
  apply in_map_iff in Hin. destruct Hin as (x & Hp & Hx).
  apply in_map_iff in Hy. destruct Hy as (i & <- & Hi).
  apply in_map_iff in Hx. destruct Hx as (j & <- & Hj).
  apply in_seq in Hi, Hj.
  exists (i * step), (j * step).
  split; [apply ceil_div_bound; lia|]. split; [apply ceil_div_bound; lia|].
  symmetry; exact Hp.
Qed.

(** What [posterize_diverse] does on a non-empty image: it selects
    [K] colours and maps every pixel, then the palette table is
    accepted or refused. *)
Lemma posterize_diverse_run (img_rgb : RawImage) (colors : Z)
      (sample_step bucket : nat) (refine : bool) (map_chunk : nat) :
  0 < im_h img_rgb -> 0 < im_w img_rgb -> 0 < sample_step -> 1 <= map_chunk ->
  exists samples palette_rgb assign,
    _sample_uniform_grid img_rgb sample_step = Ok samples /\
    posterize_diverse img_rgb colors sample_step bucket refine map_chunk =
    (if 768 <? length (flat_map (fun c => [red c; green c; blue c]) palette_rgb)
     then Raise ValueError
     else Ok (mkP (im_h img_rgb) (im_w img_rgb) (map uint8 assign)
                  (flat_map (fun c => [red c; green c; blue c]) palette_rgb ++
                   repeat 0 (768 - length (flat_map (fun c => [red c; green c; blue c])
                                                    palette_rgb))))) /\
    length palette_rgb = S (Z.to_nat (palette_size colors - 1)) /\
    Forall (fun c => In c (_dedup_colors samples bucket)) palette_rgb /\
    length assign = length (im_px img_rgb) /\
    Forall (fun k => k < length palette_rgb) assign.
Proof.
  intros Hh Hw Hstep Hchunk.
  destruct (sample_uniform_grid_nonempty img_rgb sample_step Hh Hw Hstep)
    as (p0 & pts & Hsamples).
  unfold posterize_diverse. rewrite Hsamples. cbn [bind].
  set (cand_rgb := _dedup_colors (p0 :: pts) bucket).
  assert (Hcand : cand_rgb <> []) by (unfold cand_rgb, _dedup_colors; discriminate).
  assert (Hlab : _rgb_to_lab cand_rgb <> []).
  { unfold _rgb_to_lab. destruct cand_rgb; [congruence | discriminate]. }
  assert (Hlablen : length (_rgb_to_lab cand_rgb) = length cand_rgb)
    by (unfold _rgb_to_lab; apply length_map).
  destruct (farthest_point_palette_total (_rgb_to_lab cand_rgb) (palette_size colors) Hlab)
    as (chosen & Hchosen & Hclen & Hcall).
  rewrite Hchosen. cbn [bind].
  assert (Href : exists pal_idx,
             (if refine then _kmedoids_one_iter (_rgb_to_lab cand_rgb) chosen
              else Ok chosen) = Ok pal_idx /\
             length pal_idx = length chosen /\
             Forall (fun i => i < length cand_rgb) pal_idx).
  { destruct refine.
    - destruct (kmedoids_one_iter_total (_rgb_to_lab cand_rgb) chosen)
        as (new_idx & Hnew & Hnlen & Hnall).
      + destruct chosen; [discriminate | discriminate].
      + exact Hcall.
      + exists new_idx. split; [exact Hnew|]. split; [exact Hnlen|].
        rewrite <- Hlablen. exact Hnall.
    - exists chosen. split; [reflexivity|]. split; [reflexivity|].
      rewrite <- Hlablen. exact Hcall. }
  destruct Href as (pal_idx & Hpal_idx & Hplen0 & Hpall).
  rewrite Hpal_idx. cbn [bind].
  destruct (take_rows_ok cand_rgb pal_idx Hpall) as (palette_rgb & Hpalette & Hplen).
  rewrite Hpalette. cbn [bind].
  assert (Hpal_ne : _rgb_to_lab palette_rgb <> []).
  { unfold _rgb_to_lab. destruct palette_rgb; [|discriminate].
    simpl in Hplen. rewrite Hplen0, Hclen in Hplen. discriminate. }
  rewrite quantize_eq_one_pass by (rewrite ?repeat_length; lia).
  unfold quantize_one_pass.
  destruct (assign_nearest_ok (_rgb_to_lab palette_rgb) (_rgb_to_lab (im_px img_rgb)) Hpal_ne)
    as (assign & Ha & Halen & Hall).
  unfold _rgb_to_lab at 2 in Ha. rewrite mapM_map in Ha.
  rewrite Ha. cbn [bind].
  exists (p0 :: pts), palette_rgb, assign.
  split; [reflexivity|]. split; [reflexivity|].
  split; [lia|]. split; [exact (take_rows_In _ _ _ Hpalette)|].
  unfold _rgb_to_lab in Halen, Hall. rewrite !length_map in *.
  split; [exact Halen | exact Hall].
Qed.

(** What [posterize_diverse] returns on a non-empty image for at most
    256 colours. *)
Lemma posterize_diverse_result (img_rgb : RawImage) (colors : Z)
      (sample_step bucket : nat) (refine : bool) (map_chunk : nat) :
  0 < im_h img_rgb -> 0 < im_w img_rgb -> 0 < sample_step -> 1 <= map_chunk ->
  (colors <= 256)%Z ->
  exists samples palette_rgb assign,
    _sample_uniform_grid img_rgb sample_step = Ok samples /\
    posterize_diverse img_rgb colors sample_step bucket refine map_chunk =
    Ok (mkP (im_h img_rgb) (im_w img_rgb) (map uint8 assign)
            (flat_map (fun c => [red c; green c; blue c]) palette_rgb ++
             repeat 0 (768 - length (flat_map (fun c => [red c; green c; blue c])
                                              palette_rgb)))) /\
    length palette_rgb = S (Z.to_nat (palette_size colors - 1)) /\
    Forall (fun c => In c (_dedup_colors samples bucket)) palette_rgb /\
    length assign = length (im_px img_rgb) /\
    Forall (fun k => k < length palette_rgb) assign.
Proof.
  intros Hh Hw Hstep Hchunk Hcol.
  destruct (posterize_diverse_run img_rgb colors sample_step bucket refine map_chunk
              Hh Hw Hstep Hchunk)
    as (samples & palette_rgb & assign & Hs & Hrun & HK & Hrest).
  exists samples, palette_rgb, assign.
  split; [exact Hs|]. split; [|split; [exact HK | exact Hrest]].
  rewrite Hrun.
  assert (Hfits : (768 <? length (flat_map (fun c => [red c; green c; blue c])
                                           palette_rgb)) = false).
  { apply Nat.ltb_ge. rewrite pal_list_length. unfold palette_size in *. lia. }
  rewrite Hfits. reflexivity.
Qed.

(** X13. The indexed image that [posterize_diverse] returns for at most
    256 colours is well formed: it has the shape of the input, one index
    per pixel, every index below [K = max(2, colors)], and a palette
    table of 768 entries. *)
Theorem posterize_diverse_well_formed (img_rgb : RawImage) (colors : Z)
        (sample_step bucket : nat) (refine : bool) (map_chunk : nat) :
  0 < im_h img_rgb -> 0 < im_w img_rgb -> 0 < sample_step -> 1 <= map_chunk ->
  (colors <= 256)%Z ->
  exists pal,
    posterize_diverse img_rgb colors sample_step bucket refine map_chunk = Ok pal /\
    p_h pal = im_h img_rgb /\ p_w pal = im_w img_rgb /\
    length (p_idx pal) = length (im_px img_rgb) /\
    Forall (fun k => k < Z.to_nat (palette_size colors)) (p_idx pal) /\
    length (p_palette pal) = 768.
Proof.
  intros Hh Hw Hstep Hchunk Hcol.
  destruct (posterize_diverse_result img_rgb colors sample_step bucket refine map_chunk
              Hh Hw Hstep Hchunk Hcol)
    as (samples & palette_rgb & assign & _ & Hrun & HK & _ & Halen & Hall).
  eexists. split; [exact Hrun|]. cbn [p_h p_w p_idx p_palette].
  assert (HK' : length palette_rgb = Z.to_nat (palette_size colors))
    by (unfold palette_size in *; lia).
  assert (H256 : length palette_rgb <= 256) by (unfold palette_size in *; lia).
  split; [reflexivity|]. split; [reflexivity|].
  split; [rewrite length_map; exact Halen|]. split.
  - rewrite Forall_forall in *. intros k Hk. apply in_map_iff in Hk.
    destruct Hk as (k0 & <- & Hk0). specialize (Hall k0 Hk0).
    unfold uint8. rewrite Nat.mod_small by lia. lia.
  - assert (Hflat : forall l : list RGB,
               length (flat_map (fun c => [red c; green c; blue c]) l) = 3 * length l).
    { induction l as [|c l IH]; simpl; [reflexivity | rewrite IH; lia]. }
    rewrite length_app, repeat_length, Hflat. lia.
Qed.

(** X23. More than 256 colours do not fit the palette of an indexed
    image: on a non-empty image the builder selects the [K = colors]
    colours and maps every pixel, then [putpalette] refuses the table of
    more than 768 values with [ValueError], and so does the whole
    pipeline, with or without override. *)
Theorem posterize_diverse_too_many_colours (img_rgb : RawImage) (colors : Z)
        (sample_step bucket : nat) (refine : bool) :
  0 < im_h img_rgb -> 0 < im_w img_rgb -> 0 < sample_step ->
  (256 < colors)%Z ->
  (forall map_chunk, 1 <= map_chunk ->
     posterize_diverse img_rgb colors sample_step bucket refine map_chunk =
     Raise ValueError) /\
  (forall smin smax override,
     fix_pixel_art img_rgb colors smin smax sample_step bucket refine override =
     Raise ValueError).
Proof.
  intros Hh Hw Hstep Hcol.
  assert (Hpost : forall map_chunk, 1 <= map_chunk ->
            posterize_diverse img_rgb colors sample_step bucket refine map_chunk =
            Raise ValueError).
  { intros map_chunk Hchunk.
    destruct (posterize_diverse_run img_rgb colors sample_step bucket refine map_chunk
                Hh Hw Hstep Hchunk)
      as (samples & palette_rgb & assign & _ & Hrun & HK & _).
    rewrite Hrun.
    destruct (Nat.ltb_spec 768 (length (flat_map (fun c => [red c; green c; blue c])
                                                 palette_rgb))) as [_|Hle];
      [reflexivity|].
    rewrite pal_list_length in Hle. unfold palette_size in HK. lia. }
  split; [exact Hpost|].
  intros smin smax override. unfold fix_pixel_art.
  rewrite Hpost by (unfold default_map_chunk; lia).
  destruct override as [[oy ox]|]; reflexivity.
Qed.

(** X14. For at most 256 colours the palette holds no invented colour:
    each of its [K] colours is the bucket centre of a pixel of the
    image. *)
Theorem posterize_diverse_palette_from_image (img_rgb : RawImage) (colors : Z)
        (sample_step bucket : nat) (refine : bool) (map_chunk : nat) :
  0 < im_h img_rgb -> 0 < im_w img_rgb -> 0 < sample_step -> 1 <= map_chunk ->
  (colors <= 256)%Z ->
  exists pal palette_rgb,
    posterize_diverse img_rgb colors sample_step bucket refine map_chunk = Ok pal /\
    firstn (3 * length palette_rgb) (p_palette pal) =
    flat_map (fun c => [red c; green c; blue c]) palette_rgb /\
    length palette_rgb = Z.to_nat (palette_size colors) /\
    forall c, In c palette_rgb ->
      exists y x, y < im_h img_rgb /\ x < im_w img_rgb /\
        let p := nth (y * im_w img_rgb + x) (im_px img_rgb) black in
        c = mkRGB (bucket_channel bucket (red p))
                  (bucket_channel bucket (green p))
                  (bucket_channel bucket (blue p)).
Proof.
  intros Hh Hw Hstep Hchunk Hcol.
  destruct (posterize_diverse_result img_rgb colors sample_step bucket refine map_chunk
              Hh Hw Hstep Hchunk Hcol)
    as (samples & palette_rgb & assign & Hs & Hrun & HK & Hfrom & _).
  eexists. exists palette_rgb. split; [exact Hrun|]. cbn [p_palette].
  assert (Hflat : forall l : list RGB,
             length (flat_map (fun c => [red c; green c; blue c]) l) = 3 * length l).
  { induction l as [|c l IH]; simpl; [reflexivity | rewrite IH; lia]. }
  split.
  - rewrite firstn_app, Hflat, Nat.sub_diag, firstn_0, app_nil_r.
    rewrite <- Hflat. apply firstn_all.
  - split; [unfold palette_size in *; lia|].
    intros c Hc. rewrite Forall_forall in Hfrom. specialize (Hfrom c Hc).
    rewrite dedup_colors_eq, unique_in_order_In, in_map_iff in Hfrom.
    destruct Hfrom as [(p & Hp & Hin) _].
    destruct (sample_uniform_grid_In img_rgb sample_step samples p Hs Hin)
      as (y & x & Hy & Hx & Hpx).
    exists y, x. split; [exact Hy|]. split; [exact Hx|].
    cbv zeta. rewrite <- Hpx. symmetry; exact Hp.
Qed.

(** X15. With a manual override of positive block sizes and at most 256
    colours the pipeline succeeds on every well-formed non-empty image:
    it returns the
    quantised image, the override pair and a downscaled image of
    [(H // sy)] x [(W // sx)] pixels with the same palette. *)
Theorem fix_pixel_art_override_shape (img_prep : RawImage) (colors smin smax : Z)
        (sample_step bucket : nat) (refine : bool) (oy ox : Z) :
  0 < im_h img_prep -> 0 < im_w img_prep ->
  length (im_px img_prep) = im_h img_prep * im_w img_prep ->
  0 < sample_step -> (colors <= 256)%Z -> (0 < oy)%Z -> (0 < ox)%Z ->
  exists pal fixed,
    fix_pixel_art img_prep colors smin smax sample_step bucket refine (Some (oy, ox)) =
    Ok (pal, (oy, ox), fixed) /\
    p_h pal = im_h img_prep /\ p_w pal = im_w img_prep /\
    p_h fixed = im_h img_prep / Z.to_nat oy /\
    p_w fixed = im_w img_prep / Z.to_nat ox /\
    length (p_idx fixed) = p_h fixed * p_w fixed /\
    p_palette fixed = p_palette pal.
Proof.
  intros Hh Hw Hlen Hstep Hcol Hoy Hox.
  destruct (posterize_diverse_result img_prep colors sample_step bucket refine
              default_map_chunk Hh Hw Hstep)
    as (samples & palette_rgb & assign & _ & Hrun & _ & _ & Halen & _).
  { unfold default_map_chunk. lia. }
  { exact Hcol. }
  unfold fix_pixel_art. rewrite Hrun. cbn [bind].
  match goal with
  | |- context [downscale_by_mode (mkP ?h ?w ?d ?p) oy ox] =>
      destruct (downscale_by_mode_modes h w d p oy ox) as (out_flat & Hd & Hol & _)
  end.
  - rewrite length_map, Halen. exact Hlen.
  - rewrite Forall_forall. intros v Hv. apply in_map_iff in Hv.
    destruct Hv as (k & <- & _). unfold uint8. apply Nat.mod_upper_bound. lia.
  - exact Hoy.
  - exact Hox.
  - rewrite Hd. cbn [bind]. eexists. eexists. split; [reflexivity|].
    cbn [p_h p_w p_idx p_palette]. repeat split. exact Hol.
Qed.

End BuilderMore.

(** ** The chunk loop, the period search and the pipeline *)

Section PipelineMore.

Context {F : Type} {ops : Float64 F}.

(** X16. A chunk size of zero makes no progress: with at least one
    pixel and a non-empty palette the loop of lines 162-168 never
    reaches its end, whatever the number of iterations allowed, so the
    quantisation does not return. *)
Theorem quantize_zero_chunk_never_ends (flat_rgb palette_rgb : list RGB)
        (junk : list nat) :
  flat_rgb <> [] -> palette_rgb <> [] ->
  (forall fuel, quantize_loop fuel 0 flat_rgb (_rgb_to_lab palette_rgb) 0 junk = OutOfFuel) /\
  quantize flat_rgb palette_rgb 0 junk = OutOfFuel.
Proof.
  intros Hflat Hpal.
  assert (Hloop : forall fuel start out,
             start < length flat_rgb ->
             quantize_loop fuel 0 flat_rgb (_rgb_to_lab palette_rgb) start out = OutOfFuel).
  { induction fuel as [|fuel IH]; intros start out Hstart; simpl;
      destruct (Nat.ltb_spec start (length flat_rgb)) as [_|?]; try lia; [reflexivity|].
    replace (Nat.min (start + 0) (length flat_rgb)) with start by lia.
    unfold slice. rewrite Nat.sub_diag. cbn [firstn _rgb_to_lab map].
    unfold assign_nearest, _rgb_to_lab.
    destruct palette_rgb as [|p ps]; [congruence|]. cbn [map mapM bind].
    unfold set_slice. cbn [map app]. rewrite firstn_skipn.
    apply IH. exact Hstart. }
  assert (H0 : 0 < length flat_rgb) by (destruct flat_rgb; [congruence | simpl; lia]).
  split; [intro fuel; apply Hloop; exact H0 | apply Hloop; exact H0].
Qed.

Lemma period_loop_range (strength : list F) (lo up : Z) :
  (0 < lo)%Z ->
  forall (ss : list Z) (st : option Z * F),
    Forall (fun s => lo <= s <= up)%Z ss ->
    (fst st = None \/ exists s, fst st = Some s /\ (lo <= s <= up)%Z) ->
    exists st',
      period_loop strength st ss = Ok st' /\
      (fst st' = None \/ exists s, fst st' = Some s /\ (lo <= s <= up)%Z).
Proof.
  intro Hlo. induction ss as [|s ss IH]; intros st Hall Hst.
  - exists st. split; [reflexivity | exact Hst].
  - inversion Hall as [|? ? Hs Hall']; subst. simpl. unfold period_step.
    destruct (Z.ltb_spec s 0) as [?|_]; [lia|].
    destruct (Z.eqb_spec s 0) as [?|_]; [lia|].
    cbn [bind]. apply IH; [exact Hall'|].
    destruct (fltb (snd st) _); [|exact Hst].
    right. exists s. split; [reflexivity | exact Hs].
Qed.

Lemma py_range_bounds (lo hi : Z) :
  Forall (fun s => lo <= s <= hi - 1)%Z (py_range lo hi).
Proof.
  unfold py_range. rewrite Forall_forall. intros s Hs.
  apply in_map_iff in Hs. destruct Hs as (i & <- & Hi). apply in_seq in Hi. lia.
Qed.

Lemma best_period_range_aux (strength : list nat) (lo hi : Z) :
  (1 <= lo)%Z ->
  exists s, _best_period strength lo hi = Ok s /\ (1 <= s)%Z.
Proof.
  intro Hlo. unfold _best_period. rewrite !length_map.
  set (up := Z.min hi (Z.of_nat (length strength))).
  match goal with
  | |- context [period_loop ?str ?st ?ss] =>
      destruct (period_loop_range str lo up ltac:(lia) ss st) as (st' & Hrun & Hst)
  end.
  - pose proof (py_range_bounds lo (up + 1)) as Hb.
    rewrite Forall_forall in *. intros s Hs. specialize (Hb s Hs). lia.
  - left; reflexivity.
  - rewrite Hrun. cbn [bind]. eexists. split; [reflexivity|].
    destruct Hst as [-> | (s & -> & Hs)]; [lia|].
    destruct (Z.eqb_spec s 0); lia.
Qed.

(** X17. With a lower bound of at least 1 the period search fails on
    no input, and its answer is either the fallback 1 or a period of
    the search range [[lo, min(hi, n)]], [n] being the length of the
    profile. *)
Theorem best_period_in_range (strength : list nat) (lo hi : Z) :
  (1 <= lo)%Z ->
  exists s,
    _best_period strength lo hi = Ok s /\
    (s = 1%Z \/ (lo <= s <= Z.min hi (Z.of_nat (length strength)))%Z).
Proof.
  intro Hlo. unfold _best_period. rewrite !length_map.
  set (up := Z.min hi (Z.of_nat (length strength))).
  match goal with
  | |- context [period_loop ?str ?st ?ss] =>
      destruct (period_loop_range str lo up ltac:(lia) ss st) as (st' & Hrun & Hst)
  end.
  - pose proof (py_range_bounds lo (up + 1)) as Hb.
    rewrite Forall_forall in *. intros s Hs. specialize (Hb s Hs). lia.
  - left; reflexivity.
  - rewrite Hrun. cbn [bind]. eexists. split; [reflexivity|].
    destruct Hst as [-> | (s & -> & Hs)]; [left; reflexivity|].
    destruct (Z.eqb_spec s 0); [left; reflexivity | right; exact Hs].
Qed.

(** X18. A lower bound below 1 is an error as soon as the search range
    is not empty: the first period tried is [lo], and the score of a
    period 0 divides by zero ([ZeroDivisionError]) while a negative
    period has no square root ([ValueError]). *)
Theorem best_period_nonpositive_lower_bound (strength : list nat) (lo hi : Z) :
  (lo <= 0)%Z -> (lo <= Z.min hi (Z.of_nat (length strength)))%Z ->
  _best_period strength lo hi =
  Raise (if (lo =? 0)%Z then ZeroDivisionError else ValueError).
Proof.
  intros Hlo Hrange. unfold _best_period. rewrite !length_map. unfold py_range.
  destruct (Z.to_nat (Z.min hi (Z.of_nat (length strength)) + 1 - lo)) as [|k] eqn:Ek; [lia|].
  cbn [seq map period_loop]. rewrite Z.add_0_r. unfold period_step.
  destruct (Z.ltb_spec lo 0) as [Hneg|Hge].
  - destruct (Z.eqb_spec lo 0); [lia | reflexivity].
  - destruct (Z.eqb_spec lo 0); [reflexivity | lia].
Qed.

(** X19. The outcomes of the pipeline without override, for a lower
    bound [smin >= 1] and at most 256 colours on a well-formed
    non-empty image: the
    quantisation and the estimation return, both estimates are at least
    1, and with [m] their maximum the pipeline either raises
    [ZeroDivisionError] (when [m = 1]) or returns the block size
    [(m-1, m-1)] with an image of [(H // (m-1))] x [(W // (m-1))]
    pixels. *)
Theorem fix_pixel_art_outcomes (img_prep : RawImage) (colors smin smax : Z)
        (sample_step bucket : nat) (refine : bool) :
  0 < im_h img_prep -> 0 < im_w img_prep ->
  length (im_px img_prep) = im_h img_prep * im_w img_prep ->
  0 < sample_step -> (colors <= 256)%Z -> (1 <= smin)%Z ->
  exists pal sy sx,
    posterize_diverse img_prep colors sample_step bucket refine default_map_chunk = Ok pal /\
    estimate_grid_step_from_edges pal smin smax = Ok (sy, sx) /\
    (1 <= sy)%Z /\ (1 <= sx)%Z /\
    let m := Z.max sy sx in
    (m = 1%Z ->
     fix_pixel_art img_prep colors smin smax sample_step bucket refine None =
     Raise ZeroDivisionError) /\
    ((1 < m)%Z ->
     exists fixed,
       fix_pixel_art img_prep colors smin smax sample_step bucket refine None =
       Ok (pal, ((m - 1)%Z, (m - 1)%Z), fixed) /\
       p_h fixed = im_h img_prep / Z.to_nat (m - 1) /\
       p_w fixed = im_w img_prep / Z.to_nat (m - 1) /\
       p_palette fixed = p_palette pal).
Proof.
  intros Hh Hw Hlen Hstep Hcol Hsmin.
  destruct (posterize_diverse_result img_prep colors sample_step bucket refine
              default_map_chunk Hh Hw Hstep)
    as (samples & palette_rgb & assign & _ & Hrun & _ & _ & Halen & _).
  { unfold default_map_chunk. lia. }
  { exact Hcol. }
  match type of Hrun with _ = Ok ?p => set (pal := p) in * end.
  assert (Hest : exists sy sx,
             estimate_grid_step_from_edges pal smin smax = Ok (sy, sx) /\
             (1 <= sy)%Z /\ (1 <= sx)%Z).
  { unfold estimate_grid_step_from_edges.
    match goal with
    | |- context [_best_period ?cs smin smax] =>
        destruct (best_period_range_aux cs smin smax Hsmin) as (sx & Hsx & Hsx1);
        rewrite Hsx; cbn [bind]
    end.
    match goal with
    | |- context [_best_period ?rs smin smax] =>
        destruct (best_period_range_aux rs smin smax Hsmin) as (sy & Hsy & Hsy1);
        rewrite Hsy; cbn [bind]
    end.
    exists sy, sx. split; [reflexivity|]. split; assumption. }
  destruct Hest as (sy & sx & Hest & Hsy1 & Hsx1).
  exists pal, sy, sx. split; [exact Hrun|]. split; [exact Hest|].
  split; [exact Hsy1|]. split; [exact Hsx1|].
  cbv zeta. unfold fix_pixel_art. rewrite Hrun. cbn [bind]. rewrite Hest. cbn [bind].
  split.
  - intro Hm.
    destruct (Z.ltb_spec sx sy); cbn [bind];
      unfold downscale_by_mode, py_floordiv.
    + replace (sy - 1)%Z with 0%Z by lia. reflexivity.
    + replace (sx - 1)%Z with 0%Z by lia. reflexivity.
  - intro Hm.
    destruct (downscale_by_mode_modes (p_h pal) (p_w pal) (p_idx pal) (p_palette pal)
                (Z.max sy sx - 1) (Z.max sy sx - 1))
      as (out_flat & Hd & Hol & _).
    + unfold pal. cbn [p_h p_w p_idx]. rewrite length_map, Halen. exact Hlen.
    + unfold pal. cbn [p_idx]. rewrite Forall_forall. intros v Hv. apply in_map_iff in Hv.
      destruct Hv as (k & <- & _). unfold uint8. apply Nat.mod_upper_bound. lia.
    + lia.
    + lia.
    + change (mkP (p_h pal) (p_w pal) (p_idx pal) (p_palette pal)) with pal in Hd.
      destruct (Z.ltb_spec sx sy); cbn [bind].
      * rewrite Z.max_l in * by lia. rewrite Hd. cbn [bind].
        eexists. split; [reflexivity|]. repeat split.
      * rewrite Z.max_r in * by lia. rewrite Hd. cbn [bind].
        eexists. split; [reflexivity|]. repeat split.
Qed.

End PipelineMore.

(** ** Transparency *)

Section TransparencyMore.

Context {F : Type} {ops : Float64 F}.

(** X20. What lies under transparent pixels does not matter: two RGBA
    images of the same shape with the same alpha channel that agree on
    the colour of every pixel with alpha above 64 are flattened to the
    same RGB image, and the pipeline gives the same result on both. *)
Theorem fix_pixel_art_image_ignores_hidden_colours
        (h w : nat) (px1 px2 : list RGBA) (colors smin smax : Z)
        (sample_step bucket : nat) (refine : bool) (override : option (Z * Z)) :
  Forall2 (fun p q =>
             rgba_a p = rgba_a q /\
             (64 < rgba_a p ->
              rgba_r p = rgba_r q /\ rgba_g p = rgba_g q /\ rgba_b p = rgba_b q))
          px1 px2 ->
  flatten_transparency_threshold (ImageRGBA h w px1) =
  flatten_transparency_threshold (ImageRGBA h w px2) /\
  fix_pixel_art_image (ImageRGBA h w px1) colors smin smax sample_step bucket refine override =
  fix_pixel_art_image (ImageRGBA h w px2) colors smin smax sample_step bucket refine override.
Proof.
  intro Hagree.
  assert (Hflat : flatten_transparency_threshold (ImageRGBA h w px1) =
                  flatten_transparency_threshold (ImageRGBA h w px2)).
  { cbn [flatten_transparency_threshold image_height image_width convert_RGBA]. f_equal.
    induction Hagree as [|p q l1 l2 [Ha Hc] _ IH]; [reflexivity|].
    cbn [map]. rewrite IH, <- Ha. f_equal.
    destruct (Nat.leb_spec (rgba_a p) 64) as [_|Hgt]; [reflexivity|].
    destruct (Hc Hgt) as (-> & -> & ->). reflexivity. }
  split; [exact Hflat|]. unfold fix_pixel_art_image. rewrite Hflat. reflexivity.
Qed.

End TransparencyMore.

(** ** A uniform image *)

Section UniformMore.

Context {F : Type} {ops : Float64 F}.

Lemma arg_scan_constant {A : Type} (better : A -> A -> bool) (x : A) (n i : nat) :
  better x x = false -> arg_scan better x 0 i (repeat x n) = 0.
Proof.
  intro Hx. revert i. induction n as [|n IH]; intro i; simpl; [reflexivity|].
  rewrite Hx. apply IH.
Qed.

Lemma np_arg_constant {A : Type} (better : A -> A -> bool) (x : A) (n : nat) :
  better x x = false -> np_arg better (repeat x (S n)) = Ok 0.
Proof.
  intro Hx. simpl. f_equal. apply arg_scan_constant. exact Hx.
Qed.

Lemma mapM_constant {A B : Type} (f : A -> result B) (v : B) (xs : list A) :
  (forall x, In x xs -> f x = Ok v) -> mapM f xs = Ok (repeat v (length xs)).
Proof.
  induction xs as [|x xs IH]; intro H; simpl; [reflexivity|].
  rewrite (H x (or_introl eq_refl)). cbn [bind].
  rewrite IH by (intros; apply H; right; assumption). reflexivity.
Qed.

Lemma unique_in_order_seen (xs seen : list RGB) :
  (forall x, In x xs -> In x seen) -> unique_in_order seen xs = [].
Proof.
  induction xs as [|y ys IH]; intro H; simpl; [reflexivity|].
  rewrite (proj2 (existsb_RGB_In y seen)) by (apply H; left; reflexivity).
  apply IH. intros x Hx. apply H. right; exact Hx.
Qed.

Lemma take_rows_repeat {A : Type} (c : A) (m : nat) :
  take_rows [c] (repeat 0 m) = Ok (repeat c m).
Proof.
  unfold take_rows. rewrite (mapM_constant _ c).
  - rewrite repeat_length. reflexivity.
  - intros i Hi. apply repeat_spec in Hi. subst i. reflexivity.
Qed.

Lemma farthest_loop_single (c : Lab) :
  forall (n : nat) (chosen : list nat) (x : F),
    farthest_loop [c] n chosen [x] = Ok (chosen ++ repeat 0 n).
Proof.
  induction n as [|n IH]; intros chosen x; simpl.
  - rewrite app_nil_r. reflexivity.
  - rewrite IH, <- app_assoc. reflexivity.
Qed.

Lemma kmedoids_single (c : Lab) (n : nat) :
  (forall x : F, fltb x x = false) ->
  _kmedoids_one_iter [c] (repeat 0 (S n)) = Ok (repeat 0 (S n)).
Proof.
  intro Hirr. unfold _kmedoids_one_iter.
  rewrite take_rows_repeat. cbn [bind].
  assert (Hassign : assign_nearest (repeat c (S n)) [c] = Ok [0]).
  { unfold assign_nearest. cbn [repeat mapM]. unfold nearest_index, np_argmin.
    change (c :: repeat c n) with (repeat c (S n)).
    rewrite map_repeat, np_arg_constant by apply Hirr. reflexivity. }
  rewrite Hassign. cbn [bind].
  rewrite (mapM_constant _ 0).
  - rewrite length_seq, repeat_length. reflexivity.
  - intros k Hk. destruct k as [|k].
    + reflexivity.
    + cbn. rewrite nth_repeat. reflexivity.
Qed.

(** X21. On an image of one colour [p] the palette builder, asked for
    at most 256 colours, returns [K] copies of the bucket centre of [p]
    and gives every pixel the index 0 (a float is never below itself,
    which is all that is assumed of the comparison). *)
Theorem posterize_diverse_uniform_image (h w : nat) (p : RGB) (colors : Z)
        (sample_step bucket : nat) (refine : bool) (map_chunk : nat) :
  (forall x : F, fltb x x = false) ->
  0 < h -> 0 < w -> 0 < sample_step -> 1 <= map_chunk ->
  (colors <= 256)%Z ->
  let q := mkRGB (bucket_channel bucket (red p))
                 (bucket_channel bucket (green p))
                 (bucket_channel bucket (blue p)) in
  let K := Z.to_nat (palette_size colors) in
  exists pal,
    posterize_diverse (mkRaw h w (repeat p (h * w))) colors sample_step bucket refine map_chunk
    = Ok pal /\
    p_h pal = h /\ p_w pal = w /\
    p_idx pal = repeat 0 (h * w) /\
    firstn (3 * K) (p_palette pal) =
    flat_map (fun c => [red c; green c; blue c]) (repeat q K).
Proof.
  intros Hirr Hh Hw Hstep Hchunk Hcol q K.
  set (img := mkRaw h w (repeat p (h * w))).
  destruct (sample_uniform_grid_nonempty img sample_step Hh Hw Hstep)
    as (p0 & pts & Hsamples).
  assert (Hall : forall x, In x (p0 :: pts) -> x = p).
  { intros x Hx.
    destruct (sample_uniform_grid_In img sample_step _ x Hsamples Hx)
      as (y & x0 & Hy & Hx0 & ->).
    unfold img in *. cbn [im_h im_w im_px] in *. apply nth_repeat_lt.
    assert (Hrow : (y + 1) * w <= h * w) by (apply Nat.mul_le_mono_r; lia).
    lia. }
  assert (Hcand : _dedup_colors (p0 :: pts) bucket = [q]).
  { rewrite dedup_colors_eq. cbn [map unique_in_order existsb].
    rewrite (Hall p0 (or_introl eq_refl)). fold q. f_equal.
    apply unique_in_order_seen. intros x Hx. left.
    apply in_map_iff in Hx. destruct Hx as (x' & <- & Hx').
    rewrite (Hall x' (or_intror Hx')). reflexivity. }
  unfold posterize_diverse. rewrite Hsamples. cbn [bind]. rewrite Hcand.
  cbn [_rgb_to_lab map].
  assert (HK : S (Z.to_nat (palette_size colors - 1)) = K)
    by (unfold K, palette_size; lia).
  assert (Hfar : _farthest_point_palette [to_lab q] (palette_size colors) None =
                 Ok (repeat 0 K)).
  { unfold _farthest_point_palette. cbn. rewrite farthest_loop_single.
    rewrite <- HK. reflexivity. }
  rewrite Hfar. cbn [bind].
  assert (Href : (if refine then _kmedoids_one_iter [to_lab q] (repeat 0 K)
                  else Ok (repeat 0 K)) = Ok (repeat 0 K)).
  { destruct refine; [|reflexivity]. rewrite <- HK. apply kmedoids_single. exact Hirr. }
  rewrite Href. cbn [bind]. rewrite take_rows_repeat. cbn [bind].
  cbn [im_px im_h im_w img].
  rewrite quantize_eq_one_pass by (rewrite ?repeat_length; lia).
  unfold quantize_one_pass.
  rewrite (mapM_constant _ 0).
  2:{ intros x _. unfold nearest_index, np_argmin, _rgb_to_lab.
      rewrite <- HK, !map_repeat. apply np_arg_constant. apply Hirr. }
  cbn [bind]. rewrite repeat_length, map_repeat.
  assert (Hfits : (768 <? length (flat_map (fun c => [red c; green c; blue c])
                                           (repeat q K))) = false).
  { apply Nat.ltb_ge. rewrite pal_list_length, repeat_length.
    unfold K, palette_size. lia. }
  rewrite Hfits.
  eexists. split; [reflexivity|]. cbn [p_h p_w p_idx p_palette].
  split; [reflexivity|]. split; [reflexivity|]. split; [reflexivity|].
  assert (Hflat : forall l : list RGB,
             length (flat_map (fun c => [red c; green c; blue c]) l) = 3 * length l).
  { induction l as [|c l IH]; simpl; [reflexivity | rewrite IH; lia]. }
  rewrite firstn_app, Hflat, repeat_length, Nat.sub_diag, firstn_0, app_nil_r.
  replace (3 * K) with (length (flat_map (fun c => [red c; green c; blue c]) (repeat q K)))
    by (rewrite Hflat, repeat_length; reflexivity).
  apply firstn_all.
Qed.

End UniformMore.

(** ** The medoid refinement *)

Section MedoidsMore.

Context {F : Type} {ops : Float64 F}.




End MedoidsMore.

(** ** The further properties at sample inputs *)

#[local] Existing Instance IntModel.ops.

Lemma downscale_by_one_is_identity_witness :
  length (p_idx Examples.indexed) = p_h Examples.indexed * p_w Examples.indexed /\
  downscale_by_mode Examples.indexed 1 1 = Ok Examples.indexed.
Proof.
  split; [reflexivity|].
  apply downscale_by_one_is_identity; [reflexivity | apply Forall_ltb; reflexivity].
Defined.

Lemma downscale_by_mode_oversized_block_witness :
  (Z.of_nat (p_h Examples.indexed) < 5 \/ Z.of_nat (p_w Examples.indexed) < 2)%Z /\
  exists out,
    downscale_by_mode Examples.indexed 5 2 = Ok out /\
    p_idx out = [] /\ (p_h out = 0 \/ p_w out = 0) /\
    p_palette out = p_palette Examples.indexed.
Proof.
  split; [left; simpl; lia|].
  apply downscale_by_mode_oversized_block;
    [reflexivity | apply Forall_ltb; reflexivity | lia | lia | left; simpl; lia].
Defined.

Lemma downscale_by_mode_keeps_indices_witness :
  exists out,
    downscale_by_mode Examples.indexed 2 2 = Ok out /\
    (forall v, In v (p_idx out) -> In v (p_idx Examples.indexed)) /\
    (forall K, Forall (fun v => v < K) (p_idx Examples.indexed) ->
               Forall (fun v => v < K) (p_idx out)).
Proof.
  apply downscale_by_mode_keeps_indices;
    [reflexivity | apply Forall_ltb; reflexivity | lia | lia].
Defined.

Lemma downscale_of_preview_is_identity_witness :
  let fixed := mkP 2 2 [0; 1; 3; 1] [255; 0; 0] in
  0 < 3 /\
  downscale_by_mode (preview_resize fixed 3) (Z.of_nat 3) (Z.of_nat 3) = Ok fixed.
Proof.
  cbv zeta. split; [lia|].
  apply downscale_of_preview_is_identity;
    [reflexivity | apply Forall_ltb; reflexivity | lia].
Defined.

Lemma sample_uniform_grid_positions_witness :
  let img_np := mkRaw 3 5 (map (fun n => mkRGB n 0 0) (seq 0 15)) in
  let step := 2 in
  exists pts,
    _sample_uniform_grid img_np step = Ok pts /\
    length pts = ((im_h img_np + step - 1) / step) * ((im_w img_np + step - 1) / step) /\
    forall i j,
      i < (im_h img_np + step - 1) / step ->
      j < (im_w img_np + step - 1) / step ->
      i * step < im_h img_np /\ j * step < im_w img_np /\
      nth (i * ((im_w img_np + step - 1) / step) + j) pts black =
      nth (i * step * im_w img_np + j * step) (im_px img_np) black.
Proof.
  cbv zeta. apply sample_uniform_grid_positions. lia.
Defined.

Lemma sample_uniform_grid_stride_one_witness :
  let img_np := mkRaw 3 5 (map (fun n => mkRGB n 0 0) (seq 0 15)) in
  _sample_uniform_grid img_np 1 = Ok (im_px img_np).
Proof.
  cbv zeta. apply sample_uniform_grid_stride_one. reflexivity.
Defined.

Lemma bucket_channel_within_half_witness :
  bucket_channel 16 200 < 256 /\
  bucket_channel 16 200 <= 200 + 16 / 2 /\
  200 <= bucket_channel 16 200 + 16 / 2.
Proof.
  apply bucket_channel_within_half; [lia | reflexivity | lia].
Defined.

Lemma dedup_colors_idempotent_witness :
  let rgb := [mkRGB 255 0 0; mkRGB 250 3 1; mkRGB 0 0 0] in
  _dedup_colors (_dedup_colors rgb 16) 16 = _dedup_colors rgb 16.
Proof.
  cbv zeta. apply dedup_colors_idempotent; [lia | reflexivity|].
  repeat constructor; simpl; lia.
Defined.

Lemma farthest_point_palette_small_K_witness :
  exists seed,
    _farthest_point_palette Examples.candidates 1 None = Ok [seed] /\
    np_argmax (map chroma Examples.candidates) = Ok seed /\
    seed < length Examples.candidates.
Proof.
  apply (@farthest_point_palette_small_K Z IntModel.ops Examples.candidates 1);
    [discriminate | lia].
Defined.

Lemma posterize_diverse_empty_image_witness :
  posterize_diverse (mkRaw 0 3 []) 10 4 16 true 1 = Raise ValueError.
Proof.
  apply (@posterize_diverse_empty_image Z IntModel.ops (mkRaw 0 3 []) 10 4 16 true 1);
    [lia | left; reflexivity].
Defined.

Lemma farthest_point_palette_separation_witness :
  exists chosen,
    _farthest_point_palette Examples.candidates 3 None = Ok chosen /\
    (forall s t c,
      s < t < length chosen -> In c Examples.candidates ->
      fltb (_deltaE76 (nth (nth t chosen 0) Examples.candidates c)
                      (nth (nth s chosen 0) Examples.candidates c))
           (nearest_chosen Examples.candidates chosen c) = false) /\
    (forall picks more c,
      picks <> [] ->
      fltb (nearest_chosen Examples.candidates picks c)
           (nearest_chosen Examples.candidates (picks ++ more) c) = false).
Proof.
  apply (@farthest_point_palette_separation Z IntModel.ops Examples.candidates 3 int_ltb_swo);
    [discriminate | lia].
Defined.

Lemma posterize_diverse_well_formed_witness :
  exists pal,
    posterize_diverse Examples.one_pixel 10 4 16 true 1 = Ok pal /\
    p_h pal = im_h Examples.one_pixel /\ p_w pal = im_w Examples.one_pixel /\
    length (p_idx pal) = length (im_px Examples.one_pixel) /\
    Forall (fun k => k < Z.to_nat (palette_size 10)) (p_idx pal) /\
    length (p_palette pal) = 768.
Proof.
  apply (@posterize_diverse_well_formed Z IntModel.ops Examples.one_pixel 10 4 16 true 1);
    simpl; lia.
Defined.

Lemma posterize_diverse_palette_from_image_witness :
  exists pal palette_rgb,
    posterize_diverse Examples.one_pixel 10 4 16 true 1 = Ok pal /\
    firstn (3 * length palette_rgb) (p_palette pal) =
    flat_map (fun c => [red c; green c; blue c]) palette_rgb /\
    length palette_rgb = Z.to_nat (palette_size 10) /\
    forall c, In c palette_rgb ->
      exists y x, y < im_h Examples.one_pixel /\ x < im_w Examples.one_pixel /\
        let p := nth (y * im_w Examples.one_pixel + x) (im_px Examples.one_pixel) black in
        c = mkRGB (bucket_channel 16 (red p))
                  (bucket_channel 16 (green p))
                  (bucket_channel 16 (blue p)).
Proof.
  apply (@posterize_diverse_palette_from_image Z IntModel.ops
           Examples.one_pixel 10 4 16 true 1); simpl; lia.
Defined.

Lemma fix_pixel_art_override_shape_witness :
  let img_prep := mkRaw 3 5 (map (fun n => mkRGB (16 * n) 0 0) (seq 0 15)) in
  exists pal fixed,
    fix_pixel_art img_prep 4 2 64 1 16 true (Some (2, 2)%Z) = Ok (pal, (2, 2)%Z, fixed) /\
    p_h pal = im_h img_prep /\ p_w pal = im_w img_prep /\
    p_h fixed = im_h img_prep / Z.to_nat 2 /\
    p_w fixed = im_w img_prep / Z.to_nat 2 /\
    length (p_idx fixed) = p_h fixed * p_w fixed /\
    p_palette fixed = p_palette pal.
Proof.
  cbv zeta.
  apply (@fix_pixel_art_override_shape Z IntModel.ops
           (mkRaw 3 5 (map (fun n => mkRGB (16 * n) 0 0) (seq 0 15))) 4 2 64 1 16 true 2 2);
    try reflexivity; simpl; lia.
Defined.

Lemma quantize_zero_chunk_never_ends_witness :
  (forall fuel,
      quantize_loop fuel 0 Examples.pixels (_rgb_to_lab Examples.palette) 0 [9; 9; 9]
      = OutOfFuel) /\
  quantize Examples.pixels Examples.palette 0 [9; 9; 9] = OutOfFuel.
Proof.
  apply (@quantize_zero_chunk_never_ends Z IntModel.ops
           Examples.pixels Examples.palette [9; 9; 9]); discriminate.
Defined.

Lemma best_period_in_range_witness :
  let strength := [0; 4; 0; 4; 0] in
  exists s,
    _best_period strength 2 64 = Ok s /\
    (s = 1%Z \/ (2 <= s <= Z.min 64 (Z.of_nat (length strength)))%Z).
Proof.
  cbv zeta. apply (@best_period_in_range Z IntModel.ops [0; 4; 0; 4; 0] 2 64). lia.
Defined.

Lemma best_period_nonpositive_lower_bound_witness :
  _best_period [0; 4; 0; 4; 0] 0 64 = Raise ZeroDivisionError /\
  _best_period [0; 4; 0; 4; 0] (-3) 64 = Raise ValueError.
Proof.
  split.
  - apply (@best_period_nonpositive_lower_bound Z IntModel.ops [0; 4; 0; 4; 0] 0 64);
      simpl; lia.
  - apply (@best_period_nonpositive_lower_bound Z IntModel.ops [0; 4; 0; 4; 0] (-3) 64);
      simpl; lia.
Defined.

Lemma fix_pixel_art_outcomes_witness :
  let img_prep := mkRaw 3 5 (map (fun n => mkRGB (16 * n) 0 0) (seq 0 15)) in
  exists pal sy sx,
    posterize_diverse img_prep 4 1 16 true default_map_chunk = Ok pal /\
    estimate_grid_step_from_edges pal 2 64 = Ok (sy, sx) /\
    (1 <= sy)%Z /\ (1 <= sx)%Z /\
    let m := Z.max sy sx in
    (m = 1%Z ->
     fix_pixel_art img_prep 4 2 64 1 16 true None = Raise ZeroDivisionError) /\
    ((1 < m)%Z ->
     exists fixed,
       fix_pixel_art img_prep 4 2 64 1 16 true None =
       Ok (pal, ((m - 1)%Z, (m - 1)%Z), fixed) /\
       p_h fixed = im_h img_prep / Z.to_nat (m - 1) /\
       p_w fixed = im_w img_prep / Z.to_nat (m - 1) /\
       p_palette fixed = p_palette pal).
Proof.
  cbv zeta.
  apply (@fix_pixel_art_outcomes Z IntModel.ops
           (mkRaw 3 5 (map (fun n => mkRGB (16 * n) 0 0) (seq 0 15))) 4 2 64 1 16 true);
    try reflexivity; simpl; lia.
Defined.

Lemma fix_pixel_art_image_ignores_hidden_colours_witness :
  let px1 := [mkRGBA 9 9 9 10; mkRGBA 1 2 3 200] in
  let px2 := [mkRGBA 7 7 7 10; mkRGBA 1 2 3 200] in
  flatten_transparency_threshold (ImageRGBA 1 2 px1) =
  flatten_transparency_threshold (ImageRGBA 1 2 px2) /\
  fix_pixel_art_image (ImageRGBA 1 2 px1) 4 2 64 1 16 true None =
  fix_pixel_art_image (ImageRGBA 1 2 px2) 4 2 64 1 16 true None.
Proof.
  cbv zeta.
  apply (@fix_pixel_art_image_ignores_hidden_colours Z IntModel.ops).
  constructor; [split; [reflexivity | simpl; lia]|].
  constructor; [split; [reflexivity | intros _; repeat split] | constructor].
Defined.

Lemma posterize_diverse_uniform_image_witness :
  let p := mkRGB 100 50 25 in
  let q := mkRGB (bucket_channel 16 (red p))
                 (bucket_channel 16 (green p))
                 (bucket_channel 16 (blue p)) in
  let K := Z.to_nat (palette_size 4) in
  exists pal,
    posterize_diverse (mkRaw 2 3 (repeat p (2 * 3))) 4 4 16 true 1 = Ok pal /\
    p_h pal = 2 /\ p_w pal = 3 /\
    p_idx pal = repeat 0 (2 * 3) /\
    firstn (3 * K) (p_palette pal) =
    flat_map (fun c => [red c; green c; blue c]) (repeat q K).
Proof.
  cbv zeta.
  apply (@posterize_diverse_uniform_image Z IntModel.ops 2 3 (mkRGB 100 50 25) 4 4 16 true 1);
    try lia.
  intro x. apply Z.ltb_irrefl.
Defined.


Lemma posterize_diverse_too_many_colours_witness :
  (forall map_chunk, 1 <= map_chunk ->
     posterize_diverse Examples.one_pixel 257 4 16 true map_chunk = Raise ValueError) /\
  (forall smin smax override,
     fix_pixel_art Examples.one_pixel 257 smin smax 4 16 true override = Raise ValueError).
Proof.
  apply (@posterize_diverse_too_many_colours Z IntModel.ops Examples.one_pixel 257 4 16 true);
    simpl; lia.
Defined.
